(** * Hdl21: elaboration, protobuf export and ASAP7 lowering

    A shallow embedding of

    - [hdl21/elab/elaborators/base.py]  (the base [Elaborator]),
    - [hdl21/proto/to_proto.py]         (the [ProtoExporter]),
    - [hdl21/primitives.py]             ([MosParams], [PrimitiveCall]),
    - [hdl21pdk/asap7/asap7.py]         (the [Asap7Walker]),

    together with the properties of these programs that the specification
    states.  Python objects with identity (Modules, ExternalModules) are
    addressed by a natural number standing for [id(obj)]; dictionaries keyed
    by [id(...)] are finite maps over these numbers.  Exceptions and the
    mutation of the engine's attributes are threaded through a small
    state-and-exception monad. *)

From Stdlib Require Import ZArith String List Lia.
From stdpp Require Import base option gmap strings list relations.
From Equations Require Import Equations.

Open Scope string_scope.
Open Scope Z_scope.

(** ** Python exceptions *)

Inductive ExcClass :=
  | RuntimeError | TypeError | ValueError | AttributeError | RecursionError.

(** The messages that the sources format, with their interpolated parts.
    Modules are referred to by their identity. *)
Inductive Msg :=
  | NoMessage
  | InvalidTop
  | InvalidGeneratorCallBy (pass : string)
  | AnonymousModule (module : nat)
  | UndefinedInstanceTarget
  | CouldNotFlatten (segments : list string) (trying : string)
  | ConflictingName (module : nat) (qname : string * string)
  | ModuleWithInterfaces (module : nat) (keys : list string)
  | UnresolvedInstance (inst : string) (module : nat)
  | InvalidInstanceParameter (key : string) (inst : string)
  | NoMosModule
  | InvalidWidth (w : Z)
  | InvalidLength (l : Z)
  | InvalidParallelFingers (npar : Z)
  | InvalidSeriesFingers (nser : Z)
  | UnsupportedOperand (op : string)
  | NoAttribute (cls attr : string)
  | ValueOutOfRange (v : Z).

Record PyErr := Raise { exc_class : ExcClass; exc_msg : Msg }.

#[global] Instance ExcClass_eq_dec : EqDecision ExcClass.
Proof. solve_decision. Defined.

Inductive Res (A : Type) :=
  | Ok (a : A)
  | Err (e : PyErr).
Arguments Ok {A} a.
Arguments Err {A} e.

Definition is_Err {A} (r : Res A) : Prop :=
  match r with Err _ => True | Ok _ => False end.

Definition raises {A} (r : Res A) (c : ExcClass) : Prop :=
  match r with Err e => exc_class e = c | Ok _ => False end.

(** ** A monad for code that mutates [self] and may raise

    A computation takes the state and returns the state it leaves behind
    together with either a value or the exception that aborted it: what an
    aborted call has already written stays written. *)

Definition M (S A : Type) : Type := S → Res A * S.

Definition ret {S A} (a : A) : M S A := λ s, (Ok a, s).

Definition bind {S A B} (m : M S A) (k : A → M S B) : M S B :=
  λ s, match m s with
       | (Ok a, s') => k a s'
       | (Err e, s') => (Err e, s')
       end.

Definition throw {S A} (c : ExcClass) (msg : Msg) : M S A :=
  λ s, (Err (Raise c msg), s).

Definition get_state {S} : M S S := λ s, (Ok s, s).
Definition modify {S} (f : S → S) : M S unit := λ s, (Ok tt, f s).
Definition lift_res {S A} (r : Res A) : M S A := λ s, (r, s).

#[global] Instance M_ret {S} : MRet (M S) := λ A, @ret S A.
#[global] Instance M_bind {S} : MBind (M S) := λ A B k m, @bind S A B m k.

#[global] Instance Res_ret : MRet Res := λ A, @Ok A.
#[global] Instance Res_bind : MBind Res :=
  λ A B k r, match r with Ok a => k a | Err e => Err e end.

(** [[f(x) for x in xs]], and a loop that appends [f(x)] for each [x] *)
Fixpoint map_m {S A B} (f : A → M S B) (xs : list A) : M S (list B) :=
  match xs with
  | [] => ret []
  | x :: xs' => y ← f x; ys ← map_m f xs'; ret (y :: ys)
  end.

(** [for x in xs: body(x)] *)
Fixpoint for_each {S A} (body : A → M S unit) (xs : list A) : M S unit :=
  match xs with
  | [] => ret tt
  | x :: xs' => body x;; for_each body xs'
  end.

(** ** Strings *)

Lemma string_length_app (s t : string) :
  String.length (s +:+ t) = (String.length s + String.length t)%nat.
Proof. induction s as [|c s IH]; simpl; [done|]. by rewrite IH. Qed.

(** [sep.join(segments)] *)
Fixpoint join (sep : string) (segments : list string) : string :=
  match segments with
  | [] => ""
  | [s] => s
  | s :: rest => s +:+ sep +:+ join sep rest
  end.

(** [name] followed by [k] underscores. *)
Fixpoint underscores (name : string) (k : nat) : string :=
  match k with
  | O => name
  | S k' => underscores (name +:+ "_") k'
  end.

(** * The base elaborator's [flatname] *)

Module Flatname.

(** The [while True] loop of [flatname].  [avoid] is the key set of the
    dictionary to steer clear of.  Each round either leaves the loop or
    makes [name] one character longer, so [maxlen + 1 - len(name)]
    decreases.  (Names are ASCII identifiers: the length of the string is
    the number of its characters.) *)
Equations? flatname_loop (segments : list string) (avoid : gset string)
    (maxlen : Z) (name : string) : Res string
  by wf (Z.to_nat (maxlen + 1 - Z.of_nat (String.length name))) lt :=
  flatname_loop segments avoid maxlen name
    with decide (maxlen < Z.of_nat (String.length name)) := {
    | left _ => Err (Raise RuntimeError (CouldNotFlatten segments name))
    | right _ with decide (name ∈ avoid) := {
       | right _ => Ok name
       | left _ => flatname_loop segments avoid maxlen (name +:+ "_") } }.
Proof. rewrite string_length_app. simpl. lia. Qed.

(** [flatname(segments, *, avoid=None, maxlen=511)] *)
Definition flatname (segments : list string) (avoid : option (gset string))
    (maxlen : Z) : Res string :=
  let avoid := default ∅ avoid in
  flatname_loop segments avoid maxlen (join "_" segments).

Definition default_maxlen : Z := 511.

End Flatname.

(** * Graph entities *)

(** ** Python values held by parameter mappings

    A float is carried as the bit pattern of its IEEE-754 double; nothing
    here computes with it. *)
Inductive PyVal :=
  | PyNone
  | PyBool (b : bool)
  | PyInt (z : Z)
  | PyFloat (bits : Z)
  | PyStr (s : string)
  | PyEnum (cls member : string)
  | PyObject (repr : string).

(** [isinstance(val, type(None))], [isinstance(val, int)] and so on.  [bool]
    is a subclass of [int], so [True] and [False] are instances of [int]. *)
Definition isinstance_NoneType (v : PyVal) : bool :=
  match v with PyNone => true | _ => false end.
Definition isinstance_int (v : PyVal) : bool :=
  match v with PyInt _ | PyBool _ => true | _ => false end.
Definition isinstance_float (v : PyVal) : bool :=
  match v with PyFloat _ => true | _ => false end.
Definition isinstance_str (v : PyVal) : bool :=
  match v with PyStr _ => true | _ => false end.

(** ** Signals and connection expressions *)

Inductive PortDir := INPUT | OUTPUT | INOUT | NONE.

Record Signal := { sig_name : string; sig_width : Z }.

Record Port := {
  port_name : string;
  port_width : Z;
  port_direction : PortDir }.

#[warnings="-register-all"]
Inductive Connectable :=
  | CSignal (s : Signal)
  | CSlice (signal : Signal) (bot top : Z)
  | CConcat (parts : list Connectable)
  | COther (repr : string).

(** * [hdl21/primitives.py] *)

Module Primitives.

Inductive MosType := NMOS | PMOS.
Inductive MosVth := STD.

#[global] Instance MosType_eq_dec : EqDecision MosType.
Proof. solve_decision. Defined.
#[global] Instance MosVth_eq_dec : EqDecision MosVth.
Proof. solve_decision. Defined.

(** The attributes of a [MosParams] object.  [w] and [l] are
    [Optional[int]] with default [None].  The class is made by the
    [@paramclass] decorator of [params.py], which is not among the sources:
    what its constructor does, and whether it calls the method below, is
    left open here; an object is any value of the record. *)
Record MosParams := {
  w : option Z;
  l : option Z;
  nser : Z;
  npar : Z;
  tp : MosType;
  vth : MosVth }.

#[global] Instance MosParams_eq_dec : EqDecision MosParams.
Proof. solve_decision. Defined.

(** [x <= 0] for [x] an [Optional[int]]: comparing [None] with an integer
    raises [TypeError]. *)
Definition opt_le_0 (x : option Z) : Res bool :=
  match x with
  | Some z => Ok (bool_decide (z <= 0))
  | None => Err (Raise TypeError (UnsupportedOperand "<="))
  end.

(** [MosParams.__post_init_post_parse__] *)
Definition MosParams_post_init (self : MosParams) : Res unit :=
  match opt_le_0 (w self) with
  | Err e => Err e
  | Ok true => Err (Raise ValueError (InvalidWidth (default 0 (w self))))
  | Ok false =>
    match opt_le_0 (l self) with
    | Err e => Err e
    | Ok true => Err (Raise ValueError (InvalidLength (default 0 (l self))))
    | Ok false =>
      if bool_decide (npar self <= 0)
      then Err (Raise ValueError (InvalidParallelFingers (npar self)))
      else if bool_decide (nser self <= 0)
      then Err (Raise ValueError (InvalidSeriesFingers (nser self)))
      else Ok tt
    end
  end.

(** The parameter object of a call: a [MosParams], or an instance of
    another parameter class, given by the class name and its fields. *)
Inductive ParamObj :=
  | MosParamsObj (p : MosParams)
  | ParamclassObj (cls : string) (fields : list (string * PyVal)).

Definition class_of (o : ParamObj) : string :=
  match o with
  | MosParamsObj _ => "MosParams"
  | ParamclassObj cls _ => cls
  end.

Definition opt_int (x : option Z) : PyVal :=
  match x with Some z => PyInt z | None => PyNone end.

Definition MosType_name (t : MosType) : string :=
  match t with NMOS => "NMOS" | PMOS => "PMOS" end.
Definition MosVth_name (v : MosVth) : string :=
  match v with STD => "STD" end.

(** [dataclasses.asdict(params)], in field order. *)
Definition asdict (o : ParamObj) : list (string * PyVal) :=
  match o with
  | MosParamsObj p =>
      [("w", opt_int (w p)); ("l", opt_int (l p));
       ("nser", PyInt (nser p)); ("npar", PyInt (npar p));
       ("tp", PyEnum "MosType" (MosType_name (tp p)));
       ("vth", PyEnum "MosVth" (MosVth_name (vth p)))]
  | ParamclassObj _ fields => fields
  end.

(** A [Primitive].  [prim_ident] is the identity of the object: the walker
    compares primitives with [is]. *)
Record Primitive := {
  prim_ident : nat;
  prim_name : string;
  prim_desc : string;
  port_list : list Port;
  paramtype : string }.

Record PrimitiveCall := { prim : Primitive; params : ParamObj }.

(** [PrimitiveCall.__post_init_post_parse__] behind [Primitive.__call__] *)
Definition Primitive_call (self : Primitive) (params : ParamObj)
    : Res PrimitiveCall :=
  if bool_decide (class_of params = paramtype self)
  then Ok {| prim := self; params := params |}
  else Err (Raise TypeError NoMessage).

Definition mkport (n : string) : Port :=
  {| port_name := n; port_width := 1; port_direction := NONE |}.

Definition Mos : Primitive :=
  {| prim_ident := 0; prim_name := "Mos"; prim_desc := "Mos Transistor";
     port_list := [mkport "d"; mkport "g"; mkport "s"; mkport "b"];
     paramtype := "MosParams" |}.

Definition Resistor : Primitive :=
  {| prim_ident := 2; prim_name := "Resistor"; prim_desc := "Resistor";
     port_list := [mkport "p"; mkport "n"];
     paramtype := "ResistorParams" |}.

End Primitives.

(** * Graph entities, continued: instantiables and Modules *)

(** An [ExternalModule]; [emod_id] is its identity. *)
Record ExternalModule := {
  emod_id : nat;
  emod_domain : string;
  emod_name : string;
  emod_desc : string;
  emod_port_list : list Port }.

(** An [ExternalModuleCall]: the module and a loosely typed mapping. *)
Record ExternalModuleCall := {
  call_module : ExternalModule;
  call_params : list (string * PyVal) }.

(** [ExternalModule.__call__] *)
Definition ExternalModule_call (self : ExternalModule)
    (params : list (string * PyVal)) : ExternalModuleCall :=
  {| call_module := self; call_params := params |}.

Record GeneratorCall := { gen_name : string }.

(** What an Instance may point to.  A Module is referred to by identity. *)
Inductive Instantiable :=
  | IModule (m : nat)
  | IPrimitiveCall (c : Primitives.PrimitiveCall)
  | IExternalModuleCall (c : ExternalModuleCall)
  | IGeneratorCall (g : GeneratorCall).

(** An [Instance]: [_resolved] (the attribute [of] in the walker's
    interface) is [None] while no target is set. *)
Record Instance := {
  inst_name : string;
  _resolved : option Instantiable;
  conns : list (string * Connectable) }.

Record InstArray := {
  arr_name : string;
  arr_n : Z;
  arr_resolved : option Instantiable;
  arr_conns : list (string * Connectable) }.

Record BundleInstance := { bundle_name : string }.

(** A [Module] object.  The ordered dictionaries are given by their values
    in insertion order; [interfaces] by its keys; [name] is [None] or a
    string; [_pymodule] by its [__name__]. *)
Record HdlModule := {
  name : option string;
  _pymodule : string;
  ports : list Port;
  signals : list Signal;
  instances : list Instance;
  instarrays : list InstArray;
  bundles : list BundleInstance;
  interfaces : list string }.

(** The object graph: the Module behind each identity. *)
Definition Graph := nat → HdlModule.

(** [not module.name] *)
Definition falsy_name (n : option string) : bool :=
  match n with
  | None => true
  | Some s => bool_decide (s = "")
  end.

(** The Modules that [m] instantiates through its [instances]. *)
Definition module_targets (insts : list Instance) : list nat :=
  omap (λ i, match _resolved i with Some (IModule c) => Some c | _ => None end)
       insts.

(** Dictionaries with keys compared by value, in insertion order. *)
Fixpoint dict_get {K V} `{EqDecision K} (k : K) (d : list (K * V)) : option V :=
  match d with
  | [] => None
  | (k', v) :: d' => if decide (k = k') then Some v else dict_get k d'
  end.

Fixpoint dict_pop {K V} `{EqDecision K} (k : K) (d : list (K * V)) : list (K * V) :=
  match d with
  | [] => []
  | (k', v) :: d' => if decide (k = k') then dict_pop k d' else (k', v) :: dict_pop k d'
  end.

Fixpoint dict_set {K V} `{EqDecision K} (k : K) (v : V) (d : list (K * V))
    : list (K * V) :=
  match d with
  | [] => [(k, v)]
  | (k', v') :: d' =>
      if decide (k = k') then (k, v) :: d' else (k', v') :: dict_set k v d'
  end.

(** * [hdl21pdk/asap7/asap7.py] *)

Module Asap7.
Import Primitives.

(** The second component of the keys of [_mos_modules]: a member of
    [MosVth], or a string. *)
Inductive VthKey :=
  | KVth (v : MosVth)
  | KStr (s : string).

#[global] Instance VthKey_eq_dec : EqDecision VthKey.
Proof. solve_decision. Defined.

Definition _mos_typenames : list (MosType * string) :=
  [(NMOS, "n"); (PMOS, "p")].

(** [MosVth.<member>]: the attribute lookup on the enum class, which
    declares [STD] only. *)
Definition MosVth_member (member : string) : Res MosVth :=
  if decide (member = "STD") then Ok STD
  else Err (Raise AttributeError (NoAttribute "MosVth" member)).

(** The dictionary display of [_mos_vtnames].  Its keys are evaluated in
    order, and the second, [MosVth.LOW], is not a member of the enum: the
    display raises. *)
Definition _mos_vtnames : Res (list (VthKey * string)) :=
  std ← MosVth_member "STD";
  low ← MosVth_member "LOW";
  Ok [(KVth std, "_rvt"); (KVth low, "_lvt");
      (KStr "SLVT", "_slvt"); (KStr "SRAM", "_sram")].

(** [f"{tp}"] for an enum member. *)
Definition str_MosType (t : MosType) : string :=
  "MosType." +:+ MosType_name t.

(** The module-level loop that creates each Mos [ExternalModule], over the
    items of the two dictionaries: the [i]-th module created gets identity
    [i]. *)
Definition mos_table_entries (typenames : list (MosType * string))
    (vtnames : list (VthKey * string))
    : list ((MosType * VthKey) * ExternalModule) :=
  imap (λ i '(tpe, vte),
          let modname := str_MosType tpe.1 +:+ "mos" +:+ vte.2 in
          ((tpe.1, vte.1),
           {| emod_id := i; emod_domain := "asap7"; emod_name := modname;
              emod_desc := "ASAP7 PDK Mos " +:+ modname;
              emod_port_list := port_list Mos |}))
       (tpe ← typenames; vte ← vtnames; [(tpe, vte)]).

(** The table that the loop fills, one assignment per module created. *)
Definition mos_table (typenames : list (MosType * string))
    (vtnames : list (VthKey * string))
    : list ((MosType * VthKey) * ExternalModule) :=
  foldl (λ d kv, dict_set kv.1 kv.2 d) [] (mos_table_entries typenames vtnames).

(** [_mos_modules], as the module-level code leaves it: the loop runs on
    the two dictionaries once they exist. *)
Definition _mos_modules : Res (list ((MosType * VthKey) * ExternalModule)) :=
  vtnames ← _mos_vtnames;
  Ok (mos_table _mos_typenames vtnames).

Section Walker.

(** The lookup table that the methods read from the global
    [_mos_modules], and the inherited [visit_instance] of
    [HierarchyWalker], which is not part of these sources. *)
Variable table : list ((MosType * VthKey) * ExternalModule).

(** The walker object: its cache of calls, keyed by parameter value. *)
Record Asap7Walker := {
  mos_modcalls : list (MosParams * ExternalModuleCall) }.

Definition Asap7Walker_init : Asap7Walker := {| mos_modcalls := [] |}.

Variable super_visit_instance : Instance → M Asap7Walker Instance.

(** [mos_module] *)
Definition mos_module (params : MosParams) : M Asap7Walker ExternalModule :=
  match dict_get (tp params, KVth (vth params)) table with
  | None => throw RuntimeError NoMosModule
  | Some emod => mret emod
  end.

(** [mos_module_call] *)
Definition mos_module_call (params : MosParams)
    : M Asap7Walker ExternalModuleCall :=
  self ← get_state;
  match dict_get params (mos_modcalls self) with
  | Some call => mret call
  | None =>
      emod ← mos_module params;
      let modparams := asdict (MosParamsObj params) in
      let modparams := dict_pop "vth" modparams in
      let modcall := ExternalModule_call emod modparams in
      modify (λ self, {| mos_modcalls :=
                           dict_set params modcall (mos_modcalls self) |});;
      mret modcall
  end.

(** [replace_primitive] *)
Definition replace_primitive (primcall : PrimitiveCall)
    : M Asap7Walker Instantiable :=
  if bool_decide (prim_ident (prim primcall) = prim_ident Mos) then
    match params primcall with
    | MosParamsObj p =>
        call ← mos_module_call p; mret (IExternalModuleCall call)
    | ParamclassObj _ _ => throw AttributeError NoMessage
    end
  else mret (IPrimitiveCall primcall).

(** [visit_instance]: returns the instance as the walker leaves it. *)
Definition visit_instance (inst : Instance) : M Asap7Walker Instance :=
  match _resolved inst with
  | Some (IPrimitiveCall pc) =>
      target ← replace_primitive pc;
      mret {| inst_name := inst_name inst; _resolved := Some target;
              conns := conns inst |}
  | _ => super_visit_instance inst
  end.

(** A technology module is registered for a primitive call when the
    primitive is [Mos] and the table has an entry for its parameters. *)
Definition registered (pc : PrimitiveCall) : Prop :=
  prim_ident (prim pc) = prim_ident Mos ∧
  ∃ p, params pc = MosParamsObj p ∧
       is_Some (dict_get (tp p, KVth (vth p)) table).

(** Every cached call stems from a lookup that hit. *)
Definition cache_sound (self : Asap7Walker) : Prop :=
  ∀ p call, dict_get p (mos_modcalls self) = Some call →
            is_Some (dict_get (tp p, KVth (vth p)) table).

End Walker.

End Asap7.

(** * [hdl21/proto/to_proto.py] *)

Module Proto.
Import Primitives.

(** ** The messages of the wire schema that the exporter fills in *)

Record QualifiedName := { domain : string; qn_name : string }.

Record PSignal := { psig_name : string; psig_width : Z }.

Record PPort := { direction : PortDir; signal : PSignal }.

(** The [oneof] of a parameter value. *)
Inductive ParameterValue :=
  | integer (z : Z)
  | double (bits : Z)
  | string_ (s : string).

(** The [oneof] of a Connection. *)
#[warnings="-register-all"]
Inductive PConnection :=
  | sig (s : PSignal)
  | slice (signal : string) (bot top : Z)
  | concat (parts : list PConnection).

Record PInstance := {
  pinst_name : string;
  module_qn : QualifiedName;
  parameters : gmap string ParameterValue;
  connections : gmap string PConnection }.

Record PModule := {
  pmod_name : QualifiedName;
  pmod_ports : list PPort;
  pmod_signals : list PSignal;
  pmod_instances : list PInstance }.

Record PExternalModule := {
  pemod_name : string;
  pemod_ports : list PPort }.

Record Package := {
  pkg_name : string;
  pkg_modules : list PModule;
  pkg_ext_modules : list PExternalModule }.

(** ** The exporter object *)

Record ProtoExporter := {
  modules : gmap nat PModule;
  module_names : gmap (string * string) PModule;
  ext_modules : gmap nat PExternalModule;
  pkg : Package }.

(** [ProtoExporter.__init__]: [domain or ""] names the package. *)
Definition ProtoExporter_init (domain : option string) : ProtoExporter :=
  {| modules := ∅; module_names := ∅; ext_modules := ∅;
     pkg := {| pkg_name := default "" domain; pkg_modules := [];
               pkg_ext_modules := [] |} |}.

Definition set_pkg_modules (f : list PModule → list PModule) (p : Package) :=
  {| pkg_name := pkg_name p; pkg_modules := f (pkg_modules p);
     pkg_ext_modules := pkg_ext_modules p |}.

Definition set_pkg_ext_modules
    (f : list PExternalModule → list PExternalModule) (p : Package) :=
  {| pkg_name := pkg_name p; pkg_modules := pkg_modules p;
     pkg_ext_modules := f (pkg_ext_modules p) |}.

(** ** Ports *)

(** [export_port_dir]: the four members map to themselves; the final
    [raise ValueError] is for values outside the enumeration, which the
    type of [port_direction] leaves out. *)
Definition export_port_dir (port : Port) : PortDir :=
  match port_direction port with
  | INPUT => INPUT
  | OUTPUT => OUTPUT
  | INOUT => INOUT
  | NONE => NONE
  end.

Definition export_port (port : Port) : PPort :=
  {| direction := export_port_dir port;
     signal := {| psig_name := port_name port;
                  psig_width := port_width port |} |}.

(** ** Connections *)

(** One part of a concatenation, and through it [export_concat]: a Signal,
    a Slice, a nested Concat, or a type error. *)
Fixpoint export_part (part : Connectable) : Res PConnection :=
  match part with
  | CSignal s => Ok (sig {| psig_name := sig_name s; psig_width := sig_width s |})
  | CSlice s bot top => Ok (slice (sig_name s) bot top)
  | CConcat parts =>
      (fix go (ps : list Connectable) : Res (list PConnection) :=
         match ps with
         | [] => Ok []
         | q :: ps' =>
             match export_part q with
             | Err e => Err e
             | Ok c => match go ps' with
                       | Err e => Err e
                       | Ok cs => Ok (c :: cs)
                       end
             end
         end) parts ≫= λ cs, Ok (concat cs)
  | COther _ => Err (Raise TypeError NoMessage)
  end.

(** [export_concat]: the parts of the exported [Concat]. *)
Definition export_concat (parts : list Connectable) : Res (list PConnection) :=
  foldr (λ q acc, c ← export_part q; cs ← acc; Ok (c :: cs)) (Ok []) parts.

(** The loop over [inst.conns.items()] of [export_instance]. *)
Fixpoint export_conns (conns : list (string * Connectable))
    (acc : gmap string PConnection) : Res (gmap string PConnection) :=
  match conns with
  | [] => Ok acc
  | (pname, c) :: rest =>
      pconn ← match c with
              | CSignal s =>
                  Ok (sig {| psig_name := sig_name s;
                             psig_width := sig_width s |})
              | CSlice s bot top => Ok (slice (sig_name s) bot top)
              | CConcat parts => cs ← export_concat parts; Ok (concat cs)
              | COther _ => Err (Raise TypeError NoMessage)
              end;
      export_conns rest (<[pname := pconn]> acc)
  end.

(** ** Parameters *)

(** The [int] that a [bool] or an [int] is. *)
Definition int_value (v : PyVal) : Z :=
  match v with
  | PyInt z => z
  | PyBool b => Z.b2z b
  | _ => 0
  end.

Section Exporter.

(** The range of the [integer] field of a parameter value.  The field is
    declared in the wire schema ([circuit.proto]), which is not among the
    sources; protobuf integer fields have a fixed width, and assigning a
    Python [int] outside their range raises [ValueError].  The range is a
    parameter of everything that follows. *)
Variable int_fits : Z → bool.

(** The loop over [params.items()] of [export_instance]: it fills the
    [parameters] map of the instance named [inst]. *)
Fixpoint export_params (inst : string) (params : list (string * PyVal))
    (acc : gmap string ParameterValue) : Res (gmap string ParameterValue) :=
  match params with
  | [] => Ok acc
  | (key, val) :: rest =>
      if isinstance_NoneType val then export_params inst rest acc
      else if isinstance_int val then
        if int_fits (int_value val) then
          export_params inst rest (<[key := integer (int_value val)]> acc)
        else Err (Raise ValueError (ValueOutOfRange (int_value val)))
      else if isinstance_float val then
        match val with
        | PyFloat bits => export_params inst rest (<[key := double bits]> acc)
        | _ => Err (Raise TypeError NoMessage)
        end
      else if isinstance_str val then
        match val with
        | PyStr s => export_params inst rest (<[key := string_ s]> acc)
        | _ => Err (Raise TypeError NoMessage)
        end
      else Err (Raise TypeError (InvalidInstanceParameter key inst))
  end.

Variable graph : Graph.

(** [export_module_name]: [str + None] is a [TypeError]. *)
Definition export_module_name (module : nat) : M ProtoExporter QualifiedName :=
  match name (graph module) with
  | None => throw TypeError (UnsupportedOperand "+")
  | Some n =>
      self ← get_state;
      let mname := _pymodule (graph module) +:+ "." +:+ n in
      let qname := {| domain := pkg_name (pkg self); qn_name := mname |} in
      match module_names self !! (domain qname, qn_name qname) with
      | Some conflict =>
          throw RuntimeError
                (ConflictingName module (domain qname, qn_name qname))
      | None => mret qname
      end
  end.

(** [export_external_module] *)
Definition export_external_module (emod : ExternalModule)
    : M ProtoExporter PExternalModule :=
  self ← get_state;
  match ext_modules self !! emod_id emod with
  | Some pmod => mret pmod
  | None =>
      let pmod := {| pemod_name := emod_name emod;
                     pemod_ports := export_port <$> emod_port_list emod |} in
      modify (λ self,
        {| modules := modules self; module_names := module_names self;
           ext_modules := <[emod_id emod := pmod]> (ext_modules self);
           pkg := set_pkg_ext_modules (λ l, (l ++ [pmod])%list) (pkg self) |});;
      mret pmod
  end.

(** [export_instance], given the method to call on a Module target. *)
Definition export_instance (export_module : nat → M ProtoExporter PModule)
    (inst : Instance) : M ProtoExporter PInstance :=
  '(qn, params) ←
    match _resolved inst with
    | Some (IModule m) =>
        pmod ← export_module m;
        mret (pmod_name pmod, ∅)
    | Some (IPrimitiveCall call) =>
        params ← lift_res (export_params (inst_name inst)
                                         (asdict (params call)) ∅);
        mret ({| domain := "hdl21.primitives";
                 qn_name := prim_name (prim call) |}, params)
    | Some (IExternalModuleCall call) =>
        export_external_module (call_module call);;
        params ← lift_res (export_params (inst_name inst)
                                         (call_params call) ∅);
        mret ({| domain := ""; qn_name := emod_name (call_module call) |},
              params)
    | Some (IGeneratorCall _) | None => throw TypeError NoMessage
    end;
  pconns ← lift_res (export_conns (conns inst) ∅);
  mret {| pinst_name := inst_name inst; module_qn := qn;
          parameters := params; connections := pconns |}.

(** The loop over [module.instances.values()] of [export_module]. *)
Definition export_instances (export_module : nat → M ProtoExporter PModule)
    (module : nat) (insts : list Instance) : M ProtoExporter (list PInstance) :=
  map_m (λ inst,
           match _resolved inst with
           | None => throw RuntimeError
                           (UnresolvedInstance (inst_name inst) module)
           | Some _ => export_instance export_module inst
           end) insts.

(** Recording a finished export: the three writes that end
    [export_module]. *)
Definition store_module (module : nat) (qname : QualifiedName) (pmod : PModule)
    (self : ProtoExporter) : ProtoExporter :=
  {| modules := <[module := pmod]> (modules self);
     module_names := <[(domain qname, qn_name qname) := pmod]> (module_names self);
     ext_modules := ext_modules self;
     pkg := set_pkg_modules (λ l, (l ++ [pmod])%list) (pkg self) |}.

(** [export_module].  [fuel] bounds the depth of the recursion through
    [export_instance], as the interpreter's recursion limit does. *)
Fixpoint export_module (fuel : nat) (module : nat) : M ProtoExporter PModule :=
  match fuel with
  | O => throw RecursionError NoMessage
  | S fuel' =>
      self ← get_state;
      match modules self !! module with
      | Some pmod => mret pmod
      | None =>
          let m := graph module in
          if bool_decide (interfaces m ≠ []) then
            throw RuntimeError (ModuleWithInterfaces module (interfaces m))
          else
            qname ← export_module_name module;
            let pports := export_port <$> ports m in
            let psigs := (λ s, {| psig_name := sig_name s;
                                   psig_width := sig_width s |}) <$> signals m in
            pinsts ← export_instances (export_module fuel') module (instances m);
            let pmod := {| pmod_name := qname; pmod_ports := pports;
                           pmod_signals := psigs; pmod_instances := pinsts |} in
            modify (store_module module qname pmod);;
            mret pmod
      end
  end.

(** [export]: every top in turn, then the package. *)
Definition export (fuel : nat) (tops : list nat) : M ProtoExporter Package :=
  for_each (λ m, export_module fuel m;; mret tt) tops;;
  self ← get_state;
  mret (pkg self).

(** [ProtoExporter(tops, domain).export()] *)
Definition run_export (fuel : nat) (tops : list nat) (domain : option string)
    : Res Package * ProtoExporter :=
  export fuel tops (ProtoExporter_init domain).

End Exporter.

End Proto.

(** * [hdl21/elab/elaborators/base.py] *)

Module Elab.
Import Primitives.

(** What a run does to the world outside the engine: it sets the
    [_elaborated] attribute of an Instance, an InstArray or a
    BundleInstance, and it calls the hooks of the pass. *)
Inductive Event :=
  | SetElaborated_instance (inst : Instance)
  | SetElaborated_array (array : InstArray)
  | SetElaborated_bundle (inst : BundleInstance)
  | Call_elaborate_module (module : nat)
  | Call_elaborate_primitive_call (call : PrimitiveCall)
  | Call_elaborate_external_module (call : ExternalModuleCall).

(** An elaboration pass: the three hooks a sub-class overrides, and the
    text that [{self}] formats to. *)
Record Pass := {
  pass_name : string;
  elaborate_module : nat → Res nat;
  elaborate_primitive_call : PrimitiveCall → Res PrimitiveCall;
  elaborate_external_module : ExternalModuleCall → Res ExternalModuleCall }.

(** The hooks of [Elaborator] itself: each returns its argument. *)
Definition base_pass : Pass :=
  {| pass_name := "Elaborator";
     elaborate_module := λ module, Ok module;
     elaborate_primitive_call := λ call, Ok call;
     elaborate_external_module := λ call, Ok call |}.

(** The engine: the [modules] cache, keyed by [id(module)], and the
    effects of the run so far, oldest first. *)
Record Elaborator := {
  modules : gmap nat nat;
  effects : list Event }.

(** [Elaborator.__init__] *)
Definition Elaborator_init : Elaborator :=
  {| modules := ∅; effects := [] |}.

Definition add_effect (e : Event) (self : Elaborator) : Elaborator :=
  {| modules := modules self; effects := (effects self ++ [e])%list |}.

Definition emit (e : Event) : M Elaborator unit := modify (add_effect e).

(** [self.modules[id(module)] = result] *)
Definition cache_result (module result : nat) (self : Elaborator) : Elaborator :=
  {| modules := <[module := result]> (modules self);
     effects := effects self |}.

Section Elaborator.

Variable graph : Graph.
Variable pass : Pass.

(** [elaborate_generator_call] *)
Definition elaborate_generator_call (call : GeneratorCall) : M Elaborator nat :=
  throw RuntimeError (InvalidGeneratorCallBy (pass_name pass)).

(** [elaborate_bundle_instance] *)
Definition elaborate_bundle_instance (inst : BundleInstance)
    : M Elaborator unit :=
  emit (SetElaborated_bundle inst).

(** [elaborate_instantiable], given the method to call on a Module. *)
Definition elaborate_instantiable
    (elaborate_module_base : nat → M Elaborator nat)
    (of_ : option Instantiable) : M Elaborator Instantiable :=
  match of_ with
  | None => throw RuntimeError UndefinedInstanceTarget
  | Some (IModule m) =>
      r ← elaborate_module_base m; mret (IModule r)
  | Some (IPrimitiveCall call) =>
      emit (Call_elaborate_primitive_call call);;
      r ← lift_res (elaborate_primitive_call pass call);
      mret (IPrimitiveCall r)
  | Some (IExternalModuleCall call) =>
      emit (Call_elaborate_external_module call);;
      r ← lift_res (elaborate_external_module pass call);
      mret (IExternalModuleCall r)
  | Some (IGeneratorCall _) => throw TypeError NoMessage
  end.

(** [elaborate_instance_array] *)
Definition elaborate_instance_array
    (elaborate_module_base : nat → M Elaborator nat)
    (array : InstArray) : M Elaborator Instantiable :=
  emit (SetElaborated_array array);;
  elaborate_instantiable elaborate_module_base (arr_resolved array).

(** [elaborate_instance] *)
Definition elaborate_instance
    (elaborate_module_base : nat → M Elaborator nat)
    (inst : Instance) : M Elaborator Instantiable :=
  emit (SetElaborated_instance inst);;
  elaborate_instantiable elaborate_module_base (_resolved inst).

(** The three loops of [elaborate_module_base]. *)
Definition elaborate_children
    (elaborate_module_base : nat → M Elaborator nat)
    (m : HdlModule) : M Elaborator unit :=
  for_each (λ inst, elaborate_instance elaborate_module_base inst;; mret tt)
           (instances m);;
  for_each (λ arr, elaborate_instance_array elaborate_module_base arr;; mret tt)
           (instarrays m);;
  for_each elaborate_bundle_instance (bundles m).

(** [elaborate_module_base].  [fuel] bounds the depth of the recursion
    through [elaborate_instantiable], as the interpreter's recursion limit
    does. *)
Fixpoint elaborate_module_base (fuel : nat) (module : nat) : M Elaborator nat :=
  match fuel with
  | O => throw RecursionError NoMessage
  | S fuel' =>
      self ← get_state;
      if bool_decide (module ∈ dom (modules self)) then
        mret module
      else if falsy_name (name (graph module)) then
        throw RuntimeError (AnonymousModule module)
      else
        elaborate_children (elaborate_module_base fuel') (graph module);;
        emit (Call_elaborate_module module);;
        result ← lift_res (elaborate_module pass module);
        modify (cache_result module result);;
        mret result
  end.

(** [elaborate_top]: the top must be a Module. *)
Definition elaborate_top (fuel : nat) (top : Instantiable) : M Elaborator nat :=
  match top with
  | IModule m => elaborate_module_base fuel m
  | _ => throw TypeError InvalidTop
  end.

(** [Elaborator.elaborate(top, ctx)]: a fresh engine elaborates [top]. *)
Definition elaborate (fuel : nat) (top : Instantiable)
    : Res nat * Elaborator :=
  elaborate_top fuel top Elaborator_init.

End Elaborator.

End Elab.

(** * [hdl21/proto/to_proto.py], continued *)

(** The connection expressions that the exporter has a message for: a
    Signal, a Slice, or a Concat of such, to any depth. *)
Fixpoint exportable_conn (c : Connectable) : bool :=
  match c with
  | CSignal _ | CSlice _ _ _ => true
  | CConcat parts => forallb exportable_conn parts
  | COther _ => false
  end.

(** * Concrete inputs *)

Module Examples.
Import Primitives.

(** The range of a signed 64-bit integer, protobuf's [int64]: the range
    that the examples give to the exporter. *)
Definition int64_fits (v : Z) : bool :=
  bool_decide (-2 ^ 63 ≤ v < 2 ^ 63).

(** The table that the loop of [asap7.py] builds from the type names and
    from the threshold names whose keys exist. *)
Definition rvt_table : list ((MosType * Asap7.VthKey) * ExternalModule) :=
  Asap7.mos_table Asap7._mos_typenames
    [(Asap7.KVth STD, "_rvt"); (Asap7.KStr "SLVT", "_slvt");
     (Asap7.KStr "SRAM", "_sram")].

(** [Resistor(ResistorParams(r=1000.0))], and an instance of it. *)
Definition resistor_call : PrimitiveCall :=
  {| prim := Resistor;
     params := ParamclassObj "ResistorParams"
                             [("r", PyFloat 4652007308841189376)] |}.

Definition resistor_inst : Instance :=
  {| inst_name := "r1"; _resolved := Some (IPrimitiveCall resistor_call);
     conns := [] |}.

(** An object like [MosParams(w=1, l=1)], and an instance of [Mos] on it. *)
Definition nmos_params : MosParams :=
  {| w := Some 1; l := Some 1; nser := 1; npar := 1; tp := NMOS; vth := STD |}.


Definition nmos_call : PrimitiveCall :=
  {| prim := Mos; params := MosParamsObj nmos_params |}.

Definition nmos_inst : Instance :=
  {| inst_name := "m1"; _resolved := Some (IPrimitiveCall nmos_call);
     conns := [] |}.

(** A walker's inherited [visit_instance] that leaves the instance alone. *)
Definition visit_nothing : Instance → M Asap7.Asap7Walker Instance :=
  λ inst, mret inst.

(** An external module and a call of it with one parameter of each kind. *)
Definition some_emod : ExternalModule :=
  {| emod_id := 7; emod_domain := "pdk"; emod_name := "cell";
     emod_desc := "a foreign cell"; emod_port_list := [mkport "a"] |}.

Definition mixed_params : list (string * PyVal) :=
  [("unset", PyNone); ("n", PyInt 3); ("flag", PyBool true);
   ("r", PyFloat 4652007308841189376); ("model", PyStr "tt")].

Definition mixed_inst : Instance :=
  {| inst_name := "x1";
     _resolved := Some (IExternalModuleCall
                          (ExternalModule_call some_emod mixed_params));
     conns := [] |}.

(** Modules without contents. *)
Definition leaf (n : option string) : HdlModule :=
  {| name := n; _pymodule := "lib"; ports := []; signals := [];
     instances := []; instarrays := []; bundles := []; interfaces := [] |}.

Definition with_instances (n : string) (insts : list Instance) : HdlModule :=
  {| name := Some n; _pymodule := "lib"; ports := []; signals := [];
     instances := insts; instarrays := []; bundles := []; interfaces := [] |}.

Definition inst_of (n : string) (target : Instantiable) : Instance :=
  {| inst_name := n; _resolved := Some target; conns := [] |}.

(** A graph of leaves named ["top"]. *)
Definition leaf_graph : Graph := λ _, leaf (Some "top").

(** A pass whose [elaborate_module] returns a new Module object (the one
    of identity [module + 100]) instead of its argument. *)
Definition copying_pass : Elab.Pass :=
  {| Elab.pass_name := "CopyingPass";
     Elab.elaborate_module := λ module, Ok (module + 100)%nat;
     Elab.elaborate_primitive_call := λ call, Ok call;
     Elab.elaborate_external_module := λ call, Ok call |}.

(** Module [0], named ["top"], holds one Instance of a generator call that
    was not expanded. *)
Definition generator_graph : Graph := λ m,
  match m with
  | O => with_instances "top" [inst_of "g1" (IGeneratorCall {| gen_name := "Gen" |})]
  | _ => leaf (Some "other")
  end.

(** Module [0] holds an Instance of Module [1]; both are named ["m"] and
    come from the same Python module. *)
Definition same_name_graph : Graph := λ m,
  match m with
  | O => with_instances "m" [inst_of "i" (IModule 1)]
  | _ => leaf (Some "m")
  end.

(** A parent [0] with two Instances of [1] and one of [2], where [1]
    holds an Instance of [2]. *)
Definition diamond_graph : Graph := λ m,
  match m with
  | 0%nat => with_instances "top" [inst_of "a" (IModule 1);
                                   inst_of "b" (IModule 1);
                                   inst_of "c" (IModule 2)]
  | 1%nat => with_instances "mid" [inst_of "d" (IModule 2)]
  | 2%nat => leaf (Some "bottom")
  | _ => leaf (Some "unused")
  end.

(** The export of the diamond from its top, with the default domain. *)
Definition diamond_run : Res Proto.Package * Proto.ProtoExporter :=
  Proto.run_export int64_fits diamond_graph 10 [0%nat] None.

Definition diamond_package : Proto.Package :=
  match diamond_run.1 with
  | Ok p => p
  | Err _ => Proto.pkg (Proto.ProtoExporter_init None)
  end.

(** Module [0] holds an Instance of a resistor, an InstArray of Module [1]
    and a BundleInstance; Module [1] is a leaf. *)
Definition mixed_children_graph : Graph := λ m,
  match m with
  | O => {| name := Some "top"; _pymodule := "lib"; ports := []; signals := [];
            instances := [resistor_inst];
            instarrays := [{| arr_name := "arr"; arr_n := 4;
                              arr_resolved := Some (IModule 1);
                              arr_conns := [] |}];
            bundles := [{| bundle_name := "bus" |}];
            interfaces := [] |}
  | _ => leaf (Some "cell")
  end.

End Examples.

(** * More concrete inputs *)

Module MoreExamples.
Import Primitives Examples.

Definition net (n : string) : Signal := {| sig_name := n; sig_width := 1 |}.

(** A second Instance of the foreign cell of [mixed_inst], connected. *)
Definition cell_inst : Instance :=
  {| inst_name := "x2";
     _resolved := Some (IExternalModuleCall
                          (ExternalModule_call some_emod [("n", PyInt 4)]));
     conns := [("a", CConcat [CSignal (net "p"); CSlice (net "q") 0 0])] |}.

(** Module [0] holds two Instances of one foreign cell, a resistor and an
    Instance of the leaf [1]. *)
Definition pdk_graph : Graph := λ m,
  match m with
  | O => {| name := Some "top"; _pymodule := "lib"; ports := [mkport "a"];
            signals := [net "p"; net "q"];
            instances := [mixed_inst; cell_inst; resistor_inst;
                          inst_of "u" (IModule 1)];
            instarrays := []; bundles := []; interfaces := [] |}
  | _ => leaf (Some "cell")
  end.

Definition pdk_run : Res Proto.Package * Proto.ProtoExporter :=
  Proto.run_export int64_fits pdk_graph 10 [0%nat] None.

Definition pdk_package : Proto.Package :=
  match pdk_run.1 with
  | Ok p => p
  | Err _ => Proto.pkg (Proto.ProtoExporter_init None)
  end.

(** What the export of [pdk_graph] writes for the leaf and for the top. *)
Definition pdk_leaf_entry : Proto.PModule :=
  {| Proto.pmod_name := {| Proto.domain := ""; Proto.qn_name := "lib.cell" |};
     Proto.pmod_ports := []; Proto.pmod_signals := [];
     Proto.pmod_instances := [] |}.

Definition pdk_top_entry : Proto.PModule :=
  match Proto.pkg_modules pdk_package !! 1%nat with
  | Some pm => pm
  | None => pdk_leaf_entry
  end.

(** Module [0] holds Module [1], which holds Module [2], which holds
    Module [1] again. *)
Definition loop_graph : Graph := λ m,
  match m with
  | 0%nat => with_instances "top" [inst_of "a" (IModule 1)]
  | 1%nat => with_instances "ping" [inst_of "b" (IModule 2)]
  | _ => with_instances "pong" [inst_of "c" (IModule 1)]
  end.

(** The depth of each Module of the diamond. *)
Definition diamond_rank (m : nat) : nat :=
  match m with 0%nat => 2%nat | 1%nat => 1%nat | _ => 0%nat end.

(** The run of the copying pass on the diamond. *)
Definition diamond_copy : Res nat * Elab.Elaborator :=
  Elab.elaborate diamond_graph copying_pass 10 (IModule 0).

(** The run of the base pass on the Module with children of each kind. *)
Definition mixed_children_run : Res nat * Elab.Elaborator :=
  Elab.elaborate mixed_children_graph Elab.base_pass 10 (IModule 0).

(** The Instance that the ASAP7 walker makes of [nmos_inst]. *)
Definition lowered_nmos_inst : Instance :=
  {| inst_name := "m1";
     _resolved := Some (IExternalModuleCall
       (ExternalModule_call
          {| emod_id := 0; emod_domain := "asap7";
             emod_name := "MosType.NMOSmos_rvt";
             emod_desc := "ASAP7 PDK Mos MosType.NMOSmos_rvt";
             emod_port_list := port_list Mos |}
          (dict_pop "vth" (asdict (MosParamsObj nmos_params)))));
     conns := [] |}.

(** The export of one leaf named ["top"]. *)
Definition leaf_run : Res Proto.Package * Proto.ProtoExporter :=
  Proto.run_export int64_fits leaf_graph 10 [0%nat] None.

Definition leaf_package : Proto.Package :=
  match leaf_run.1 with
  | Ok p => p
  | Err _ => Proto.pkg (Proto.ProtoExporter_init None)
  end.

Definition leaf_entry : Proto.PModule :=
  {| Proto.pmod_name := {| Proto.domain := ""; Proto.qn_name := "lib.top" |};
     Proto.pmod_ports := []; Proto.pmod_signals := [];
     Proto.pmod_instances := [] |}.

End MoreExamples.

(** * Properties *)

Open Scope list_scope.

(** Unfolding the monad's operations. *)
Ltac monad_unfold :=
  unfold mbind, mret, M_bind, M_ret, Res_bind, Res_ret, bind, ret,
         get_state, modify, throw, lift_res in *.

(** ** Relations that every step of a computation respects

    [preserves Rel c] says that [c] takes every state to a [Rel]-related
    one, whether it returns or raises. *)

Section Preserves.
Context {S : Type} (Rel : S → S → Prop) `{!PreOrder Rel}.

Definition preserves {A} (c : M S A) : Prop := ∀ s, Rel s (c s).2.

Lemma preserves_ret {A} (a : A) : preserves (mret a).
Proof. intros s. reflexivity. Qed.

Lemma preserves_throw {A} c msg : preserves (throw (A:=A) c msg).
Proof. intros s. reflexivity. Qed.

Lemma preserves_lift_res {A} (r : Res A) : preserves (lift_res r).
Proof. intros s. reflexivity. Qed.

Lemma preserves_get_state : preserves get_state.
Proof. intros s. reflexivity. Qed.

Lemma preserves_modify (f : S → S) :
  (∀ s, Rel s (f s)) → preserves (modify f).
Proof. intros Hf s. apply Hf. Qed.

Lemma preserves_bind {A B} (m : M S A) (k : A → M S B) :
  preserves m → (∀ a, preserves (k a)) → preserves (m ≫= k).
Proof.
  intros Hm Hk s. monad_unfold. specialize (Hm s).
  destruct (m s) as [[a|e] s1]; simpl in *; [|done].
  etrans; [exact Hm|apply Hk].
Qed.

(** Binding on the state read: the continuation may depend on it. *)
Lemma preserves_bind_get {B} (k : S → M S B) :
  (∀ s, Rel s (k s s).2) → preserves (get_state ≫= k).
Proof. intros Hk s. apply Hk. Qed.

Lemma preserves_for_each {A} (body : A → M S unit) xs :
  (∀ x, x ∈ xs → preserves (body x)) → preserves (for_each body xs).
Proof.
  induction xs as [|x xs IH]; intros Hb; simpl.
  - apply preserves_ret.
  - apply preserves_bind; [apply Hb; left|].
    intros _. apply IH. intros y Hy. apply Hb. by right.
Qed.

Lemma preserves_map_m {A B} (f : A → M S B) xs :
  (∀ x, x ∈ xs → preserves (f x)) → preserves (map_m f xs).
Proof.
  induction xs as [|x xs IH]; intros Hb; simpl.
  - apply preserves_ret.
  - apply preserves_bind; [apply Hb; left|].
    intros y. apply preserves_bind.
    + apply IH. intros z Hz. apply Hb. by right.
    + intros ys. apply preserves_ret.
Qed.

End Preserves.

Lemma map_m_fails {S A B} (I : S → Prop) (f : A → M S B) xs x s :
  x ∈ xs →
  (∀ y s, y ∈ xs → I s → I (f y s).2) →
  (∀ s, I s → is_Err (f x s).1) →
  I s → is_Err (map_m f xs s).1.
Proof.
  revert s. induction xs as [|y xs IH]; intros s Hx Hpres Hfail Hs.
  - by apply elem_of_nil in Hx.
  - simpl. monad_unfold.
    destruct (f y s) as [[b|e] s1] eqn:Hy; [|done].
    assert (is_Err (map_m f xs s1).1) as Hrest.
    2:{ by destruct (map_m f xs s1) as [[bs|e] s2]. }
    apply elem_of_cons in Hx as [->|Hx].
    + specialize (Hfail s Hs). by rewrite Hy in Hfail.
    + apply IH; [done| |done|].
      * intros z s' Hz. apply Hpres. by right.
      * specialize (Hpres y s (list_elem_of_here _ _) Hs). by rewrite Hy in Hpres.
Qed.

(** When a loop has returned, what each round established and no later
    round undid holds at the end. *)
Lemma map_m_Ok_post {S A B} (Q : A → S → Prop) (f : A → M S B) xs s ys s' :
  map_m f xs s = (Ok ys, s') →
  (∀ x s0 y s1, x ∈ xs → f x s0 = (Ok y, s1) → Q x s1) →
  (∀ x y s0, y ∈ xs → Q x s0 → Q x (f y s0).2) →
  ∀ x, x ∈ xs → Q x s'.
Proof.
  revert s ys s'. induction xs as [|z xs IH]; intros s ys s' Hrun Hest Hkeep x Hx.
  - by apply elem_of_nil in Hx.
  - simpl in Hrun. monad_unfold.
    destruct (f z s) as [[b|e] s1] eqn:Hz; [|discriminate].
    destruct (map_m f xs s1) as [[bs|e] s2] eqn:Hrest; [|discriminate].
    injection Hrun as <- <-.
    assert (∀ s0, Q x s0 → Q x (map_m f xs s0).2) as Hstable.
    { clear -Hkeep. intros s0.
      assert (∀ l, (∀ y, y ∈ l → y ∈ z :: xs) → ∀ s0, Q x s0 → Q x (map_m f l s0).2)
        as Hgen.
      { induction l as [|y l IHl]; intros Hsub s1 Hq; [done|].
        simpl. monad_unfold.
        pose proof (Hkeep x y s1 (Hsub y (list_elem_of_here _ _)) Hq) as Hq1.
        destruct (f y s1) as [[b|e] s2]; [|done].
        assert (Q x (map_m f l s2).2) as Hq2.
        { apply IHl; [|done]. intros y' Hy'. apply Hsub. by right. }
        by destruct (map_m f l s2) as [[bs|e] s3]. }
      apply Hgen. intros y Hy. by right. }
    apply elem_of_cons in Hx as [->|Hx].
    + specialize (Hstable s1). rewrite Hrest in Hstable. apply Hstable.
      apply (Hest z s b s1); [left|done].
    + apply (IH s1 bs s2 Hrest); [| |done].
      * intros x' s0 y s3 Hx'. apply Hest. by right.
      * intros x' y s0 Hy. apply Hkeep. by right.
Qed.

Lemma for_each_map_m {S A} (body : A → M S unit) xs s :
  for_each body xs s =
  match map_m body xs s with
  | (Ok _, s') => (Ok (), s')
  | (Err e, s') => (Err e, s')
  end.
Proof.
  revert s. induction xs as [|x xs IH]; intros s; simpl; [done|].
  monad_unfold. destruct (body x s) as [[[]|e] s1]; [|done].
  rewrite IH. by destruct (map_m body xs s1) as [[ys|e] s2].
Qed.

(** Loops whose rounds agree are equal. *)
Lemma map_m_ext {S A B} (f g : A → M S B) xs s :
  (∀ x s, x ∈ xs → f x s = g x s) → map_m f xs s = map_m g xs s.
Proof.
  revert s. induction xs as [|x xs IH]; intros s Hfg; simpl; [done|].
  monad_unfold. rewrite Hfg by left.
  destruct (g x s) as [[y|e] s1]; [|done].
  rewrite IH; [done|]. intros z s' Hz. apply Hfg. by right.
Qed.

Lemma for_each_ext {S A} (f g : A → M S unit) xs s :
  (∀ x s, x ∈ xs → f x s = g x s) → for_each f xs s = for_each g xs s.
Proof.
  revert s. induction xs as [|x xs IH]; intros s Hfg; simpl; [done|].
  monad_unfold. rewrite Hfg by left.
  destruct (g x s) as [[[]|e] s1]; [|done].
  rewrite IH; [done|]. intros z s' Hz. apply Hfg. by right.
Qed.

(** One structural step of a proof of [preserves]. *)
Ltac pres_step :=
  lazymatch goal with
  | |- preserves ?R (mret _) => apply (preserves_ret R)
  | |- preserves ?R (ret _) => apply (preserves_ret R)
  | |- preserves ?R (throw _ _) => apply (preserves_throw R)
  | |- preserves ?R (lift_res _) => apply (preserves_lift_res R)
  | |- preserves ?R (_ ≫= _) => apply (preserves_bind R); [|intros ?]
  | |- preserves ?R (for_each _ _) => apply (preserves_for_each R); intros ? ?
  | |- preserves ?R (map_m _ _) => apply (preserves_map_m R); intros ? ?
  | |- preserves _ (match ?a with (_, _) => _ end) => destruct a
  end.

(** A loop fails if one of its rounds fails in every state the loop can
    be in. *)
Lemma for_each_fails {S A} (I : S → Prop) (body : A → M S unit) xs x s :
  x ∈ xs →
  (∀ y s, y ∈ xs → I s → I (body y s).2) →
  (∀ s, I s → is_Err (body x s).1) →
  I s → is_Err (for_each body xs s).1.
Proof.
  revert s. induction xs as [|y xs IH]; intros s Hx Hpres Hfail Hs.
  - by apply elem_of_nil in Hx.
  - simpl. monad_unfold.
    destruct (body y s) as [[[]|e] s1] eqn:Hy; [|done].
    apply elem_of_cons in Hx as [->|Hx].
    + specialize (Hfail s Hs). by rewrite Hy in Hfail.
    + apply IH; [done| |done|].
      * intros z s' Hz. apply Hpres. by right.
      * specialize (Hpres y s (list_elem_of_here _ _) Hs). by rewrite Hy in Hpres.
Qed.

Lemma for_each_app {S A} (body : A → M S unit) (xs ys : list A) (s : S) :
  for_each body (xs ++ ys) s =
  match for_each body xs s with
  | (Ok _, s') => for_each body ys s'
  | (Err e, s') => (Err e, s')
  end.
Proof.
  revert s. induction xs as [|x xs IH]; intros s; simpl; [done|].
  unfold mbind, M_bind, bind. destruct (body x s) as [[[]|e] s1]; [apply IH|done].
Qed.

Lemma underscores_length name k :
  String.length (underscores name k) = (String.length name + k)%nat.
Proof.
  revert name. induction k as [|k IH]; intros name; simpl; [lia|].
  rewrite IH, string_length_app. simpl. lia.
Qed.

Lemma underscores_S name k :
  underscores name (S k) = underscores name k +:+ "_".
Proof.
  revert name. induction k as [|k IH]; intros name; [done|].
  change (underscores name (S (S k))) with (underscores (name +:+ "_") (S k)).
  by rewrite IH.
Qed.


(** * Properties of [flatname] *)

Section FlatnameProps.
Import Flatname.

(** The loop stops at the first candidate that is too long or free. *)
Lemma flatname_loop_spec segments avoid maxlen name :
  ∃ k : nat,
    (∀ j : nat, (j < k)%nat →
       underscores name j ∈ avoid ∧
       Z.of_nat (String.length (underscores name j)) ≤ maxlen) ∧
    ((Z.of_nat (String.length (underscores name k)) ≤ maxlen ∧
      (underscores name k ∉ avoid) ∧
      flatname_loop segments avoid maxlen name = Ok (underscores name k)) ∨
     (maxlen < Z.of_nat (String.length (underscores name k)) ∧
      flatname_loop segments avoid maxlen name =
        Err (Raise RuntimeError
                   (CouldNotFlatten segments (underscores name k))))).
Proof.
  funelim (flatname_loop segments avoid maxlen name).
  - exists 0%nat. split; [lia|]. right. simpl. split; [lia|done].
  - match goal with IH : ∃ k : nat, _ |- _ =>
      destruct IH as (k & Hbefore & Hat) end.
    exists (S k). split.
    + intros [|j] Hj; simpl.
      * split; [done|lia].
      * apply Hbefore. lia.
    + exact Hat.
  - exists 0%nat. split; [lia|]. left. simpl. split; [lia|done].
Qed.

(** C5: [flatname] joins the segments with underscores and tries that name
    followed by 0, 1, 2, ... underscores: it returns the first candidate
    that is not a key of [avoid], and raises the naming error at the first
    candidate longer than [maxlen], whichever comes first.  So
    [flatname(["a","b"])] is ["a_b"], with [avoid = {"a_b"}] it is ["a_b_"],
    and [flatname(["x"], avoid={"x","x_","x__"}, maxlen=3)] raises. *)
Theorem flatname_spec :
  (∀ segments avoid maxlen,
     let base := join "_" segments in
     let keys := default ∅ avoid in
     ∃ k : nat,
       (∀ j : nat, (j < k)%nat →
          underscores base j ∈ keys ∧
          Z.of_nat (String.length (underscores base j)) ≤ maxlen) ∧
       ((Z.of_nat (String.length (underscores base k)) ≤ maxlen ∧
         (underscores base k ∉ keys) ∧
         flatname segments avoid maxlen = Ok (underscores base k)) ∨
        (maxlen < Z.of_nat (String.length (underscores base k)) ∧
         flatname segments avoid maxlen =
           Err (Raise RuntimeError
                      (CouldNotFlatten segments (underscores base k)))))) ∧
  flatname ["a"; "b"] None default_maxlen = Ok "a_b" ∧
  flatname ["a"; "b"] (Some ∅) default_maxlen = Ok "a_b" ∧
  flatname ["a"; "b"] (Some {["a_b"]}) default_maxlen = Ok "a_b_" ∧
  flatname ["x"] (Some {["x"; "x_"; "x__"]}) 3 =
    Err (Raise RuntimeError (CouldNotFlatten ["x"] "x___")).
Proof.
  split.
  { intros segments avoid maxlen base keys.
    apply (flatname_loop_spec segments keys maxlen base). }
  repeat split; vm_compute; reflexivity.
Qed.

End FlatnameProps.

(** * Properties of [MosParams] *)

Section MosParamsProps.
Import Primitives.

(** What the value checks let through. *)
Lemma MosParams_post_init_Ok self :
  MosParams_post_init self = Ok tt ↔
  (∃ wz lz, w self = Some wz ∧ l self = Some lz ∧ 0 < wz ∧ 0 < lz) ∧
  0 < npar self ∧ 0 < nser self.
Proof.
  unfold MosParams_post_init, opt_le_0. split.
  - destruct (w self) as [wz|]; [|discriminate].
    destruct (l self) as [lz|]; simpl;
      repeat (case_bool_decide; try discriminate).
    intros _. split; [|lia]. exists wz, lz. repeat split; lia.
  - intros [(wz & lz & -> & -> & Hw & Hl) [Hp Hs]]. simpl.
    repeat (case_bool_decide; try lia). done.
Qed.

(** When the value checks raise [TypeError]: at the comparison of an unset
    size with [0]. *)
Lemma MosParams_post_init_TypeError self :
  raises (MosParams_post_init self) TypeError ↔
  w self = None ∨ (∃ wz, w self = Some wz ∧ 0 < wz ∧ l self = None).
Proof.
  unfold MosParams_post_init, opt_le_0.
  destruct (w self) as [wz|]; simpl; [|split; [by left|done]].
  destruct (bool_decide_reflect (wz ≤ 0)) as [Hw|Hw]; simpl.
  - split; [discriminate|].
    intros [H|(wz' & H & Hpos & _)]; [discriminate|].
    injection H as <-. lia.
  - destruct (l self) as [lz|]; simpl.
    + split.
      * repeat (case_bool_decide; simpl; try discriminate). done.
      * intros [H|(wz' & _ & _ & H)]; discriminate.
    + split; [|done]. intros _. right. exists wz.
      split; [done|]. split; [lia|done].
Qed.

End MosParamsProps.

(** * Properties of the ASAP7 walker *)

Section Asap7Props.
Import Primitives Asap7.

Variable table : list ((MosType * VthKey) * ExternalModule).
Variable super_visit_instance : Instance → M Asap7Walker Instance.

Lemma dict_get_set {K V} `{EqDecision K} (k k' : K) (v : V) d :
  dict_get k' (dict_set k v d) = if decide (k' = k) then Some v else dict_get k' d.
Proof.
  induction d as [|[k0 v0] d IH]; simpl.
  - by destruct (decide (k' = k)).
  - destruct (decide (k = k0)) as [->|Hne]; simpl.
    + by destruct (decide (k' = k0)).
    + destruct (decide (k' = k0)) as [->|Hne'].
      * destruct (decide (k0 = k)); [congruence|done].
      * exact IH.
Qed.

(** A fresh walker's cache is sound, and [mos_module_call] keeps it so. *)
Lemma init_cache_sound : cache_sound table Asap7Walker_init.
Proof. intros p call. simpl. discriminate. Qed.

Lemma mos_module_call_cache_sound p self :
  cache_sound table self →
  cache_sound table (mos_module_call table p self).2.
Proof.
  intros Hs. unfold mos_module_call, mos_module. monad_unfold.
  destruct (dict_get p (mos_modcalls self)) as [call|] eqn:Hc; [exact Hs|].
  destruct (dict_get (tp p, KVth (vth p)) table) as [emod|] eqn:Ht;
    [|exact Hs].
  intros q call. cbn [snd mos_modcalls]. rewrite dict_get_set.
  destruct (decide (q = p)) as [->|_]; [by rewrite Ht|apply Hs].
Qed.

(** A call of a primitive other than [Mos] comes back as it is, whatever
    the table holds. *)
Lemma replace_primitive_other pc self :
  prim_ident (prim pc) ≠ prim_ident Mos →
  replace_primitive table pc self = (Ok (IPrimitiveCall pc), self).
Proof.
  intros Hne. unfold replace_primitive.
  rewrite bool_decide_eq_false_2; done.
Qed.

(** C9, amended: when the walker visits an Instance of the [Mos] primitive
    and the table has no module for the type and threshold of its
    parameters, the visit raises [RuntimeError] and changes nothing; the
    primitive is not passed through.  (The cache of the walker holds only
    calls that a lookup produced, as it does from [__init__] on.) *)
Theorem mos_lookup_miss_is_fatal (self : Asap7Walker) (inst : Instance)
    (pc : PrimitiveCall) (p : MosParams) :
  _resolved inst = Some (IPrimitiveCall pc) →
  prim_ident (prim pc) = prim_ident Mos →
  params pc = MosParamsObj p →
  cache_sound table self →
  dict_get (tp p, KVth (vth p)) table = None →
  visit_instance table super_visit_instance inst self =
    (Err (Raise RuntimeError NoMosModule), self).
Proof.
  intros Hres Hmos Hpar Hsound Hmiss.
  unfold visit_instance. rewrite Hres.
  unfold replace_primitive. rewrite bool_decide_eq_true_2 by done.
  rewrite Hpar. unfold mos_module_call, mos_module. monad_unfold.
  destruct (dict_get p (mos_modcalls self)) as [call|] eqn:Hc.
  - apply Hsound in Hc. rewrite Hmiss in Hc. by destruct Hc.
  - by rewrite Hmiss.
Qed.

End Asap7Props.

Section Asap7Table.
Import Primitives Asap7 Examples.

(** The module-level code of [asap7.py] raises before its table exists:
    [MosVth.LOW] is no member of the enum that [primitives.py] declares. *)
Lemma asap7_table_is_not_built :
  _mos_modules = Err (Raise AttributeError (NoAttribute "MosVth" "LOW")).
Proof. reflexivity. Qed.

Lemma mos_lookup_miss_is_fatal_witness :
  visit_instance [] visit_nothing nmos_inst Asap7Walker_init =
    (Err (Raise RuntimeError NoMosModule), Asap7Walker_init).
Proof.
  apply (mos_lookup_miss_is_fatal [] visit_nothing Asap7Walker_init
           nmos_inst nmos_call nmos_params).
  - reflexivity.
  - reflexivity.
  - reflexivity.
  - apply init_cache_sound.
  - reflexivity.
Defined.

(** The claim as the specification has it fails: no technology module is
    registered for a resistor, and the walker hands the instance back
    unchanged, without an error. *)
Lemma walker_passes_resistor_through :
  _resolved resistor_inst = Some (IPrimitiveCall resistor_call) ∧
  ¬ registered rvt_table resistor_call ∧
  visit_instance rvt_table visit_nothing resistor_inst Asap7Walker_init =
    (Ok resistor_inst, Asap7Walker_init).
Proof.
  split; [reflexivity|]. split; [|reflexivity].
  intros [Hid _]. vm_compute in Hid. discriminate.
Qed.

End Asap7Table.

(** * Properties of the exporter: parameters *)

Section ProtoParams.
Import Primitives Proto.

Variable int_fits : Z → bool.

(** The value types the wire format has a variant for (or drops). *)
Definition supported (v : PyVal) : bool :=
  isinstance_NoneType v || isinstance_int v ||
  isinstance_float v || isinstance_str v.

(** The [params] that [export_instance] iterates over. *)
Definition instance_params (inst : Instance) : option (list (string * PyVal)) :=
  match _resolved inst with
  | Some (IPrimitiveCall call) => Some (asdict (params call))
  | Some (IExternalModuleCall call) => Some (call_params call)
  | _ => None
  end.

(** What the loop writes under the key of a value, on top of [prev]. *)
Definition wire_value (prev : option ParameterValue) (v : PyVal)
    : option ParameterValue :=
  match v with
  | PyNone => prev
  | PyInt z => Some (integer z)
  | PyBool b => Some (integer (Z.b2z b))
  | PyFloat bits => Some (double bits)
  | PyStr s => Some (string_ s)
  | PyEnum _ _ | PyObject _ => prev
  end.

(** A value that the loop gets past: of a supported type and, when it is
    an [int], within the range of the integer field. *)
Definition writable (v : PyVal) : bool :=
  supported v && (if isinstance_int v then int_fits (int_value v) else true).

(** The first item that the loop does not get past, if there is one. *)
Definition first_unwritable (params : list (string * PyVal))
    : option (string * PyVal) :=
  find (λ kv, negb (writable kv.2)) params.

(** The exception that the loop raises at such an item of the Instance
    named [inst]: [ValueError] for an [int] out of range, [TypeError] for a
    value of another type. *)
Definition param_error (inst : string) (kv : string * PyVal) : PyErr :=
  if supported kv.2 then Raise ValueError (ValueOutOfRange (int_value kv.2))
  else Raise TypeError (InvalidInstanceParameter kv.1 inst).

Lemma export_params_Ok inst params acc out :
  NoDup params.*1 →
  export_params int_fits inst params acc = Ok out →
  (∀ key, key ∉ params.*1 → out !! key = acc !! key) ∧
  (∀ key val, (key, val) ∈ params →
     supported val = true ∧ out !! key = wire_value (acc !! key) val).
Proof.
  revert acc. induction params as [|[k v] rest IH]; intros acc Hnd Hout.
  - simpl in Hout. injection Hout as <-. split; [done|].
    intros key val Hin. by apply elem_of_nil in Hin.
  - rewrite fmap_cons in Hnd. apply NoDup_cons in Hnd as [Hk Hnd].
    simpl in Hk. simpl in Hout.
    assert (∀ acc', export_params int_fits inst rest acc' = Ok out →
              acc' !! k = wire_value (acc !! k) v →
              (∀ key, key ≠ k → acc' !! key = acc !! key) →
              supported v = true →
              (∀ key, key ∉ (k, v).1 :: rest.*1 → out !! key = acc !! key) ∧
              (∀ key val, (key, val) ∈ (k, v) :: rest →
                 supported val = true ∧
                 out !! key = wire_value (acc !! key) val)) as Hstep.
    { intros acc' Hrec Hk' Hother Hsup.
      destruct (IH acc' Hnd Hrec) as [Hout1 Hout2]. split.
      - intros key Hkey. simpl in Hkey.
        apply not_elem_of_cons in Hkey as [Hne Hkey].
        rewrite Hout1 by done. by apply Hother.
      - intros key val Hin. apply elem_of_cons in Hin as [[= -> ->]|Hin].
        + split; [done|]. rewrite Hout1 by done. done.
        + destruct (Hout2 key val Hin) as [? Hw]. split; [done|].
          rewrite Hw. rewrite Hother; [done|].
          intros ->. apply Hk. apply list_elem_of_fmap. by exists (k, val). }
    destruct v; simpl in Hout; try discriminate.
    + apply (Hstep acc); done.
    + destruct (int_fits _); [|discriminate].
      apply (Hstep _ Hout); [by rewrite lookup_insert_eq| |done].
      intros key Hne. by rewrite lookup_insert_ne.
    + destruct (int_fits _); [|discriminate].
      apply (Hstep _ Hout); [by rewrite lookup_insert_eq| |done].
      intros key Hne. by rewrite lookup_insert_ne.
    + apply (Hstep _ Hout); [by rewrite lookup_insert_eq| |done].
      intros key Hne. by rewrite lookup_insert_ne.
    + apply (Hstep _ Hout); [by rewrite lookup_insert_eq| |done].
      intros key Hne. by rewrite lookup_insert_ne.
Qed.

(** The loop returns exactly when it gets past every item; otherwise the
    first item it does not get past decides the exception. *)
Lemma export_params_outcome inst params acc :
  match first_unwritable params with
  | Some kv => export_params int_fits inst params acc = Err (param_error inst kv)
  | None => ∃ out, export_params int_fits inst params acc = Ok out
  end.
Proof.
  unfold first_unwritable.
  revert acc. induction params as [|[k v] rest IH]; intros acc.
  - by exists acc.
  - cbn [find]. unfold writable at 1, param_error. cbn [fst snd].
    destruct v; cbn; try apply IH; try done.
    + destruct (int_fits _); cbn; [apply IH|done].
    + destruct (int_fits _); cbn; [apply IH|done].
Qed.

Lemma first_unwritable_None params :
  first_unwritable params = None ↔
  ∀ key val, (key, val) ∈ params → writable val = true.
Proof.
  unfold first_unwritable. split.
  - intros Hf key val Hin.
    apply list_elem_of_In in Hin.
    pose proof (find_none _ _ Hf _ Hin) as H. simpl in H.
    by destruct (writable val).
  - intros Hall. destruct (find _ params) as [[k v]|] eqn:Hf; [|done].
    apply find_some in Hf as [Hin Hbad]. apply list_elem_of_In in Hin.
    simpl in Hbad. rewrite (Hall k v Hin) in Hbad. discriminate.
Qed.

Lemma export_instance_call rec inst params self :
  instance_params inst = Some params →
  ∃ self' qn,
    export_instance int_fits rec inst self =
      match export_params int_fits (inst_name inst) params ∅ with
      | Err e => (Err e, self')
      | Ok ps =>
          match export_conns (conns inst) ∅ with
          | Err e => (Err e, self')
          | Ok cs => (Ok {| pinst_name := inst_name inst; module_qn := qn;
                            parameters := ps; connections := cs |}, self')
          end
      end.
Proof.
  unfold instance_params, export_instance. intros Hp.
  destruct (_resolved inst) as [[m|call|call|g]|]; try discriminate;
    injection Hp as <-.
  - monad_unfold. eexists self, _.
    destruct (export_params _ _ _ _); [|done].
    destruct (export_conns _ _); done.
  - unfold export_external_module. monad_unfold.
    destruct (ext_modules self !! _); eexists _, _;
      (destruct (export_params _ _ _ _); [|done]);
      destruct (export_conns _ _); done.
Qed.

(** C4, amended: the parameter mapping of an exported Instance is written
    item by item.  The first item that is neither [None] nor an [int]
    within the range of the integer field nor a [float] nor a [str] ends the
    export: with [ValueError] when it is an [int] out of range, with
    [TypeError] when it is of another type.  When there is no such item
    (and the connections are exported) the Instance is exported, and in
    its wire map a [None]-valued field has no key, an [int]-valued field is
    in the integer variant, a [float] in the double variant and a [str] in
    the string variant. *)
Theorem export_instance_parameters
    (rec : nat → M ProtoExporter PModule) (inst : Instance)
    (params : list (string * PyVal)) (self : ProtoExporter) :
  instance_params inst = Some params →
  NoDup params.*1 →
  match first_unwritable params with
  | Some kv =>
      (export_instance int_fits rec inst self).1 =
        Err (param_error (inst_name inst) kv)
  | None =>
      match export_conns (conns inst) ∅ with
      | Err e => (export_instance int_fits rec inst self).1 = Err e
      | Ok cs =>
          ∃ pinst,
            (export_instance int_fits rec inst self).1 = Ok pinst ∧
            pinst_name pinst = inst_name inst ∧
            (∀ key, key ∉ params.*1 → parameters pinst !! key = None) ∧
            ∀ key val, (key, val) ∈ params →
              (isinstance_NoneType val = true →
                 parameters pinst !! key = None) ∧
              (isinstance_int val = true →
                 parameters pinst !! key = Some (integer (int_value val))) ∧
              (∀ bits, val = PyFloat bits →
                 parameters pinst !! key = Some (double bits)) ∧
              (∀ s, val = PyStr s →
                 parameters pinst !! key = Some (string_ s))
      end
  end.
Proof.
  intros Hp Hnd.
  destruct (export_instance_call rec inst params self Hp) as (self' & qn & ->).
  pose proof (export_params_outcome (inst_name inst) params ∅) as Hout.
  destruct (first_unwritable params) as [kv|].
  - by rewrite Hout.
  - destruct Hout as [ps Hps]. rewrite Hps.
    destruct (export_conns (conns inst) ∅) as [cs|e]; [|done].
    eexists. split; [reflexivity|]. cbn [pinst_name parameters fst].
    split; [done|].
    destruct (export_params_Ok _ _ _ _ Hnd Hps) as [Hother Hin]. split.
    + intros key Hkey. by rewrite Hother.
    + intros key val Hkv. destruct (Hin key val Hkv) as [_ ->].
      rewrite lookup_empty.
      destruct val; repeat split; intros; simplify_eq/=; done.
Qed.

End ProtoParams.

Section ProtoParamsWitness.
Import Primitives Proto Examples.

(** An Instance whose parameters include an integer beyond the 64-bit
    range, ahead of a value of a type without a variant. *)
Definition big_params : list (string * PyVal) :=
  [("n", PyInt (2 ^ 63)); ("bad", PyObject "object()")].

Definition big_inst : Instance :=
  {| inst_name := "x1";
     _resolved := Some (IExternalModuleCall
                          (ExternalModule_call some_emod big_params));
     conns := [] |}.

Lemma export_instance_parameters_witness :
  ∃ pinst,
    (export_instance int64_fits (λ _, throw RecursionError NoMessage)
       mixed_inst (ProtoExporter_init None)).1 = Ok pinst ∧
    pinst_name pinst = "x1" ∧
    (∀ key, key ∉ mixed_params.*1 → parameters pinst !! key = None) ∧
    ∀ key val, (key, val) ∈ mixed_params →
      (isinstance_NoneType val = true → parameters pinst !! key = None) ∧
      (isinstance_int val = true →
         parameters pinst !! key = Some (integer (int_value val))) ∧
      (∀ bits, val = PyFloat bits →
         parameters pinst !! key = Some (double bits)) ∧
      (∀ s, val = PyStr s → parameters pinst !! key = Some (string_ s)).
Proof.
  apply (export_instance_parameters int64_fits
           (λ _, throw RecursionError NoMessage) mixed_inst mixed_params
           (ProtoExporter_init None)).
  - reflexivity.
  - apply (bool_decide_unpack _). vm_compute. exact I.
Defined.

(** The claim as the specification has it fails: with a 64-bit integer
    field, the integer-valued parameter [n = 2 ** 63] is not placed in the
    integer variant, and the export does not end in a type error although
    a value of an unsupported type is among the parameters: it raises
    [ValueError] at [n]. *)
Lemma out_of_range_integer_is_not_exported :
  isinstance_int (PyInt (2 ^ 63)) = true ∧
  ("n", PyInt (2 ^ 63)) ∈ big_params ∧
  ("bad", PyObject "object()") ∈ big_params ∧
  supported (PyObject "object()") = false ∧
  export_instance int64_fits (λ _, throw RecursionError NoMessage)
    big_inst (ProtoExporter_init None) =
  (Err (Raise ValueError (ValueOutOfRange (2 ^ 63))),
   (export_external_module some_emod (ProtoExporter_init None)).2).
Proof.
  split; [reflexivity|]. split; [by left|]. split; [by right; left|].
  split; [reflexivity|]. vm_compute. reflexivity.
Qed.

End ProtoParamsWitness.

(** * Properties of the exporter: connections *)

Section ProtoConns.
Import Proto.

(** A nested concatenation is exported by [export_concat] again. *)
Lemma export_part_concat parts :
  export_part (CConcat parts) = cs ← export_concat parts; Ok (concat cs).
Proof.
  simpl.
  match goal with
  | |- ?go parts ≫= _ = _ => assert (go parts = export_concat parts) as ->
  end; [|done].
  induction parts as [|q ps IH]; [done|].
  cbn [export_concat foldr]. fold (export_concat ps).
  destruct (export_part q) as [c|e]; [|done].
  rewrite IH. by destruct (export_concat ps).
Qed.

(** The parts of a concatenation are exported one for one, in order. *)
Lemma export_concat_length parts cs :
  export_concat parts = Ok cs → length cs = length parts.
Proof.
  revert cs. induction parts as [|q ps IH]; intros cs; simpl.
  - by intros [= <-].
  - destruct (export_part q) as [c|e]; simpl; [|discriminate].
    destruct (export_concat ps) as [cs'|e]; simpl; [|discriminate].
    intros [= <-]. simpl. by rewrite (IH cs').
Qed.

(** A connection to the concatenation of a Signal of width 4 and the
    slice [0, 4) of a Signal of width 8. *)
Example export_conns_concat :
  export_conns
    [("p", CConcat [CSignal {| sig_name := "a"; sig_width := 4 |};
                    CSlice {| sig_name := "b"; sig_width := 8 |} 0 4])] ∅ =
  Ok {[ "p" := concat [sig {| psig_name := "a"; psig_width := 4 |};
                       slice "b" 0 4] ]}.
Proof. vm_compute. reflexivity. Qed.

End ProtoConns.

(** * Properties of the base elaborator *)

Section ElabBasics.
Import Primitives Elab.

Variable graph : Graph.
Variable pass : Pass.

(** A Module in the cache is answered at once: the Module itself comes
    back and the engine is left as it was, so no hook runs and no child is
    visited. *)
Lemma elaborate_module_base_cached fuel module self :
  module ∈ dom (modules self) →
  elaborate_module_base graph pass (S fuel) module self = (Ok module, self).
Proof.
  intros Hin. simpl. monad_unfold. by rewrite bool_decide_eq_true_2.
Qed.

(** A Module without a name is refused before anything else happens. *)
Lemma elaborate_module_base_anonymous fuel module self :
  module ∉ dom (modules self) →
  falsy_name (name (graph module)) = true →
  elaborate_module_base graph pass (S fuel) module self =
    (Err (Raise RuntimeError (AnonymousModule module)), self).
Proof.
  intros Hin Hname. simpl. monad_unfold.
  rewrite bool_decide_eq_false_2 by done. by rewrite Hname.
Qed.

(** A generator call that reaches [elaborate_instantiable] meets the final
    [raise TypeError]; [elaborate_generator_call] is not called. *)
Lemma elaborate_instantiable_generator_call rec g self :
  elaborate_instantiable pass rec (Some (IGeneratorCall g)) self =
    (Err (Raise TypeError NoMessage), self).
Proof. reflexivity. Qed.

End ElabBasics.

Section ElabLeaf.
Import Primitives Elab.

(** C8: under the base pass, elaborating a Module that has no instances,
    instance arrays or bundle instances fails with the naming error exactly
    when its name is empty ([None] or [""]); with any other name it returns
    the Module itself, having called the hook once and touched nothing
    else. *)
Theorem base_pass_childless_module (graph : Graph) (fuel : nat) (m : nat) :
  instances (graph m) = [] →
  instarrays (graph m) = [] →
  bundles (graph m) = [] →
  let r := elaborate graph base_pass (S fuel) (IModule m) in
  (is_Err r.1 ↔ falsy_name (name (graph m)) = true) ∧
  (falsy_name (name (graph m)) = true →
     r.1 = Err (Raise RuntimeError (AnonymousModule m))) ∧
  (falsy_name (name (graph m)) = false →
     r.1 = Ok m ∧ effects r.2 = [Call_elaborate_module m] ∧
     modules r.2 = {[ m := m ]}).
Proof.
  intros Hi Ha Hb. unfold elaborate, elaborate_top. simpl.
  unfold elaborate_children. rewrite Hi, Ha, Hb. monad_unfold. simpl.
  rewrite bool_decide_eq_false_2 by set_solver.
  destruct (falsy_name (name (graph m))); simpl.
  - split; [done|]. split; [done|]. discriminate.
  - split; [split; [intros []|discriminate]|]. split; [discriminate|].
    intros _. split; [done|]. split; [done|]. apply insert_empty.
Qed.

Lemma base_pass_childless_module_witness :
  let r := elaborate Examples.leaf_graph base_pass 1 (IModule 0) in
  (is_Err r.1 ↔ falsy_name (Some "top") = true) ∧
  (falsy_name (Some "top") = true →
     r.1 = Err (Raise RuntimeError (AnonymousModule 0))) ∧
  (falsy_name (Some "top") = false →
     r.1 = Ok 0%nat ∧ effects r.2 = [Call_elaborate_module 0] ∧
     modules r.2 = {[ 0%nat := 0%nat ]}).
Proof.
  apply (base_pass_childless_module Examples.leaf_graph 0 0);
    reflexivity.
Defined.

(** C6, at an input where the code departs from it: a Module with an
    Instance of an unexpanded generator call, elaborated by the base pass.
    The run fails, but with a bare [TypeError], not with the
    [RuntimeError] of [elaborate_generator_call] that names the pass. *)
Theorem generator_call_raises_bare_TypeError :
  (elaborate Examples.generator_graph base_pass 10 (IModule 0)).1 =
    Err (Raise TypeError NoMessage) ∧
  (elaborate Examples.generator_graph base_pass 10 (IModule 0)).1 ≠
    (elaborate_generator_call base_pass {| gen_name := "Gen" |}
       Elaborator_init).1.
Proof. split; [reflexivity|]. vm_compute. discriminate. Qed.

(** C1, at an input where the code departs from it: with a pass whose hook
    returns a new Module object, the first call returns and caches that
    object, and the second call returns the argument instead of the cached
    object. *)
Theorem second_call_returns_argument_not_cached_result :
  let first := elaborate_module_base Examples.leaf_graph Examples.copying_pass
                 10 0 Elaborator_init in
  let second := elaborate_module_base Examples.leaf_graph Examples.copying_pass
                  10 0 first.2 in
  first.1 = Ok 100%nat ∧
  modules first.2 !! 0%nat = Some 100%nat ∧
  second.1 = Ok 0%nat ∧
  second.2 = first.2.
Proof. vm_compute. repeat split. Qed.

End ElabLeaf.

(** * The order of a traversal *)

Section ElabTraversal.
Import Primitives Elab.

Variable graph : Graph.
Variable pass : Pass.

(** The Module that a target is, if it is one. *)
Definition target_module (t : option Instantiable) : option nat :=
  match t with Some (IModule c) => Some c | _ => None end.

(** The Modules among the targets of the Instances and InstArrays of [m]:
    the Modules that the traversal enters from [m]. *)
Definition child_modules (m : HdlModule) : list nat :=
  omap (λ i, target_module (_resolved i)) (instances m) ++
  omap (λ a, target_module (arr_resolved a)) (instarrays m).

Definition child (p c : nat) : Prop := c ∈ child_modules (graph p).

(** A run only ever appends to the effects. *)
Definition appends (s s' : Elaborator) : Prop :=
  ∃ T, effects s' = effects s ++ T.

#[local] Instance appends_preorder : PreOrder appends.
Proof.
  split.
  - intros s. exists []. by rewrite app_nil_r.
  - intros s1 s2 s3 [T1 H1] [T2 H2]. exists (T1 ++ T2).
    by rewrite H2, H1, app_assoc.
Qed.

(** ** Modules that cannot be finished

    Let [B] be a set of Modules, none of them in the cache, each of which
    has a child in [B].  Then no run caches a Module of [B] or calls the
    hook on one, and a run on a Module of [B] fails: it descends through
    [B] until the recursion limit stops it. *)
Section Closed.

Variable B : nat → Prop.
Hypothesis B_closed : ∀ b, B b → ∃ c, child b c ∧ B c.

Definition uncached (self : Elaborator) : Prop :=
  ∀ b, B b → b ∉ dom (modules self).

Definition quiet (s s' : Elaborator) : Prop :=
  uncached s →
  uncached s' ∧
  ∃ T, effects s' = effects s ++ T ∧
       ∀ b, B b → Call_elaborate_module b ∉ T.

#[local] Instance quiet_preorder : PreOrder quiet.
Proof.
  split.
  - intros s Hs. split; [done|]. exists []. rewrite app_nil_r.
    split; [done|]. intros b _ Hin. by apply elem_of_nil in Hin.
  - intros s1 s2 s3 H12 H23 H1.
    destruct (H12 H1) as (H2 & T1 & E1 & Q1).
    destruct (H23 H2) as (H3 & T2 & E2 & Q2).
    split; [done|]. exists (T1 ++ T2). split.
    + by rewrite E2, E1, app_assoc.
    + intros b Hb Hin. apply elem_of_app in Hin as [Hin|Hin].
      * by apply (Q1 b).
      * by apply (Q2 b).
Qed.

Lemma quiet_add_effect e s :
  (∀ b, B b → e ≠ Call_elaborate_module b) → quiet s (add_effect e s).
Proof.
  intros He Hs. split; [exact Hs|]. exists [e]. split; [done|].
  intros b Hb Hin. apply list_elem_of_singleton in Hin. by apply (He b).
Qed.

Lemma emit_quiet e :
  (∀ b, B b → e ≠ Call_elaborate_module b) → preserves quiet (emit e).
Proof. intros He. apply preserves_modify. intros s. by apply quiet_add_effect. Qed.

(** What is assumed of the method that the dispatch calls on a Module. *)
Definition stuck_on_B (rec : nat → M Elaborator nat) : Prop :=
  (∀ x, preserves quiet (rec x)) ∧
  (∀ x s, B x → uncached s → is_Err (rec x s).1).

Lemma instantiable_quiet rec t :
  (∀ x, preserves quiet (rec x)) →
  preserves quiet (elaborate_instantiable pass rec t).
Proof.
  intros Hrec. destruct t as [[c|call|call|g]|]; simpl;
    repeat (first [apply Hrec | by apply emit_quiet | pres_step]).
Qed.

Lemma instance_quiet rec inst :
  (∀ x, preserves quiet (rec x)) →
  preserves quiet (elaborate_instance pass rec inst).
Proof.
  intros Hrec. unfold elaborate_instance.
  pres_step; [by apply emit_quiet|]. by apply instantiable_quiet.
Qed.

Lemma instance_array_quiet rec arr :
  (∀ x, preserves quiet (rec x)) →
  preserves quiet (elaborate_instance_array pass rec arr).
Proof.
  intros Hrec. unfold elaborate_instance_array.
  pres_step; [by apply emit_quiet|]. by apply instantiable_quiet.
Qed.

Lemma children_quiet rec m :
  (∀ x, preserves quiet (rec x)) →
  preserves quiet (elaborate_children pass rec m).
Proof.
  intros Hrec. unfold elaborate_children.
  repeat (first [ by apply instance_quiet | by apply instance_array_quiet
                | by apply emit_quiet | pres_step ]).
Qed.

Lemma instantiable_stuck rec c s :
  stuck_on_B rec → B c → uncached s →
  is_Err (elaborate_instantiable pass rec (Some (IModule c)) s).1.
Proof.
  intros [_ Hfail] Hc Hs. simpl. monad_unfold.
  specialize (Hfail c s Hc Hs).
  by destruct (rec c s) as [[r|e] s1].
Qed.

Lemma children_stuck rec m s :
  stuck_on_B rec →
  (∃ c, c ∈ child_modules m ∧ B c) →
  uncached s →
  is_Err (elaborate_children pass rec m s).1.
Proof.
  intros Hrec (c & Hin & Hc) Hs.
  assert (∀ x, preserves quiet (rec x)) as Hq by apply Hrec.
  unfold child_modules in Hin. unfold elaborate_children.
  set (body_i := λ inst : Instance,
         elaborate_instance pass rec inst ≫= λ _, mret ()).
  set (body_a := λ arr : InstArray,
         elaborate_instance_array pass rec arr ≫= λ _, mret ()).
  assert (∀ y, preserves quiet (body_i y)) as Hqi.
  { intros y. unfold body_i. pres_step; [by apply instance_quiet|pres_step]. }
  assert (∀ y s, uncached s → uncached (body_i y s).2) as Hpi.
  { intros y s0 Hs0. by destruct (Hqi y s0 Hs0). }
  assert (∀ y, preserves quiet (body_a y)) as Hqa.
  { intros y. unfold body_a.
    pres_step; [by apply instance_array_quiet|pres_step]. }
  assert (∀ y s, uncached s → uncached (body_a y s).2) as Hpa.
  { intros y s0 Hs0. by destruct (Hqa y s0 Hs0). }
  apply elem_of_app in Hin as [Hin|Hin];
    apply list_elem_of_omap in Hin as (x & Hx & Htx).
  - assert (is_Err (for_each body_i (instances m) s).1) as Herr.
    { apply (for_each_fails uncached _ _ x); [done| |  |done].
      - intros y s0 _. apply Hpi.
      - intros s0 Hs0. unfold body_i, elaborate_instance. monad_unfold.
        cbn [fst snd].
        destruct (_resolved x) as [[c'| | |]|]; simplify_eq/=.
        pose proof (instantiable_stuck rec c
                      (add_effect (SetElaborated_instance x) s0) Hrec Hc) as He.
        simpl in He. monad_unfold.
        destruct (rec c _) as [[r|e] s1]; [|done].
        apply He. exact Hs0. }
    monad_unfold.
    by destruct (for_each body_i (instances m) s) as [[[]|e] s1].
  - monad_unfold.
    destruct (for_each body_i (instances m) s) as [[[]|e] s1] eqn:Hloop;
      [|done].
    assert (uncached s1) as Hs1.
    { pose proof (preserves_for_each quiet body_i (instances m)) as Hp.
      assert (quiet s (for_each body_i (instances m) s).2) as Hq'.
      { apply Hp. intros inst _. apply Hqi. }
      rewrite Hloop in Hq'. by apply Hq'. }
    assert (is_Err (for_each body_a (instarrays m) s1).1) as Herr.
    { apply (for_each_fails uncached _ _ x); [done| |  |done].
      - intros y s0 _. apply Hpa.
      - intros s0 Hs0. unfold body_a, elaborate_instance_array. monad_unfold.
        cbn [fst snd].
        destruct (arr_resolved x) as [[c'| | |]|]; simplify_eq/=.
        pose proof (instantiable_stuck rec c
                      (add_effect (SetElaborated_array x) s0) Hrec Hc) as He.
        simpl in He. monad_unfold.
        destruct (rec c _) as [[r|e] s2]; [|done].
        apply He. exact Hs0. }
    by destruct (for_each body_a (instarrays m) s1) as [[[]|e] s2].
Qed.

Lemma module_base_stuck fuel :
  stuck_on_B (elaborate_module_base graph pass fuel).
Proof.
  induction fuel as [|fuel IH].
  - split.
    + intros x. simpl. pres_step.
    + intros x s _ _. exact I.
  - assert (∀ x s, B x → uncached s →
              is_Err (elaborate_module_base graph pass (S fuel) x s).1) as Hfail.
    { intros x s Hx Hs. simpl. monad_unfold.
      rewrite bool_decide_eq_false_2 by (by apply Hs).
      destruct (falsy_name _); [done|].
      pose proof (children_stuck _ (graph x) s IH (B_closed x Hx) Hs) as He.
      by destruct (elaborate_children _ _ _ s) as [[[]|e] s1]. }
    split; [|exact Hfail].
    intros x s. simpl. unfold emit. monad_unfold.
    destruct (bool_decide (x ∈ dom (modules s))) eqn:Hc; [reflexivity|].
    destruct (falsy_name _); [reflexivity|].
    pose proof (children_quiet _ (graph x) (proj1 IH) s) as Hq.
    destruct (elaborate_children _ _ _ s) as [[[]|e] s1] eqn:Hch; [|exact Hq].
    intros Hs. simpl in Hq. destruct (Hq Hs) as (Hs1 & T & ET & QT).
    assert (¬ B x) as Hx.
    { intros Hx.
      pose proof (children_stuck _ (graph x) s IH (B_closed x Hx) Hs) as He.
      by rewrite Hch in He. }
    assert (∀ b, B b → Call_elaborate_module b ∉ T ++ [Call_elaborate_module x])
      as QT'.
    { intros b Hb Hin. apply elem_of_app in Hin as [Hin|Hin].
      - by apply (QT b).
      - apply list_elem_of_singleton in Hin. injection Hin as ->. done. }
    destruct (elaborate_module pass x) as [r|e]; simpl.
    + split.
      * intros b Hb. cbn [modules cache_result add_effect].
        rewrite dom_insert_L.
        apply not_elem_of_union. split; [|by apply Hs1].
        apply not_elem_of_singleton. by intros ->.
      * exists (T ++ [Call_elaborate_module x]).
        split; [by rewrite ET, app_assoc|done].
    + split; [done|].
      exists (T ++ [Call_elaborate_module x]).
      split; [by rewrite ET, app_assoc|done].
Qed.

End Closed.

(** ** Where a hook call comes from

    [traced P s s']: the cache has only grown, and every call of the
    Module hook between [s] and [s'] is on a Module reached from some
    Module of [P] along Modules that were not in the cache at [s]. *)

Definition step_uncached (s : Elaborator) (a b : nat) : Prop :=
  (a ∉ dom (modules s)) ∧ child a b.

Definition path (s : Elaborator) (x y : nat) : Prop :=
  rtc (step_uncached s) x y ∧ y ∉ dom (modules s).

Definition traced (P : nat → Prop) (s s' : Elaborator) : Prop :=
  dom (modules s) ⊆ dom (modules s') ∧
  ∃ T, effects s' = effects s ++ T ∧
       ∀ y, Call_elaborate_module y ∈ T → ∃ c, P c ∧ path s c y.

Lemma path_mono s s' x y :
  dom (modules s) ⊆ dom (modules s') → path s' x y → path s x y.
Proof.
  intros Hsub [Hrtc Hy]. split; [|set_solver].
  induction Hrtc as [|a b c [Ha Hab] _ IH]; [done|].
  eapply rtc_l; [|by apply IH]. split; [set_solver|done].
Qed.

#[local] Instance traced_preorder P : PreOrder (traced P).
Proof.
  split.
  - intros s. split; [done|]. exists []. rewrite app_nil_r.
    split; [done|]. intros y Hin. by apply elem_of_nil in Hin.
  - intros s1 s2 s3 (D1 & T1 & E1 & Q1) (D2 & T2 & E2 & Q2).
    split; [set_solver|]. exists (T1 ++ T2). split.
    + by rewrite E2, E1, app_assoc.
    + intros y Hin. apply elem_of_app in Hin as [Hin|Hin].
      * by apply Q1.
      * destruct (Q2 y Hin) as (c & Hc & Hp). exists c. split; [done|].
        by apply (path_mono s1 s2).
Qed.

Lemma traced_weaken (P Q : nat → Prop) s s' :
  (∀ c, Q c → P c) → traced Q s s' → traced P s s'.
Proof.
  intros HQP (D & T & E & HT). split; [done|]. exists T. split; [done|].
  intros y Hy. destruct (HT y Hy) as (c & Hc & Hp). exists c. auto.
Qed.

Lemma traced_appends P s s' : traced P s s' → appends s s'.
Proof. intros (_ & T & E & _). by exists T. Qed.

Lemma emit_traced P e :
  (∀ y, e ≠ Call_elaborate_module y) → preserves (traced P) (emit e).
Proof.
  intros He. apply preserves_modify. intros s. split; [done|].
  exists [e]. split; [done|]. intros y Hin.
  apply list_elem_of_singleton in Hin. by destruct (He y).
Qed.

Definition traced_rec (rec : nat → M Elaborator nat) : Prop :=
  ∀ x, preserves (traced (eq x)) (rec x).

Lemma instantiable_traced P rec t :
  traced_rec rec →
  (∀ c, target_module t = Some c → P c) →
  preserves (traced P) (elaborate_instantiable pass rec t).
Proof.
  intros Hrec HP. destruct t as [[c|call|call|g]|]; simpl;
    repeat (first [by apply emit_traced | pres_step]).
  intros s. apply (traced_weaken P (eq c)); [|apply Hrec].
  intros ? <-. by apply HP.
Qed.

Lemma children_traced rec m :
  traced_rec rec →
  preserves (traced (λ c, c ∈ child_modules m)) (elaborate_children pass rec m).
Proof.
  intros Hrec. unfold elaborate_children.
  apply (preserves_bind (traced _)).
  { apply (preserves_for_each (traced _)). intros inst Hinst.
    pres_step; [|pres_step]. unfold elaborate_instance.
    pres_step; [by apply emit_traced|].
    apply instantiable_traced; [done|].
    intros c Hc. unfold child_modules. apply elem_of_app. left.
    apply list_elem_of_omap. by exists inst. }
  intros _. apply (preserves_bind (traced _)).
  { apply (preserves_for_each (traced _)). intros arr Harr.
    pres_step; [|pres_step]. unfold elaborate_instance_array.
    pres_step; [by apply emit_traced|].
    apply instantiable_traced; [done|].
    intros c Hc. unfold child_modules. apply elem_of_app. right.
    apply list_elem_of_omap. by exists arr. }
  intros _. apply (preserves_for_each (traced _)). intros b _.
  by apply emit_traced.
Qed.

Lemma module_base_traced fuel :
  traced_rec (elaborate_module_base graph pass fuel).
Proof.
  induction fuel as [|fuel IH]; intros x.
  - simpl. pres_step.
  - intros s. simpl. unfold emit. monad_unfold.
    destruct (bool_decide (x ∈ dom (modules s))) eqn:Hc; [reflexivity|].
    apply bool_decide_eq_false in Hc.
    destruct (falsy_name _); [reflexivity|].
    pose proof (children_traced _ (graph x) IH s) as Hch.
    assert (∀ y, (∃ c, c ∈ child_modules (graph x) ∧ path s c y) →
                 ∃ c, x = c ∧ path s c y) as Hup.
    { intros y (c & Hc' & [Hrtc Hy]). exists x. split; [done|].
      split; [|done]. eapply rtc_l; [|exact Hrtc]. by split. }
    destruct (elaborate_children _ _ _ s) as [[[]|e] s1].
    + destruct Hch as (D & T & E & HT). cbn [snd] in *.
      assert (∀ y, Call_elaborate_module y ∈ T ++ [Call_elaborate_module x] →
                   ∃ c, x = c ∧ path s c y) as HT'.
      { intros y Hin. apply elem_of_app in Hin as [Hin|Hin].
        - apply Hup. by apply HT.
        - apply list_elem_of_singleton in Hin. injection Hin as ->.
          exists x. split; [done|]. by split. }
      destruct (elaborate_module pass x) as [r|e]; cbn [snd].
      * split.
        { cbn [modules cache_result add_effect]. rewrite dom_insert_L.
          set_solver. }
        exists (T ++ [Call_elaborate_module x]).
        split; [|done]. cbn [effects cache_result add_effect].
        by rewrite E, app_assoc.
      * split; [done|]. exists (T ++ [Call_elaborate_module x]).
        split; [|done]. cbn [effects add_effect]. by rewrite E, app_assoc.
    + destruct Hch as (D & T & E & HT). split; [done|]. exists T.
      split; [done|]. intros y Hy. apply Hup. by apply HT.
Qed.

(** A run on a Module outside the cache does not call the hook on that
    Module while it works through the children. *)
Lemma children_do_not_call_hook fuel x s :
  x ∉ dom (modules s) →
  ∃ T, effects (elaborate_children pass
                  (elaborate_module_base graph pass fuel) (graph x) s).2
         = effects s ++ T ∧
       Call_elaborate_module x ∉ T.
Proof.
  intros Hx.
  pose proof (children_traced _ (graph x) (module_base_traced fuel) s)
    as (D & T & E & HT).
  exists T. split; [done|]. intros Hin.
  destruct (HT x Hin) as (c & Hc & Hcx & _).
  set (B := λ z, (z ∉ dom (modules s)) ∧ rtc (step_uncached s) z x).
  assert (B c) as HBc.
  { split; [|done]. inversion Hcx as [|? ? ? [? _]]; by subst. }
  assert (∀ b, B b → ∃ c', child b c' ∧ B c') as Hclosed.
  { intros b [Hb Hbx]. inversion Hbx as [|? b' ? [_ Hbb'] Hb'x]; subst.
    - exists c. by split.
    - exists b'. split; [done|]. split; [|done].
      inversion Hb'x as [|? ? ? [? _]]; by subst. }
  assert (uncached B s) as Hunc by (by intros b [Hb _]).
  pose proof (children_quiet B _ (graph x)
                (proj1 (module_base_stuck B Hclosed fuel)) s Hunc)
    as (_ & T' & E' & HT').
  rewrite E in E'. apply app_inv_head in E'. subst T'.
  apply (HT' x); [|done]. by split.
Qed.

(** ** The shape of the effects of the three loops *)

(** [T] falls into one group per item, in the order of the items, each
    group opening with the effect that marks its item. *)
Definition headed_groups {A} (head : A → Event) (items : list A)
    (T : list Event) : Prop :=
  ∃ subs : list (list Event),
    length subs = length items ∧
    T = concat (zip_with (λ x sub, head x :: sub) items subs).

(** The children of [m] have been elaborated, in declared order: first
    every Instance, then every InstArray, then every BundleInstance. *)
Definition in_declared_order (m : HdlModule) (T : list Event) : Prop :=
  ∃ Ti Ta,
    T = Ti ++ Ta ++ (SetElaborated_bundle <$> bundles m) ∧
    headed_groups SetElaborated_instance (instances m) Ti ∧
    headed_groups SetElaborated_array (instarrays m) Ta.

Lemma for_each_headed {A} (head : A → Event) (body : A → M Elaborator unit)
    items s :
  (∀ x s0, ∃ T, effects (body x s0).2 = effects s0 ++ head x :: T) →
  (for_each body items s).1 = Ok () →
  ∃ T, effects (for_each body items s).2 = effects s ++ T ∧
       headed_groups head items T.
Proof.
  intros Hbody. revert s. induction items as [|x items IH]; intros s Hok.
  - exists []. split; [by rewrite app_nil_r|]. by exists [].
  - simpl in *. monad_unfold.
    destruct (Hbody x s) as [T1 E1].
    destruct (body x s) as [[[]|e] s1]; [|discriminate]. cbn [snd] in E1.
    destruct (IH s1 Hok) as (T2 & E2 & subs & Hlen & ->).
    exists ((head x :: T1) ++ concat (zip_with (λ y sub, head y :: sub) items subs)).
    split; [by rewrite E2, E1, app_assoc|].
    exists (T1 :: subs). split; [simpl; by rewrite Hlen|done].
Qed.

Lemma for_each_bundles bs s :
  for_each elaborate_bundle_instance bs s =
    (Ok (), {| modules := modules s;
               effects := effects s ++ (SetElaborated_bundle <$> bs) |}).
Proof.
  revert s. induction bs as [|b bs IH]; intros s; simpl.
  - rewrite app_nil_r. by destruct s.
  - change ((elaborate_bundle_instance b ≫=
               λ _, for_each elaborate_bundle_instance bs) s = 
            (Ok (), {| modules := modules s;
               effects := effects s ++ (SetElaborated_bundle <$> b :: bs) |})).
    unfold mbind, M_bind, bind.
    change (elaborate_bundle_instance b s)
      with (Ok (), add_effect (SetElaborated_bundle b) s).
    cbv beta iota. rewrite IH. unfold add_effect. simpl.
    by rewrite <- app_assoc.
Qed.

Lemma children_shape fuel m s :
  (elaborate_children pass (elaborate_module_base graph pass fuel) m s).1
    = Ok () →
  ∃ T, effects (elaborate_children pass
                  (elaborate_module_base graph pass fuel) m s).2
         = effects s ++ T ∧
       in_declared_order m T.
Proof.
  unfold elaborate_children. intros Hok.
  set (rec := elaborate_module_base graph pass fuel) in *.
  assert (∀ t s0, appends s0 (elaborate_instantiable pass rec t s0).2) as Happ.
  { intros t s0. apply (traced_appends (λ _, True)).
    apply instantiable_traced; [apply module_base_traced|done]. }
  set (body_i := λ inst : Instance,
         elaborate_instance pass rec inst ≫= λ _, mret ()) in *.
  set (body_a := λ arr : InstArray,
         elaborate_instance_array pass rec arr ≫= λ _, mret ()) in *.
  assert (∀ x s0, ∃ T, effects (body_i x s0).2 =
                       effects s0 ++ SetElaborated_instance x :: T) as Hi.
  { intros x s0. unfold body_i, elaborate_instance, emit. monad_unfold.
    destruct (Happ (_resolved x) (add_effect (SetElaborated_instance x) s0))
      as [T ET].
    exists T.
    destruct (elaborate_instantiable _ _ _ _) as [[r|e] s1];
      cbn [snd] in *; rewrite ET; simpl; by rewrite <- app_assoc. }
  assert (∀ x s0, ∃ T, effects (body_a x s0).2 =
                       effects s0 ++ SetElaborated_array x :: T) as Ha.
  { intros x s0. unfold body_a, elaborate_instance_array, emit. monad_unfold.
    destruct (Happ (arr_resolved x) (add_effect (SetElaborated_array x) s0))
      as [T ET].
    exists T.
    destruct (elaborate_instantiable _ _ _ _) as [[r|e] s1];
      cbn [snd] in *; rewrite ET; simpl; by rewrite <- app_assoc. }
  pose proof (for_each_headed _ body_i (instances m) s Hi) as Hloop_i.
  monad_unfold.
  destruct (for_each body_i (instances m) s) as [[[]|e] s1]; [|discriminate].
  destruct (Hloop_i eq_refl) as (Ti & Ei & Gi). cbn [snd] in Ei.
  pose proof (for_each_headed _ body_a (instarrays m) s1 Ha) as Hloop_a.
  destruct (for_each body_a (instarrays m) s1) as [[[]|e] s2]; [|discriminate].
  destruct (Hloop_a eq_refl) as (Ta & Ea & Ga). cbn [snd] in Ea.
  rewrite for_each_bundles. cbn [snd effects].
  exists (Ti ++ Ta ++ (SetElaborated_bundle <$> bundles m)).
  split; [by rewrite Ea, Ei, <- !app_assoc|].
  by exists Ti, Ta.
Qed.

(** ** What the elaboration of a child consists of

    The effects of a run that started with the Modules of [D] in the
    cache, told by the target that is elaborated.  [before] holds the
    effects of the run so far: a Module is in the cache when it was there
    at the start or the hook has been called on it since (a hook that
    raises ends the run). *)

Definition elaborated (D : gset nat) (before : list Event) (c : nat) : Prop :=
  c ∈ D ∨ Call_elaborate_module c ∈ before.

(** [target_run D before t T]: elaborating the target [t] after [before]
    has the effects [T].  A primitive or external call is handed to its
    hook.  A Module that has been elaborated is left alone.  Any other
    Module has its Instances elaborated, then its InstArrays, then its
    BundleInstances, and then the Module hook is called on it.
    [instances_run] and [arrays_run] tell the effects of the first two
    loops: each item is marked and its target is elaborated, in the order
    of the items. *)
Inductive target_run (D : gset nat)
    : list Event → option Instantiable → list Event → Prop :=
  | run_primitive before call :
      target_run D before (Some (IPrimitiveCall call))
                 [Call_elaborate_primitive_call call]
  | run_external before call :
      target_run D before (Some (IExternalModuleCall call))
                 [Call_elaborate_external_module call]
  | run_cached before c :
      elaborated D before c →
      target_run D before (Some (IModule c)) []
  | run_module before c Ti Ta :
      ¬ elaborated D before c →
      instances_run D before (instances (graph c)) Ti →
      arrays_run D (before ++ Ti) (instarrays (graph c)) Ta →
      target_run D before (Some (IModule c))
                 (Ti ++ Ta ++ (SetElaborated_bundle <$> bundles (graph c)) ++
                  [Call_elaborate_module c])
with instances_run (D : gset nat)
    : list Event → list Instance → list Event → Prop :=
  | instances_nil before : instances_run D before [] []
  | instances_cons before inst insts T rest :
      target_run D (before ++ [SetElaborated_instance inst])
                 (_resolved inst) T →
      instances_run D (before ++ SetElaborated_instance inst :: T) insts rest →
      instances_run D before (inst :: insts)
                    (SetElaborated_instance inst :: T ++ rest)
with arrays_run (D : gset nat)
    : list Event → list InstArray → list Event → Prop :=
  | arrays_nil before : arrays_run D before [] []
  | arrays_cons before arr arrs T rest :
      target_run D (before ++ [SetElaborated_array arr])
                 (arr_resolved arr) T →
      arrays_run D (before ++ SetElaborated_array arr :: T) arrs rest →
      arrays_run D before (arr :: arrs)
                 (SetElaborated_array arr :: T ++ rest).

(** The children of [m] have been elaborated, each of them completely. *)
Definition children_run (D : gset nat) (m : HdlModule) (T : list Event) : Prop :=
  ∃ Ti Ta,
    T = Ti ++ Ta ++ (SetElaborated_bundle <$> bundles m) ∧
    instances_run D [] (instances m) Ti ∧
    arrays_run D Ti (instarrays m) Ta.

(** The cache of [s] holds the Modules elaborated by [before]. *)
Definition tracks (D : gset nat) (before : list Event) (s : Elaborator) : Prop :=
  ∀ x, x ∈ dom (modules s) ↔ elaborated D before x.

Lemma elaborated_app D before T x :
  elaborated D (before ++ T) x ↔
  elaborated D before x ∨ Call_elaborate_module x ∈ T.
Proof. unfold elaborated. rewrite elem_of_app. tauto. Qed.

Lemma tracks_add_effect D before e s :
  (∀ y, e ≠ Call_elaborate_module y) →
  tracks D before s → tracks D (before ++ [e]) (add_effect e s).
Proof.
  intros He Hs x. cbn [modules add_effect]. rewrite elaborated_app, (Hs x).
  split; [by left|]. intros [H|H]; [done|].
  apply list_elem_of_singleton in H. by destruct (He x).
Qed.

Lemma tracks_add_effects D before es s s' :
  (∀ e y, e ∈ es → e ≠ Call_elaborate_module y) →
  modules s' = modules s →
  tracks D before s → tracks D (before ++ es) s'.
Proof.
  intros He Hm Hs x. rewrite Hm, elaborated_app, (Hs x).
  split; [by left|]. intros [H|H]; [done|]. by destruct (He _ x H).
Qed.

(** What a call of the method on a Module is assumed to do, when the
    dispatch calls it and it returns. *)
Definition runs_as_told (D : gset nat) (rec : nat → M Elaborator nat) : Prop :=
  ∀ c s r s' before,
    tracks D before s → rec c s = (Ok r, s') →
    ∃ T, effects s' = effects s ++ T ∧
         target_run D before (Some (IModule c)) T ∧
         tracks D (before ++ T) s'.

Lemma instantiable_run D rec t s r s' before :
  runs_as_told D rec →
  tracks D before s →
  elaborate_instantiable pass rec t s = (Ok r, s') →
  ∃ T, effects s' = effects s ++ T ∧
       target_run D before t T ∧
       tracks D (before ++ T) s'.
Proof.
  intros Hrec Hs. destruct t as [[c|call|call|g]|]; simpl;
    unfold emit; monad_unfold; try discriminate.
  - destruct (rec c s) as [[r0|e] s0] eqn:Hc; [|discriminate].
    intros [= <- <-]. by apply (Hrec c s r0).
  - destruct (elaborate_primitive_call pass call) as [r0|e]; [|discriminate].
    intros [= <- <-]. exists [Call_elaborate_primitive_call call].
    split; [done|]. split; [constructor|]. by apply tracks_add_effect.
  - destruct (elaborate_external_module pass call) as [r0|e]; [|discriminate].
    intros [= <- <-]. exists [Call_elaborate_external_module call].
    split; [done|]. split; [constructor|]. by apply tracks_add_effect.
Qed.

Lemma instances_loop_run D rec insts s s' before :
  runs_as_told D rec →
  tracks D before s →
  for_each (λ inst, elaborate_instance pass rec inst ≫= λ _, mret ()) insts s
    = (Ok (), s') →
  ∃ T, effects s' = effects s ++ T ∧
       instances_run D before insts T ∧
       tracks D (before ++ T) s'.
Proof.
  intros Hrec. revert s before.
  induction insts as [|inst insts IH]; intros s before Hs Hrun.
  - injection Hrun as <-. exists []. rewrite !app_nil_r.
    split; [done|]. split; [constructor|done].
  - simpl in Hrun. unfold elaborate_instance, emit in Hrun. monad_unfold.
    destruct (elaborate_instantiable pass rec (_resolved inst)
                (add_effect (SetElaborated_instance inst) s))
      as [[r|e] s1] eqn:Ht; [|discriminate].
    assert (tracks D (before ++ [SetElaborated_instance inst])
              (add_effect (SetElaborated_instance inst) s)) as Hs0
      by (by apply tracks_add_effect).
    destruct (instantiable_run D rec _ _ _ _ _ Hrec Hs0 Ht)
      as (T & ET & HT & Hs1).
    rewrite <- app_assoc in Hs1. simpl in Hs1.
    destruct (IH s1 _ Hs1 Hrun) as (rest & Erest & Hrest & Hs').
    exists (SetElaborated_instance inst :: T ++ rest).
    split; [|split].
    + rewrite Erest, ET. cbn [effects add_effect].
      by rewrite <- !app_assoc.
    + by constructor.
    + replace (before ++ SetElaborated_instance inst :: T ++ rest)
        with ((before ++ SetElaborated_instance inst :: T) ++ rest); [done|].
      by rewrite <- app_assoc.
Qed.

Lemma arrays_loop_run D rec arrs s s' before :
  runs_as_told D rec →
  tracks D before s →
  for_each (λ arr, elaborate_instance_array pass rec arr ≫= λ _, mret ())
           arrs s = (Ok (), s') →
  ∃ T, effects s' = effects s ++ T ∧
       arrays_run D before arrs T ∧
       tracks D (before ++ T) s'.
Proof.
  intros Hrec. revert s before.
  induction arrs as [|arr arrs IH]; intros s before Hs Hrun.
  - injection Hrun as <-. exists []. rewrite !app_nil_r.
    split; [done|]. split; [constructor|done].
  - simpl in Hrun. unfold elaborate_instance_array, emit in Hrun.
    monad_unfold.
    destruct (elaborate_instantiable pass rec (arr_resolved arr)
                (add_effect (SetElaborated_array arr) s))
      as [[r|e] s1] eqn:Ht; [|discriminate].
    assert (tracks D (before ++ [SetElaborated_array arr])
              (add_effect (SetElaborated_array arr) s)) as Hs0
      by (by apply tracks_add_effect).
    destruct (instantiable_run D rec _ _ _ _ _ Hrec Hs0 Ht)
      as (T & ET & HT & Hs1).
    rewrite <- app_assoc in Hs1. simpl in Hs1.
    destruct (IH s1 _ Hs1 Hrun) as (rest & Erest & Hrest & Hs').
    exists (SetElaborated_array arr :: T ++ rest).
    split; [|split].
    + rewrite Erest, ET. cbn [effects add_effect].
      by rewrite <- !app_assoc.
    + by constructor.
    + replace (before ++ SetElaborated_array arr :: T ++ rest)
        with ((before ++ SetElaborated_array arr :: T) ++ rest); [done|].
      by rewrite <- app_assoc.
Qed.

(** The three loops, when they return. *)
Lemma children_loops_run D rec m s s' before :
  runs_as_told D rec →
  tracks D before s →
  elaborate_children pass rec m s = (Ok (), s') →
  ∃ Ti Ta,
    effects s' = effects s ++ Ti ++ Ta ++ (SetElaborated_bundle <$> bundles m) ∧
    instances_run D before (instances m) Ti ∧
    arrays_run D (before ++ Ti) (instarrays m) Ta ∧
    tracks D (before ++ Ti ++ Ta ++ (SetElaborated_bundle <$> bundles m)) s'.
Proof.
  intros Hrec Hs. unfold elaborate_children. monad_unfold.
  destruct (for_each _ (instances m) s) as [[[]|e] s1] eqn:Hi; [|discriminate].
  destruct (instances_loop_run D rec _ _ _ before Hrec Hs Hi)
    as (Ti & Ei & Hruni & Hs1).
  destruct (for_each _ (instarrays m) s1) as [[[]|e] s2] eqn:Ha;
    [|discriminate].
  destruct (arrays_loop_run D rec _ _ _ (before ++ Ti) Hrec Hs1 Ha)
    as (Ta & Ea & Hruna & Hs2).
  rewrite for_each_bundles. intros [= <-].
  exists Ti, Ta. cbn [effects]. split; [|split; [done|split; [done|]]].
  - by rewrite Ea, Ei, <- !app_assoc.
  - replace (before ++ Ti ++ Ta ++ (SetElaborated_bundle <$> bundles m))
      with (((before ++ Ti) ++ Ta) ++ (SetElaborated_bundle <$> bundles m))
      by (by rewrite <- !app_assoc).
    apply (tracks_add_effects D _ _ s2); [|done|done].
    intros e y He ->. apply list_elem_of_fmap in He as (b & Hb & _).
    discriminate.
Qed.

Lemma module_base_runs_as_told D fuel :
  runs_as_told D (elaborate_module_base graph pass fuel).
Proof.
  induction fuel as [|fuel IH]; intros c s r s' before Hs; [discriminate|].
  simpl. unfold emit. monad_unfold.
  destruct (bool_decide (c ∈ dom (modules s))) eqn:Hc.
  - apply bool_decide_eq_true in Hc. intros [= <- <-].
    exists []. rewrite !app_nil_r. split; [done|]. split; [|done].
    constructor. by apply Hs.
  - apply bool_decide_eq_false in Hc.
    destruct (falsy_name _); [discriminate|].
    destruct (elaborate_children _ _ _ s) as [[[]|e] s1] eqn:Hch;
      [|discriminate].
    destruct (children_loops_run D _ _ _ _ before IH Hs Hch)
      as (Ti & Ta & E1 & Hruni & Hruna & Hs1).
    destruct (elaborate_module pass c) as [r0|e]; [|discriminate].
    intros [= <- <-].
    exists (Ti ++ Ta ++ (SetElaborated_bundle <$> bundles (graph c)) ++
            [Call_elaborate_module c]).
    split; [|split].
    + cbn [effects cache_result add_effect]. by rewrite E1, <- !app_assoc.
    + constructor; [|done|done]. intros He. apply Hc. by apply Hs.
    + intros x. cbn [modules cache_result add_effect].
      rewrite dom_insert_L, elem_of_union, elem_of_singleton.
      replace (before ++ Ti ++ Ta ++
                 (SetElaborated_bundle <$> bundles (graph c)) ++
                 [Call_elaborate_module c])
        with ((before ++ Ti ++ Ta ++
                 (SetElaborated_bundle <$> bundles (graph c))) ++
              [Call_elaborate_module c])
        by (by rewrite <- !app_assoc).
      rewrite elaborated_app, (Hs1 x), list_elem_of_singleton.
      split.
      * intros [->|H]; [by right|by left].
      * intros [H|H]; [by right|]. injection H as ->. by left.
Qed.

(** C7: when [elaborate_module_base] runs on a Module [m] that is not in
    the cache, the hook [elaborate_module(m)] is called at most once, as
    the last effect of the run, and everything before it is the complete
    elaboration of the children of [m] in declared order: every Instance,
    then every InstArray, then every BundleInstance, where an Instance or
    InstArray is marked and then its target elaborated (a primitive or
    external call by its hook, a Module not yet elaborated by its own
    children and then its hook).  A run that does not get that far raises
    and has not called the hook on [m]. *)
Theorem hook_runs_after_children (fuel : nat) (m : nat) (self : Elaborator) :
  m ∉ dom (modules self) →
  let run := elaborate_module_base graph pass fuel m self in
  ∃ new, effects run.2 = effects self ++ new ∧
    (((Call_elaborate_module m ∉ new) ∧ is_Err run.1) ∨
     ∃ T, new = T ++ [Call_elaborate_module m] ∧
          (Call_elaborate_module m ∉ T) ∧
          in_declared_order (graph m) T ∧
          children_run (dom (modules self)) (graph m) T).
Proof.
  intros Hm. destruct fuel as [|fuel]; simpl.
  { exists []. split; [by rewrite app_nil_r|]. left.
    split; [|done]. intros Hin. by apply elem_of_nil in Hin. }
  unfold emit. monad_unfold.
  rewrite bool_decide_eq_false_2 by done.
  destruct (falsy_name _).
  { exists []. split; [by rewrite app_nil_r|]. left.
    split; [|done]. intros Hin. by apply elem_of_nil in Hin. }
  destruct (children_do_not_call_hook fuel m self Hm) as (T & ET & HT).
  pose proof (children_shape fuel (graph m) self) as Hshape.
  assert (tracks (dom (modules self)) [] self) as Hs.
  { intros x. unfold elaborated. split; [by left|].
    intros [H|H]; [done|]. by apply elem_of_nil in H. }
  pose proof (children_loops_run (dom (modules self))
                (elaborate_module_base graph pass fuel) (graph m) self) as Hrun.
  destruct (elaborate_children _ _ _ self) as [[[]|e] s1]; cbn [fst snd] in *.
  - destruct (Hshape eq_refl) as (T' & ET' & Hord).
    rewrite ET in ET'. apply app_inv_head in ET'. subst T'.
    destruct (Hrun s1 [] (module_base_runs_as_told _ fuel) Hs eq_refl)
      as (Ti & Ta & E1 & Hruni & Hruna & _).
    rewrite ET in E1. apply app_inv_head in E1. subst T.
    exists ((Ti ++ Ta ++ (SetElaborated_bundle <$> bundles (graph m))) ++
            [Call_elaborate_module m]). split.
    + destruct (elaborate_module pass m); cbn; rewrite ET;
        by rewrite <- !app_assoc.
    + right. eexists. split; [done|]. split; [done|]. split; [done|].
      by exists Ti, Ta.
  - exists T. split; [done|]. left. by split.
Qed.

(** ** Enough recursion depth

    In a hierarchy (a graph with a rank that falls from a Module to its
    child Modules) a recursion limit above the rank of a Module has no
    bearing on what [elaborate_module_base] does on it. *)
Section Ranked.

Variable rank : nat → nat.
Hypothesis rank_falls : ∀ p c, child p c → (rank c < rank p)%nat.

Lemma elaborate_instantiable_ext rec rec' t s :
  (∀ c s, t = Some (IModule c) → rec c s = rec' c s) →
  elaborate_instantiable pass rec t s = elaborate_instantiable pass rec' t s.
Proof.
  intros Hrec. destruct t as [[c| | |]|]; try done.
  simpl. monad_unfold. by rewrite Hrec.
Qed.

Lemma elaborate_children_ext rec rec' m s :
  (∀ c s, c ∈ child_modules m → rec c s = rec' c s) →
  elaborate_children pass rec m s = elaborate_children pass rec' m s.
Proof.
  intros Hrec. unfold elaborate_children. monad_unfold.
  rewrite (for_each_ext _
             (λ inst, elaborate_instance pass rec' inst ≫= λ _, mret ())).
  2:{ intros inst s0 Hinst. unfold elaborate_instance, emit. monad_unfold.
      rewrite (elaborate_instantiable_ext rec rec'); [done|].
      intros c s1 Hc. apply Hrec. unfold child_modules.
      apply elem_of_app. left. apply list_elem_of_omap.
      exists inst. split; [done|]. by rewrite Hc. }
  monad_unfold.
  destruct (for_each _ (instances m) s) as [[[]|e] s1]; [|done].
  rewrite (for_each_ext _
             (λ arr, elaborate_instance_array pass rec' arr ≫= λ _, mret ())).
  2:{ intros arr s0 Harr. unfold elaborate_instance_array, emit. monad_unfold.
      rewrite (elaborate_instantiable_ext rec rec'); [done|].
      intros c s2 Hc. apply Hrec. unfold child_modules.
      apply elem_of_app. right. apply list_elem_of_omap.
      exists arr. split; [done|]. by rewrite Hc. }
  done.
Qed.

Lemma elaborate_module_base_fuel_stable n n' x s :
  (rank x < n)%nat → (rank x < n')%nat →
  elaborate_module_base graph pass n x s =
  elaborate_module_base graph pass n' x s.
Proof.
  revert n' x s. induction n as [|n IH]; intros [|n'] x s Hn Hn'; try lia.
  simpl. monad_unfold.
  destruct (bool_decide _); [done|].
  destruct (falsy_name _); [done|].
  rewrite (elaborate_children_ext _ (elaborate_module_base graph pass n'));
    [done|].
  intros c s0 Hc. apply IH; specialize (rank_falls x c Hc); lia.
Qed.

End Ranked.

End ElabTraversal.

(** * The order of an export *)

Section ProtoTraversal.
Import Primitives Proto.

Variable int_fits : Z → bool.
Variable graph : Graph.

(** [parent] holds an Instance of the Module [c]. *)
Definition instantiates (parent c : nat) : Prop :=
  c ∈ module_targets (instances (graph parent)).

(** ** Steps that leave the Module tables alone *)

Definition same_modules (s s' : ProtoExporter) : Prop :=
  modules s' = modules s ∧ module_names s' = module_names s ∧
  pkg_modules (pkg s') = pkg_modules (pkg s) ∧
  pkg_name (pkg s') = pkg_name (pkg s).

#[local] Instance same_modules_preorder : PreOrder same_modules.
Proof.
  split.
  - by intros s.
  - intros s1 s2 s3 (?&?&?&?) (?&?&?&?). repeat split; congruence.
Qed.

Lemma export_external_module_same emod :
  preserves same_modules (export_external_module emod).
Proof.
  intros s. unfold export_external_module. monad_unfold.
  destruct (ext_modules s !! emod_id emod); done.
Qed.

Lemma export_module_name_state module s :
  (export_module_name graph module s).2 = s.
Proof.
  unfold export_module_name. monad_unfold.
  destruct (name (graph module)); [|done].
  by destruct (module_names s !! _).
Qed.

(** [export_instance] is a call of the method on a Module target, around
    steps that leave the Module tables alone. *)
Lemma export_instance_preserves (Rel : ProtoExporter → ProtoExporter → Prop)
    `{!PreOrder Rel} rec inst :
  (∀ s s', same_modules s s' → Rel s s') →
  (∀ c, _resolved inst = Some (IModule c) → preserves Rel (rec c)) →
  preserves Rel (export_instance int_fits rec inst).
Proof.
  intros Hsame Hrec. unfold export_instance.
  destruct (_resolved inst) as [[c|call|call|g]|]; repeat pres_step.
  - by apply Hrec.
  - intros s. apply Hsame. apply export_external_module_same.
Qed.

Lemma export_instances_preserves (Rel : ProtoExporter → ProtoExporter → Prop)
    `{!PreOrder Rel} rec module insts :
  (∀ s s', same_modules s s' → Rel s s') →
  (∀ c, c ∈ module_targets insts → preserves Rel (rec c)) →
  preserves Rel (export_instances int_fits rec module insts).
Proof.
  intros Hsame Hrec. unfold export_instances.
  apply (preserves_map_m Rel). intros inst Hinst.
  destruct (_resolved inst) as [t|] eqn:Ht; [|pres_step].
  apply (export_instance_preserves Rel); [done|].
  intros c Hc. apply Hrec. unfold module_targets.
  apply list_elem_of_omap. exists inst. split; [done|]. by rewrite Hc.
Qed.

(** ** [export_module], one level unfolded *)

(** The serialized Module that [export_module] builds. *)
Definition serialized (x : nat) (qname : QualifiedName)
    (pinsts : list PInstance) : PModule :=
  {| pmod_name := qname;
     pmod_ports := export_port <$> ports (graph x);
     pmod_signals := (λ sg, {| psig_name := sig_name sg;
                               psig_width := sig_width sg |})
                     <$> signals (graph x);
     pmod_instances := pinsts |}.

Lemma export_module_unfold fuel x s :
  export_module int_fits graph (S fuel) x s =
  match modules s !! x with
  | Some pmod => (Ok pmod, s)
  | None =>
      if bool_decide (interfaces (graph x) ≠ []) then
        (Err (Raise RuntimeError
                    (ModuleWithInterfaces x (interfaces (graph x)))), s)
      else
        match (export_module_name graph x s).1 with
        | Err e => (Err e, s)
        | Ok qname =>
            match export_instances int_fits (export_module int_fits graph fuel) x
                                   (instances (graph x)) s with
            | (Err e, s1) => (Err e, s1)
            | (Ok pinsts, s1) =>
                (Ok (serialized x qname pinsts),
                 store_module x qname (serialized x qname pinsts) s1)
            end
        end
  end.
Proof.
  simpl. monad_unfold.
  destruct (modules s !! x); [done|].
  destruct (bool_decide _); [done|].
  pose proof (export_module_name_state x s) as Hn.
  destruct (export_module_name graph x s) as [[qname|e] s0];
    cbn [fst snd] in *; subst s0; [|done].
  by destruct (export_instances int_fits _ _ _ s) as [[pinsts|e] s1].
Qed.

(** ** Modules that cannot be finished *)

Section Closed.

Variable B : nat → Prop.
Hypothesis B_closed : ∀ b, B b → ∃ c, instantiates b c ∧ B c.

Definition unexported (s : ProtoExporter) : Prop :=
  ∀ b, B b → modules s !! b = None.

Definition keeps_out (s s' : ProtoExporter) : Prop :=
  unexported s → unexported s'.

#[local] Instance keeps_out_preorder : PreOrder keeps_out.
Proof.
  split.
  - intros s H. exact H.
  - intros s1 s2 s3 H1 H2 H. by apply H2, H1.
Qed.

Lemma same_modules_keeps_out s s' : same_modules s s' → keeps_out s s'.
Proof. intros (E & _) H b Hb. rewrite E. by apply H. Qed.

Definition export_stuck (rec : nat → M ProtoExporter PModule) : Prop :=
  (∀ x, preserves keeps_out (rec x)) ∧
  (∀ x s, B x → unexported s → is_Err (rec x s).1).

Lemma export_instances_keeps_out rec x insts :
  (∀ c, preserves keeps_out (rec c)) →
  preserves keeps_out (export_instances int_fits rec x insts).
Proof.
  intros Hrec. apply (export_instances_preserves keeps_out).
  - apply same_modules_keeps_out.
  - intros c _. apply Hrec.
Qed.

Lemma export_instances_stuck rec x insts s :
  export_stuck rec →
  (∃ c, c ∈ module_targets insts ∧ B c) →
  unexported s →
  is_Err (export_instances int_fits rec x insts s).1.
Proof.
  intros [Hk Hfail] (c & Hin & Hc) Hs.
  apply list_elem_of_omap in Hin as (inst & Hinst & Ht).
  unfold export_instances.
  apply (map_m_fails unexported _ _ inst); [done| | |done].
  - intros y s0 _ Hs0.
    destruct (_resolved y) as [t|] eqn:Hy; [|done].
    revert Hs0. apply (export_instance_preserves keeps_out);
      [apply same_modules_keeps_out|]. intros c' _. apply Hk.
  - intros s0 Hs0.
    destruct (_resolved inst) as [[c'| | |]|] eqn:Hr; simplify_eq/=.
    unfold export_instance. rewrite Hr. monad_unfold.
    specialize (Hfail c s0 Hc Hs0).
    by destruct (rec c s0) as [[pm|e] s1].
Qed.

Lemma export_module_stuck fuel : export_stuck (export_module int_fits graph fuel).
Proof.
  induction fuel as [|fuel IH].
  - split; [intros x; simpl; pres_step|]. by intros x s _ _.
  - assert (∀ x s, B x → unexported s →
              is_Err (export_module int_fits graph (S fuel) x s).1) as Hfail.
    { intros x s Hx Hs. rewrite export_module_unfold, (Hs x Hx).
      destruct (bool_decide _); [done|].
      destruct (export_module_name graph x s).1; [|done].
      pose proof (export_instances_stuck _ x (instances (graph x)) s IH
                    (B_closed x Hx) Hs) as He.
      by destruct (export_instances int_fits _ _ _ s) as [[pinsts|e] s1]. }
    split; [|exact Hfail].
    intros x s. rewrite export_module_unfold.
    destruct (modules s !! x) as [pmod|] eqn:Hcached; [reflexivity|].
    destruct (bool_decide _); [reflexivity|].
    destruct (export_module_name graph x s).1 as [qname|e]; [|reflexivity].
    pose proof (export_instances_preserves keeps_out (export_module int_fits graph fuel)
                  x (instances (graph x)) same_modules_keeps_out
                  (λ c _, proj1 IH c) s) as Hl.
    destruct (export_instances int_fits _ _ _ s) as [[pinsts|e] s1] eqn:Hrun;
      [|exact Hl].
    intros Hs b Hb. cbn [snd modules store_module].
    rewrite lookup_insert_ne; [by apply Hl|].
    intros <-.
    pose proof (export_instances_stuck _ x (instances (graph x)) s IH
                  (B_closed x Hb) Hs) as He.
    by rewrite Hrun in He.
Qed.

End Closed.

(** ** Where a cache entry comes from *)

Definition step_unexported (s : ProtoExporter) (a b : nat) : Prop :=
  (a ∉ dom (modules s)) ∧ instantiates a b.

Definition export_path (s : ProtoExporter) (x y : nat) : Prop :=
  rtc (step_unexported s) x y ∧ y ∉ dom (modules s).

Definition reached (P : nat → Prop) (s s' : ProtoExporter) : Prop :=
  dom (modules s) ⊆ dom (modules s') ∧
  ∀ y, y ∈ dom (modules s') → y ∉ dom (modules s) →
       ∃ c, P c ∧ export_path s c y.

Lemma export_path_mono s s' x y :
  dom (modules s) ⊆ dom (modules s') → export_path s' x y → export_path s x y.
Proof.
  intros Hsub [Hrtc Hy]. split; [|set_solver].
  induction Hrtc as [|a b c [Ha Hab] _ IH]; [done|].
  eapply rtc_l; [|by apply IH]. split; [set_solver|done].
Qed.

#[local] Instance reached_preorder P : PreOrder (reached P).
Proof.
  split.
  - intros s. split; [done|]. intros y Hy Hn. done.
  - intros s1 s2 s3 (D1 & Q1) (D2 & Q2). split; [set_solver|].
    intros y Hy3 Hy1.
    destruct (decide (y ∈ dom (modules s2))) as [Hy2|Hy2].
    + by apply Q1.
    + destruct (Q2 y Hy3 Hy2) as (c & Hc & Hp). exists c. split; [done|].
      by apply (export_path_mono s1 s2).
Qed.

Lemma same_modules_reached P s s' : same_modules s s' → reached P s s'.
Proof.
  intros (E & _). split; [by rewrite E|].
  intros y Hy Hn. by rewrite E in Hy.
Qed.

Lemma reached_weaken (P Q : nat → Prop) s s' :
  (∀ c, Q c → P c) → reached Q s s' → reached P s s'.
Proof.
  intros HQP (D & HT). split; [done|].
  intros y Hy Hn. destruct (HT y Hy Hn) as (c & Hc & Hp). exists c. auto.
Qed.

Lemma export_instances_reached rec x insts :
  (∀ c, preserves (reached (eq c)) (rec c)) →
  preserves (reached (λ c, c ∈ module_targets insts))
            (export_instances int_fits rec x insts).
Proof.
  intros Hrec.
  apply (export_instances_preserves (reached _)).
  - apply same_modules_reached.
  - intros c Hc s. apply (reached_weaken _ (eq c)); [|apply Hrec].
    by intros ? <-.
Qed.

Lemma export_module_reached fuel x :
  preserves (reached (eq x)) (export_module int_fits graph fuel x).
Proof.
  revert x. induction fuel as [|fuel IH]; intros x; [simpl; pres_step|].
  intros s. rewrite export_module_unfold.
  destruct (modules s !! x) as [pmod|] eqn:Hcached; [reflexivity|].
  apply not_elem_of_dom in Hcached.
  destruct (bool_decide _); [reflexivity|].
  destruct (export_module_name graph x s).1 as [qname|e]; [|reflexivity].
  pose proof (export_instances_reached _ x (instances (graph x)) IH s)
    as [D Hl].
  assert (∀ y, (∃ c, c ∈ module_targets (instances (graph x)) ∧
                     export_path s c y) →
               ∃ c, x = c ∧ export_path s c y) as Hup.
  { intros y (c & Hc & [Hrtc Hy]). exists x. split; [done|].
    split; [|done]. eapply rtc_l; [|exact Hrtc]. by split. }
  destruct (export_instances int_fits _ _ _ s) as [[pinsts|e] s1]; cbn [snd] in *.
  - split.
    + cbn [modules store_module]. rewrite dom_insert_L. set_solver.
    + intros y Hy Hn. cbn [modules store_module] in Hy.
      rewrite dom_insert_L in Hy. apply elem_of_union in Hy as [Hy|Hy].
      * apply elem_of_singleton in Hy as ->. exists x. split; [done|].
        by split.
      * apply Hup. by apply Hl.
  - split; [done|]. intros y Hy Hn. apply Hup. by apply Hl.
Qed.

(** While [export_module] works through the Instances of a Module that is
    not in the cache, that Module does not enter the cache. *)
Lemma instances_do_not_export_parent fuel x s :
  modules s !! x = None →
  modules (export_instances int_fits (export_module int_fits graph fuel) x
                            (instances (graph x)) s).2 !! x = None.
Proof.
  intros Hx.
  pose proof (export_instances_reached _ x (instances (graph x))
                (export_module_reached fuel) s) as [D Hl].
  set (s1 := (export_instances int_fits (export_module int_fits graph fuel) x
                               (instances (graph x)) s).2) in *.
  destruct (modules s1 !! x) as [pm|] eqn:Hpm; [exfalso|done].
  assert (x ∉ dom (modules s)) as Hxd by (by apply not_elem_of_dom).
  destruct (Hl x) as (c & Hc & Hcx & _); [by apply elem_of_dom; eauto|done|].
  set (B := λ z, (z ∉ dom (modules s)) ∧ rtc (step_unexported s) z x).
  assert (B c) as HBc.
  { split; [|done]. inversion Hcx as [|? ? ? [? _]]; by subst. }
  assert (∀ b, B b → ∃ c', instantiates b c' ∧ B c') as Hclosed.
  { intros b [Hb Hbx]. inversion Hbx as [|? b' ? [_ Hbb'] Hb'x]; subst.
    - exists c. by split.
    - exists b'. split; [done|]. split; [|done].
      inversion Hb'x as [|? ? ? [? _]]; by subst. }
  assert (unexported B s) as Hunc.
  { intros b [Hb _]. by apply not_elem_of_dom. }
  pose proof (export_instances_keeps_out B
                (export_module int_fits graph fuel) x (instances (graph x))
                (proj1 (export_module_stuck B Hclosed fuel)) s Hunc)
    as Hout.
  fold s1 in Hout. rewrite (Hout x) in Hpm; [done|]. by split.
Qed.

(** ** What a finished call leaves in the cache *)

Lemma export_module_Ok_cached fuel x s pmod :
  (export_module int_fits graph fuel x s).1 = Ok pmod →
  modules (export_module int_fits graph fuel x s).2 !! x = Some pmod.
Proof.
  destruct fuel as [|fuel]; [discriminate|].
  rewrite export_module_unfold.
  destruct (modules s !! x) as [pm|] eqn:Hx; [by intros [= <-]|].
  destruct (bool_decide _); [discriminate|].
  destruct (export_module_name graph x s).1 as [qname|e]; [|discriminate].
  destruct (export_instances int_fits _ _ _ s) as [[pinsts|e] s1]; [|discriminate].
  intros [= <-]. cbn [snd modules store_module]. apply lookup_insert_eq.
Qed.

Definition dom_grows (s s' : ProtoExporter) : Prop :=
  dom (modules s) ⊆ dom (modules s').

#[local] Instance dom_grows_preorder : PreOrder dom_grows.
Proof.
  split.
  - intros s. unfold dom_grows. set_solver.
  - intros s1 s2 s3 H1 H2. unfold dom_grows in *. set_solver.
Qed.

Lemma export_module_dom_grows fuel x :
  preserves dom_grows (export_module int_fits graph fuel x).
Proof. intros s. apply (export_module_reached fuel x s). Qed.

Lemma export_instance_dom_grows fuel inst :
  preserves dom_grows (export_instance int_fits (export_module int_fits graph fuel) inst).
Proof.
  apply (export_instance_preserves dom_grows).
  - intros s s' (E & _). unfold dom_grows. by rewrite E.
  - intros c _. apply export_module_dom_grows.
Qed.

(** After the loop over the Instances has returned, every Module among
    their targets is in the cache. *)
Lemma export_instances_Ok_cached fuel x insts s pinsts s1 :
  export_instances int_fits (export_module int_fits graph fuel) x insts s = (Ok pinsts, s1) →
  ∀ c, c ∈ module_targets insts → c ∈ dom (modules s1).
Proof.
  intros Hrun c Hc.
  apply list_elem_of_omap in Hc as (inst & Hinst & Ht).
  destruct (_resolved inst) as [[c'| | |]|] eqn:Hr; try discriminate Ht.
  injection Ht as ->.
  unfold export_instances in Hrun.
  refine (map_m_Ok_post
            (λ i s0, ∀ c, _resolved i = Some (IModule c) → c ∈ dom (modules s0))
            _ insts s pinsts s1 Hrun _ _ inst Hinst c Hr).
  - intros i s0 y s2 _ Hi c' Hc'. rewrite Hc' in Hi.
    unfold export_instance in Hi. rewrite Hc' in Hi. monad_unfold.
    pose proof (export_module_Ok_cached fuel c' s0) as Hcached.
    destruct (export_module int_fits graph fuel c' s0) as [[pm|e] s3];
      [|discriminate].
    specialize (Hcached pm eq_refl). cbn [snd] in Hcached.
    destruct (export_conns (conns i) ∅); [|discriminate].
    injection Hi as _ <-. apply elem_of_dom. eauto.
  - intros i y s0 _ Hi c' Hc'.
    assert (dom_grows s0
              (match _resolved y with
               | Some _ => export_instance int_fits (export_module int_fits graph fuel) y
               | None => throw RuntimeError
                               (UnresolvedInstance (inst_name y) x)
               end s0).2) as Hg.
    { destruct (_resolved y); [apply export_instance_dom_grows|reflexivity]. }
    apply Hg. by apply Hi.
Qed.

(** ** The package lists the cache in the order of completion *)

(** [order] lists the Modules exported so far, each once, in the order of
    the package: the [i]-th entry of the package is the serialization of
    the [i]-th Module of [order], it bears that Module's qualified name,
    and every Module that a listed Module instantiates is listed before
    it. *)
Record export_inv (order : list nat) (s : ProtoExporter) : Prop := {
  inv_nodup : NoDup order;
  inv_dom : ∀ m, m ∈ order ↔ is_Some (modules s !! m);
  inv_pkg : Forall2 (λ m pmod, modules s !! m = Some pmod)
                    order (pkg_modules (pkg s));
  inv_names : ∀ m pmod, modules s !! m = Some pmod →
      ∃ n, name (graph m) = Some n ∧
           pmod_name pmod =
             {| domain := pkg_name (pkg s);
                qn_name := _pymodule (graph m) +:+ "." +:+ n |};
  inv_children : ∀ i p c, order !! i = Some p → instantiates p c →
      ∃ j, (j < i)%nat ∧ order !! j = Some c }.

Definition extends (s s' : ProtoExporter) : Prop :=
  pkg_name (pkg s') = pkg_name (pkg s) ∧
  ∀ order, export_inv order s → ∃ suffix, export_inv (order ++ suffix) s'.

#[local] Instance extends_preorder : PreOrder extends.
Proof.
  split.
  - intros s. split; [done|]. intros order H. exists []. by rewrite app_nil_r.
  - intros s1 s2 s3 [N1 H1] [N2 H2]. split; [congruence|].
    intros order H. destruct (H1 order H) as [suf1 H'].
    destruct (H2 _ H') as [suf2 H'']. exists (suf1 ++ suf2).
    by rewrite app_assoc.
Qed.

Lemma same_modules_extends s s' : same_modules s s' → extends s s'.
Proof.
  intros (Em & En & Ep & Ek). split; [done|].
  intros order [H1 H2 H3 H4 H5]. exists []. rewrite app_nil_r.
  split; [done| | | |done].
  - intros m. by rewrite Em.
  - rewrite Em, Ep. done.
  - intros m pmod. rewrite Em, Ek. apply H4.
Qed.

Lemma export_module_name_Ok x s qname :
  (export_module_name graph x s).1 = Ok qname →
  ∃ n, name (graph x) = Some n ∧
       qname = {| domain := pkg_name (pkg s);
                  qn_name := _pymodule (graph x) +:+ "." +:+ n |}.
Proof.
  unfold export_module_name. monad_unfold.
  destruct (name (graph x)) as [n|]; [|discriminate].
  destruct (module_names s !! _); [discriminate|].
  intros [= <-]. by exists n.
Qed.

Lemma export_module_extends fuel x :
  preserves extends (export_module int_fits graph fuel x).
Proof.
  revert x. induction fuel as [|fuel IH]; intros x; [simpl; pres_step|].
  intros s. rewrite export_module_unfold.
  destruct (modules s !! x) as [pm|] eqn:Hx; [reflexivity|].
  destruct (bool_decide _); [reflexivity|].
  destruct (export_module_name graph x s).1 as [qname|e] eqn:Hq;
    [|reflexivity].
  apply export_module_name_Ok in Hq as (n & Hn & Hqname).
  pose proof (export_instances_preserves extends (export_module int_fits graph fuel) x
                (instances (graph x)) same_modules_extends (λ c _, IH c) s)
    as Hl.
  pose proof (instances_do_not_export_parent fuel x s Hx) as Hself.
  pose proof (export_instances_Ok_cached fuel x (instances (graph x)) s)
    as Hkids.
  destruct (export_instances int_fits _ _ _ s) as [[pinsts|e] s1]; [|exact Hl].
  cbn [snd] in *. specialize (Hkids pinsts s1 eq_refl).
  destruct Hl as [Hname Hl]. split; [done|].
  intros order Hinv. destruct (Hl order Hinv) as [suf [H1 H2 H3 H4 H5]].
  exists (suf ++ [x]). rewrite app_assoc.
  assert (x ∉ order ++ suf) as Hfresh.
  { rewrite H2, Hself. by intros [? ?]. }
  split.
  - apply NoDup_app. split; [done|]. split; [|apply NoDup_singleton].
    intros m Hm Hmx. apply list_elem_of_singleton in Hmx as ->. done.
  - intros m. cbn [modules store_module].
    rewrite elem_of_app, list_elem_of_singleton, H2.
    destruct (decide (m = x)) as [->|Hne].
    + rewrite lookup_insert_eq. split; [eauto|]. by right.
    + rewrite lookup_insert_ne by done. split; [intros [?|?]; done|by left].
  - cbn [modules store_module pkg set_pkg_modules pkg_modules].
    apply Forall2_app.
    + eapply Forall2_impl; [exact H3|]. intros m pm Hm. cbn beta in *.
      rewrite lookup_insert_ne; [done|]. intros <-. by rewrite Hself in Hm.
    + constructor; [|constructor]. apply lookup_insert_eq.
  - intros m pmod. cbn [modules store_module pkg set_pkg_modules pkg_name].
    destruct (decide (m = x)) as [->|Hne].
    + rewrite lookup_insert_eq. intros [= <-]. exists n. split; [done|].
      cbn [pmod_name serialized]. by rewrite Hname.
    + rewrite lookup_insert_ne by done. apply H4.
  - intros i p c Hi Hpc.
    destruct (decide (i < length (order ++ suf))%nat) as [Hlt|Hge].
    + rewrite lookup_app_l in Hi by done.
      destruct (H5 i p c Hi Hpc) as (j & Hj & Hjc). exists j.
      split; [done|]. rewrite lookup_app_l; [done|lia].
    + rewrite lookup_app_r in Hi by lia.
      apply list_lookup_singleton_Some in Hi as [Hi <-].
      assert (c ∈ order ++ suf) as Hc.
      { apply H2. apply elem_of_dom. by apply Hkids. }
      apply list_elem_of_lookup in Hc as [j Hj]. exists j.
      pose proof (lookup_lt_Some _ _ _ Hj). split; [lia|].
      by rewrite lookup_app_l.
Qed.

Lemma init_export_inv domain : export_inv [] (ProtoExporter_init domain).
Proof.
  split.
  - constructor.
  - intros m. simpl. rewrite lookup_empty. split.
    + intros H. by apply elem_of_nil in H.
    + by intros [? ?].
  - constructor.
  - intros m pmod. simpl. by rewrite lookup_empty.
  - intros i p c Hi. by rewrite lookup_nil in Hi.
Qed.

(** Children come before every Module that holds them, however deep. *)
Lemma export_inv_transitive order s i p c :
  export_inv order s →
  order !! i = Some p → tc instantiates p c →
  ∃ j, (j < i)%nat ∧ order !! j = Some c.
Proof.
  intros Hinv Hi Hpc. revert i Hi.
  induction Hpc as [p c Hpc|p q c Hpq _ IH]; intros i Hi.
  - by apply (inv_children _ _ Hinv i p c).
  - destruct (inv_children _ _ Hinv i p q Hi Hpq) as (k & Hk & Hkq).
    destruct (IH k Hkq) as (j & Hj & Hjc). exists j. split; [lia|done].
Qed.

(** C2: in the package that an export returns, every Module that a
    Module of the package holds an Instance of, directly or through other
    Modules, stands at a strictly earlier index than that Module.  The
    indices are those of [order], which lists without repetition the
    Module each entry of the package was serialized from. *)
Theorem children_before_parents (fuel : nat) (tops : list nat)
    (domain : option string) (package : Package) (s' : ProtoExporter) :
  run_export int_fits graph fuel tops domain = (Ok package, s') →
  ∃ order : list nat,
    NoDup order ∧
    Forall2 (λ m pmod,
               modules s' !! m = Some pmod ∧
               ∃ n, name (graph m) = Some n ∧
                    pmod_name pmod =
                      {| domain := default "" domain;
                         qn_name := _pymodule (graph m) +:+ "." +:+ n |})
            order (pkg_modules package) ∧
    (∀ top, top ∈ tops → top ∈ order) ∧
    ∀ i parent c,
      order !! i = Some parent → tc instantiates parent c →
      ∃ j, (j < i)%nat ∧ order !! j = Some c.
Proof.
  unfold run_export, export. intros Hrun. monad_unfold.
  set (body := λ m : nat,
         λ s : ProtoExporter,
           match export_module int_fits graph fuel m s with
           | (Ok _, s1) => (Ok (), s1)
           | (Err e, s1) => (Err e, s1)
           end) in *.
  assert (∀ m, preserves extends (body m)) as Hbody.
  { intros m s. unfold body.
    pose proof (export_module_extends fuel m s) as H.
    by destruct (export_module int_fits graph fuel m s) as [[pm|e] s1]. }
  pose proof (preserves_for_each extends body tops (λ m _, Hbody m)
                (ProtoExporter_init domain)) as [Hname Hext].
  destruct (Hext [] (init_export_inv domain)) as [order Hinv].
  assert (∀ top, top ∈ tops →
            top ∈ dom (modules (for_each body tops
                                  (ProtoExporter_init domain)).2)) as Htops.
  { rewrite for_each_map_m.
    destruct (map_m body tops (ProtoExporter_init domain))
      as [[ys|e] s1] eqn:Hmap.
    2:{ rewrite for_each_map_m, Hmap in Hrun. discriminate. }
    cbn [snd].
    apply (map_m_Ok_post (λ m s, m ∈ dom (modules s)) body tops _ ys s1 Hmap).
    - intros m s0 [] s2 _ Hm. unfold body in Hm.
      pose proof (export_module_Ok_cached fuel m s0) as Hc.
      destruct (export_module int_fits graph fuel m s0) as [[pm|e] s3];
        [|discriminate].
      injection Hm as <-. apply elem_of_dom. specialize (Hc pm eq_refl).
      cbn [snd] in Hc. rewrite Hc. eauto.
    - intros m y s0 _ Hm. unfold body.
      pose proof (export_module_dom_grows fuel y s0) as Hg.
      destruct (export_module int_fits graph fuel y s0) as [[pm|e] s3]; by apply Hg. }
  destruct (for_each body tops (ProtoExporter_init domain))
    as [[[]|e] s1]; [|discriminate].
  injection Hrun as <- <-. cbn [snd] in *.
  exists order. simpl in Hinv. destruct Hinv as [H1 H2 H3 H4 H5].
  split; [done|]. split; [|split].
  - eapply Forall2_impl; [exact H3|]. intros m pm Hm. cbn beta in *.
    split; [done|]. destruct (H4 m pm Hm) as (n & Hn & Hq).
    exists n. split; [done|]. rewrite Hq, Hname. done.
  - intros top Htop. apply H2. apply elem_of_dom. by apply Htops.
  - intros i parent c Hi Hpc.
    by apply (export_inv_transitive order s1 i parent c).
Qed.

(** ** Exporting a Module again, and name collisions *)

(** A Module in the cache is answered from the cache, and nothing is
    written. *)
Lemma export_module_cached fuel x s pmod :
  modules s !! x = Some pmod →
  export_module int_fits graph (S fuel) x s = (Ok pmod, s).
Proof. intros Hx. by rewrite export_module_unfold, Hx. Qed.

(** Exporting the same Module object a second time returns the same
    serialized Module and raises nothing. *)
Lemma export_same_module_twice fuel fuel' x s pmod :
  (export_module int_fits graph fuel x s).1 = Ok pmod →
  export_module int_fits graph (S fuel') x (export_module int_fits graph fuel x s).2 =
    (Ok pmod, (export_module int_fits graph fuel x s).2).
Proof. intros Hok. apply export_module_cached. by apply export_module_Ok_cached. Qed.

(** The name of every Module in the cache is taken. *)
Definition names_recorded (s : ProtoExporter) : Prop :=
  ∀ m pmod, modules s !! m = Some pmod →
    is_Some (module_names s !! (domain (pmod_name pmod),
                                qn_name (pmod_name pmod))).

Definition records_names (s s' : ProtoExporter) : Prop :=
  names_recorded s → names_recorded s'.

#[local] Instance records_names_preorder : PreOrder records_names.
Proof.
  split.
  - intros s H. exact H.
  - intros s1 s2 s3 H1 H2 H. by apply H2, H1.
Qed.

Lemma export_module_records_names fuel x :
  preserves records_names (export_module int_fits graph fuel x).
Proof.
  revert x. induction fuel as [|fuel IH]; intros x; [simpl; pres_step|].
  intros s. rewrite export_module_unfold.
  destruct (modules s !! x) as [pm|] eqn:Hx; [reflexivity|].
  destruct (bool_decide _); [reflexivity|].
  destruct (export_module_name graph x s).1 as [qname|e]; [|reflexivity].
  assert (∀ s s', same_modules s s' → records_names s s') as Hsame.
  { intros s0 s0' (Em & En & _) H m pm. rewrite Em, En. apply H. }
  pose proof (export_instances_preserves records_names
                (export_module int_fits graph fuel) x (instances (graph x))
                Hsame (λ c _, IH c) s) as Hl.
  destruct (export_instances int_fits _ _ _ s) as [[pinsts|e] s1]; [|exact Hl].
  intros Hs m pm. cbn [snd modules module_names store_module].
  destruct (decide (m = x)) as [->|Hne].
  - rewrite lookup_insert_eq. intros [= <-]. rewrite lookup_insert_eq. eauto.
  - rewrite lookup_insert_ne by done. intros Hm.
    destruct (Hl Hs m pm Hm) as [pm' Hpm'].
    rewrite lookup_insert. case_decide; eauto.
Qed.

(** After a Module has been exported, exporting a different Module object
    that computes the same qualified name (and has no interfaces) raises
    the collision error and writes nothing. *)
Lemma later_module_with_taken_name_collides fuel order s m1 m2 n1 n2 :
  export_inv order s → names_recorded s →
  m1 ∈ order → m2 ∉ order →
  name (graph m1) = Some n1 → name (graph m2) = Some n2 →
  _pymodule (graph m1) +:+ "." +:+ n1 = _pymodule (graph m2) +:+ "." +:+ n2 →
  interfaces (graph m2) = [] →
  export_module int_fits graph (S fuel) m2 s =
    (Err (Raise RuntimeError
            (ConflictingName m2 (pkg_name (pkg s),
                                 _pymodule (graph m2) +:+ "." +:+ n2))), s).
Proof.
  intros Hinv Hrec H1 H2 Hn1 Hn2 Hsame Hif.
  rewrite export_module_unfold.
  destruct (modules s !! m2) as [pm2|] eqn:Hm2.
  { destruct H2. apply (inv_dom _ _ Hinv). eauto. }
  rewrite Hif. rewrite bool_decide_eq_false_2 by (by intros H).
  apply (inv_dom _ _ Hinv) in H1 as [pm1 Hpm1].
  destruct (inv_names _ _ Hinv m1 pm1 Hpm1) as (n & Hn & Hq).
  rewrite Hn1 in Hn. injection Hn as <-.
  destruct (Hrec m1 pm1 Hpm1) as [pm Hpm]. rewrite Hq in Hpm. simpl in Hpm.
  unfold export_module_name. rewrite Hn2. monad_unfold. cbn [domain qn_name].
  rewrite <- Hsame, Hpm. simpl. by rewrite Hsame.
Qed.

(** ** Enough recursion depth

    In a hierarchy (a graph with a rank that falls from a Module to the
    Modules it instantiates) the depth of the recursion is bounded by the
    rank: once the limit exceeds it, the limit has no bearing on what
    [export_module] returns or writes. *)
Section Ranked.

Variable rank : nat → nat.
Hypothesis rank_falls : ∀ p c, instantiates p c → (rank c < rank p)%nat.

Lemma export_instance_ext rec rec' inst s :
  (∀ c s, _resolved inst = Some (IModule c) → rec c s = rec' c s) →
  export_instance int_fits rec inst s = export_instance int_fits rec' inst s.
Proof.
  intros Hrec. unfold export_instance.
  destruct (_resolved inst) as [[c| | |]|]; try done.
  monad_unfold. by rewrite Hrec.
Qed.

Lemma export_module_fuel_stable n n' x s :
  (rank x < n)%nat → (rank x < n')%nat →
  export_module int_fits graph n x s = export_module int_fits graph n' x s.
Proof.
  revert n' x s. induction n as [|n IH]; intros [|n'] x s Hn Hn'; try lia.
  rewrite !export_module_unfold.
  destruct (modules s !! x); [done|].
  destruct (bool_decide _); [done|].
  destruct (export_module_name graph x s).1; [|done].
  unfold export_instances.
  rewrite (map_m_ext _
             (λ inst, match _resolved inst with
                      | Some _ => export_instance int_fits (export_module int_fits graph n') inst
                      | None => throw RuntimeError
                                      (UnresolvedInstance (inst_name inst) x)
                      end)); [done|].
  intros inst s0 Hinst. destruct (_resolved inst) as [t|] eqn:Ht; [|done].
  apply export_instance_ext. intros c s1 Hc.
  assert (rank c < rank x)%nat.
  { apply rank_falls. unfold instantiates, module_targets.
    apply list_elem_of_omap. exists inst. split; [done|]. by rewrite Hc. }
  apply IH; lia.
Qed.

End Ranked.

End ProtoTraversal.

(** * The theorems at concrete inputs *)

Section Concrete.
Import Primitives Examples.

Lemma hook_runs_after_children_witness :
  let run := Elab.elaborate_module_base mixed_children_graph Elab.base_pass
               10 0 Elab.Elaborator_init in
  ∃ new, Elab.effects run.2 = Elab.effects Elab.Elaborator_init ++ new ∧
    (((Elab.Call_elaborate_module 0 ∉ new) ∧ is_Err run.1) ∨
     ∃ T, new = T ++ [Elab.Call_elaborate_module 0] ∧
          (Elab.Call_elaborate_module 0 ∉ T) ∧
          in_declared_order (mixed_children_graph 0%nat) T ∧
          children_run mixed_children_graph
            (dom (Elab.modules Elab.Elaborator_init))
            (mixed_children_graph 0%nat) T).
Proof.
  apply (hook_runs_after_children mixed_children_graph Elab.base_pass
           10 0 Elab.Elaborator_init).
  simpl. rewrite dom_empty_L. apply not_elem_of_empty.
Defined.

(** The run of that example, spelled out: the Instance, then the array
    and the Module it points to, then the bundle, then the hook. *)
Example mixed_children_effects :
  Elab.effects
    (Elab.elaborate_module_base mixed_children_graph Elab.base_pass
       10 0 Elab.Elaborator_init).2 =
  [Elab.SetElaborated_instance resistor_inst;
   Elab.Call_elaborate_primitive_call resistor_call;
   Elab.SetElaborated_array {| arr_name := "arr"; arr_n := 4;
                               arr_resolved := Some (IModule 1);
                               arr_conns := [] |};
   Elab.Call_elaborate_module 1;
   Elab.SetElaborated_bundle {| bundle_name := "bus" |};
   Elab.Call_elaborate_module 0].
Proof. vm_compute. reflexivity. Qed.

Lemma children_before_parents_witness :
  ∃ order : list nat,
    NoDup order ∧
    Forall2 (λ m pmod,
               Proto.modules diamond_run.2 !! m = Some pmod ∧
               ∃ n, name (diamond_graph m) = Some n ∧
                    Proto.pmod_name pmod =
                      {| Proto.domain := default "" None;
                         Proto.qn_name :=
                           _pymodule (diamond_graph m) +:+ "." +:+ n |})
            order (Proto.pkg_modules diamond_package) ∧
    (∀ top, top ∈ [0%nat] → top ∈ order) ∧
    ∀ i parent c,
      order !! i = Some parent → tc (instantiates diamond_graph) parent c →
      ∃ j, (j < i)%nat ∧ order !! j = Some c.
Proof.
  apply (children_before_parents int64_fits diamond_graph 10 [0%nat] None
           diamond_package diamond_run.2).
  vm_compute. reflexivity.
Defined.

(** The diamond's package: the bottom, then the middle, then the top. *)
Example diamond_package_names :
  Proto.qn_name ∘ Proto.pmod_name <$> Proto.pkg_modules diamond_package =
  ["lib.bottom"; "lib.mid"; "lib.top"].
Proof. vm_compute. reflexivity. Qed.

(** C3, at an input where the code departs from it: Module [0] holds an
    Instance of the distinct Module [1], and both compute the qualified
    name [("", "lib.m")].  The export raises nothing: the name of [0] is
    recorded only after its Instances are exported, so the check made for
    [1] finds the name free, and the package ends up with two Modules of
    one name. *)
Theorem nested_name_collision_goes_unnoticed :
  match (Proto.run_export int64_fits same_name_graph 10 [0%nat] None).1 with
  | Ok package =>
      Proto.pmod_name <$> Proto.pkg_modules package =
        [{| Proto.domain := ""; Proto.qn_name := "lib.m" |};
         {| Proto.domain := ""; Proto.qn_name := "lib.m" |}]
  | Err _ => False
  end.
Proof. vm_compute. reflexivity. Qed.

End Concrete.

(** * More on loops *)

(** When a loop has returned, each round returned, in a state that the
    start reaches and that reaches the end. *)
Lemma map_m_Ok_Forall2 {S A B} (Rel : S → S → Prop) `{!PreOrder Rel}
    (f : A → M S B) xs s ys s' :
  (∀ x s0, x ∈ xs → Rel s0 (f x s0).2) →
  map_m f xs s = (Ok ys, s') →
  Forall2 (λ x y, ∃ s0 s1, Rel s s0 ∧ f x s0 = (Ok y, s1) ∧ Rel s1 s') xs ys.
Proof.
  revert s ys. induction xs as [|x xs IH]; intros s ys Hrel Hrun.
  - simpl in Hrun. injection Hrun as <- <-. constructor.
  - simpl in Hrun. monad_unfold.
    destruct (f x s) as [[y|e] s1] eqn:Hx; [|discriminate].
    destruct (map_m f xs s1) as [[ys'|e] s2] eqn:Hrest; [|discriminate].
    injection Hrun as <- <-.
    assert (Rel s s1) as H01.
    { specialize (Hrel x s (list_elem_of_here _ _)). by rewrite Hx in Hrel. }
    assert (Rel s1 s2) as H12.
    { pose proof (preserves_map_m Rel f xs) as Hp.
      assert (Rel s1 (map_m f xs s1).2) as H.
      { apply Hp. intros z Hz s0. apply Hrel. by right. }
      by rewrite Hrest in H. }
    constructor.
    + exists s, s1. split; [reflexivity|]. by split.
    + eapply Forall2_impl.
      * apply (IH s1 ys'); [|done]. intros z s0 Hz. apply Hrel. by right.
      * intros z y' (s0 & s3 & H0 & Hz & H3). exists s0, s3.
        split; [by etrans|]. by split.
Qed.

Lemma for_each_Ok_post {S A} (Q : A → S → Prop) (body : A → M S unit)
    xs s s' :
  for_each body xs s = (Ok (), s') →
  (∀ x s0 s1, x ∈ xs → body x s0 = (Ok (), s1) → Q x s1) →
  (∀ x y s0, y ∈ xs → Q x s0 → Q x (body y s0).2) →
  ∀ x, x ∈ xs → Q x s'.
Proof.
  intros Hrun Hest Hkeep. rewrite for_each_map_m in Hrun.
  destruct (map_m body xs s) as [[ys|e] s2] eqn:Hmap; [|discriminate].
  injection Hrun as <-.
  apply (map_m_Ok_post Q body xs s ys s2 Hmap); [|done].
  intros x s0 [] s1. apply Hest.
Qed.

(** The elements from which a cycle of [R] can be reached have a
    successor of the same kind. *)
Definition reaches_cycle {A} (R : relation A) (b : A) : Prop :=
  ∃ m, rtc R b m ∧ tc R m m.

Lemma reaches_cycle_closed {A} (R : relation A) (b : A) :
  reaches_cycle R b → ∃ c, R b c ∧ reaches_cycle R c.
Proof.
  intros (m & Hbm & Hmm).
  destruct Hbm as [b|b c m Hbc Hcm].
  - inversion Hmm as [? ? Hstep|? c ? Hstep Hrest]; subst.
    + exists b. split; [done|]. exists b. split; [apply rtc_refl|done].
    + exists c. split; [done|]. exists b. split; [by apply tc_rtc|done].
  - exists c. split; [done|]. by exists m.
Qed.

(** * More on [MosParams]: the value checks *)

Section MosParamsChecks.
Import Primitives.

(** X1: the value checks of [MosParams] ([__post_init_post_parse__]) return
    exactly on an object with width and length set and positive and with
    positive finger counts.  They raise [TypeError] exactly when they reach
    an unset size (the width, or the length behind a positive width), and
    [ValueError] in every other failing case; so they return on no object
    with an unset width or length. *)
Theorem MosParams_value_checks (self : MosParams) :
  (MosParams_post_init self = Ok tt ↔
     (∃ wz lz, w self = Some wz ∧ l self = Some lz ∧ 0 < wz ∧ 0 < lz) ∧
     0 < npar self ∧ 0 < nser self) ∧
  (raises (MosParams_post_init self) TypeError ↔
     w self = None ∨ (∃ wz, w self = Some wz ∧ 0 < wz ∧ l self = None)) ∧
  (is_Err (MosParams_post_init self) ↔
     raises (MosParams_post_init self) TypeError ∨
     raises (MosParams_post_init self) ValueError) ∧
  (w self = None ∨ l self = None → is_Err (MosParams_post_init self)).
Proof.
  split; [apply MosParams_post_init_Ok|].
  split; [apply MosParams_post_init_TypeError|].
  split.
  - split.
    + destruct (MosParams_post_init self) as [[]|[[] msg]] eqn:E; simpl;
        try done; try (by left); try (by right);
        intros _; exfalso; revert E;
        unfold MosParams_post_init, opt_le_0;
        destruct (w self) as [wz|]; try discriminate;
        case_bool_decide; try discriminate;
        destruct (l self) as [lz|]; simpl; try discriminate;
        repeat (case_bool_decide; try discriminate).
    + intros [H|H]; by destruct (MosParams_post_init self).
  - intros H.
    destruct (MosParams_post_init self) as [[]|e] eqn:E; [|done].
    apply MosParams_post_init_Ok in E as [(wz & lz & Hw & Hl & _) _].
    destruct H; congruence.
Qed.

End MosParamsChecks.

(** * More on the ASAP7 walker: the cache of calls *)

Section Asap7Cache.
Import Primitives Asap7.

Variable table : list ((MosType * VthKey) * ExternalModule).
Variable super_visit_instance : Instance → M Asap7Walker Instance.

(** A cached call stays, as it is. *)
Definition cache_keeps (s s' : Asap7Walker) : Prop :=
  ∀ p c, dict_get p (mos_modcalls s) = Some c →
         dict_get p (mos_modcalls s') = Some c.

#[local] Instance cache_keeps_preorder : PreOrder cache_keeps.
Proof.
  split.
  - intros s p c H. exact H.
  - intros s1 s2 s3 H1 H2 p c H. by apply H2, H1.
Qed.





(** Every cached call is the table's module for the type and threshold of
    its key, on the key's fields without [vth]. *)
Definition cache_exact (s : Asap7Walker) : Prop :=
  ∀ p c, dict_get p (mos_modcalls s) = Some c →
    ∃ emod, dict_get (tp p, KVth (vth p)) table = Some emod ∧
            c = ExternalModule_call emod
                  (dict_pop "vth" (asdict (MosParamsObj p))).

Lemma init_cache_exact : cache_exact Asap7Walker_init.
Proof. intros p c. simpl. discriminate. Qed.

Lemma mos_module_call_exact p s :
  cache_exact s → cache_exact (mos_module_call table p s).2.
Proof.
  intros Hs. unfold mos_module_call, mos_module. monad_unfold.
  destruct (dict_get p (mos_modcalls s)) as [c|] eqn:Hp; [exact Hs|].
  destruct (dict_get (tp p, KVth (vth p)) table) as [emod|] eqn:Ht;
    [|exact Hs].
  intros q c. cbn [snd mos_modcalls]. rewrite dict_get_set.
  destruct (decide (q = p)) as [->|_]; [|apply Hs].
  intros [= <-]. by exists emod.
Qed.

Lemma visit_instance_lowers_mos (s : Asap7Walker) (inst : Instance)
    (pc : PrimitiveCall) (p : MosParams) (emod : ExternalModule) :
  cache_exact s →
  _resolved inst = Some (IPrimitiveCall pc) →
  prim_ident (prim pc) = prim_ident Mos →
  params pc = MosParamsObj p →
  dict_get (tp p, KVth (vth p)) table = Some emod →
  (visit_instance table super_visit_instance inst s).1 =
    Ok {| inst_name := inst_name inst;
          _resolved := Some (IExternalModuleCall
            {| call_module := emod;
               call_params :=
                 [("w", opt_int (w p)); ("l", opt_int (l p));
                  ("nser", PyInt (nser p)); ("npar", PyInt (npar p));
                  ("tp", PyEnum "MosType" (MosType_name (tp p)))] |});
          conns := conns inst |} ∧
  cache_exact (visit_instance table super_visit_instance inst s).2.
Proof.
  intros Hs Hres Hmos Hpar Ht.
  unfold visit_instance. rewrite Hres. unfold replace_primitive.
  rewrite bool_decide_eq_true_2 by done. rewrite Hpar.
  pose proof (mos_module_call_exact p s Hs) as Hs'.
  unfold mos_module_call, mos_module in *. monad_unfold.
  destruct (dict_get p (mos_modcalls s)) as [c|] eqn:Hp.
  - destruct (Hs p c Hp) as (emod' & Ht' & ->).
    rewrite Ht in Ht'. injection Ht' as <-. split; [done|exact Hs].
  - rewrite Ht in *. split; [done|exact Hs'].
Qed.

(** X4: Lowering an Instance of [Mos] whose type and threshold the table
    knows: the target becomes a call of the table's module, with the
    width, length, finger counts and type of the parameters; the threshold
    is not passed on.  The name and the connections stay. *)
Theorem lowered_mos_instance (s : Asap7Walker) (inst : Instance)
    (pc : PrimitiveCall) (p : MosParams) (emod : ExternalModule) :
  cache_exact s →
  _resolved inst = Some (IPrimitiveCall pc) →
  prim_ident (prim pc) = prim_ident Mos →
  params pc = MosParamsObj p →
  dict_get (tp p, KVth (vth p)) table = Some emod →
  (visit_instance table super_visit_instance inst s).1 =
    Ok {| inst_name := inst_name inst;
          _resolved := Some (IExternalModuleCall
            {| call_module := emod;
               call_params :=
                 [("w", opt_int (w p)); ("l", opt_int (l p));
                  ("nser", PyInt (nser p)); ("npar", PyInt (npar p));
                  ("tp", PyEnum "MosType" (MosType_name (tp p)))] |});
          conns := conns inst |} ∧
  cache_exact (visit_instance table super_visit_instance inst s).2.
Proof. exact (visit_instance_lowers_mos s inst pc p emod). Qed.

End Asap7Cache.

(** ** The table that the module-level loop fills *)

Section Asap7Loop.
Import Primitives Asap7.

Lemma dict_get_foldl_set {K V} `{EqDecision K} (k : K) (es : list (K * V)) d :
  (is_Some (dict_get k (foldl (λ d kv, dict_set kv.1 kv.2 d) d es)) ↔
     is_Some (dict_get k d) ∨ k ∈ es.*1) ∧
  (∀ v, dict_get k (foldl (λ d kv, dict_set kv.1 kv.2 d) d es) = Some v →
        dict_get k d = Some v ∨ (k, v) ∈ es).
Proof.
  revert d. induction es as [|[k0 v0] es IH]; intros d; simpl.
  - split; [|by left]. split; [by left|]. intros [H|H]; [done|].
    by apply elem_of_nil in H.
  - destruct (IH (dict_set k0 v0 d)) as [IH1 IH2]. split.
    + rewrite IH1, dict_get_set, elem_of_cons.
      destruct (decide (k = k0)) as [->|Hne]; simpl.
      * split; [by right; left|by left; eexists].
      * tauto.
    + intros v Hv. destruct (IH2 v Hv) as [H|H].
      * rewrite dict_get_set in H.
        destruct (decide (k = k0)) as [->|Hne]; [|by left].
        injection H as ->. right. by left.
      * right. by right.
Qed.

Variable typenames : list (MosType * string).
Variable vtnames : list (VthKey * string).

(** The keys of the table are the pairs of a key of each dictionary, and
    the module under a key is named after the enum member of the type
    (not after its type name) and the name of the threshold. *)
Lemma mos_table_lookup (t : MosType) (vt : VthKey) :
  (is_Some (dict_get (t, vt) (mos_table typenames vtnames)) ↔
     t ∈ typenames.*1 ∧ vt ∈ vtnames.*1) ∧
  ∀ emod, dict_get (t, vt) (mos_table typenames vtnames) = Some emod →
    ∃ vtname, (vt, vtname) ∈ vtnames ∧
      emod_domain emod = "asap7" ∧
      emod_name emod = str_MosType t +:+ "mos" +:+ vtname ∧
      emod_desc emod = "ASAP7 PDK Mos " +:+ emod_name emod ∧
      emod_port_list emod = port_list Mos.
Proof.
  unfold mos_table.
  destruct (dict_get_foldl_set (t, vt) (mos_table_entries typenames vtnames) [])
    as [H1 H2].
  split.
  - rewrite H1. unfold mos_table_entries. split.
    + intros [[? H]|H]; [discriminate|].
      apply list_elem_of_fmap in H as ([k emod] & Hk & H). simpl in Hk. subst k.
      apply elem_of_lookup_imap in H as (i & [[t' tn] [vt' vn]] & Heq & Hi).
      injection Heq as -> -> _.
      apply list_elem_of_lookup_2 in Hi.
      apply list_elem_of_bind in Hi as ([t0 tn0] & Hi & Ht).
      apply list_elem_of_bind in Hi as ([vt0 vn0] & Hi & Hvt).
      apply list_elem_of_singleton in Hi. injection Hi as -> -> -> ->.
      split; apply list_elem_of_fmap; [by exists (t0, tn0)|by exists (vt0, vn0)].
    + intros [Ht Hvt]. right.
      apply list_elem_of_fmap in Ht as ([t0 tn0] & Ht0 & Ht). simpl in Ht0.
      apply list_elem_of_fmap in Hvt as ([vt0 vn0] & Hvt0 & Hvt).
      simpl in Hvt0. subst t0 vt0.
      assert (((t, tn0), (vt, vn0)) ∈
                (tpe ← typenames; vte ← vtnames; [(tpe, vte)])) as Hin.
      { apply list_elem_of_bind. exists (t, tn0). split; [|done].
        apply list_elem_of_bind. exists (vt, vn0). split; [|done].
        by apply list_elem_of_singleton. }
      apply list_elem_of_lookup in Hin as [i Hi].
      apply list_elem_of_fmap.
      pose proof (elem_of_lookup_imap_2
                    (λ i '(tpe, vte),
                       let modname := str_MosType tpe.1 +:+ "mos" +:+ vte.2 in
                       ((tpe.1, vte.1),
                        {| emod_id := i; emod_domain := "asap7";
                           emod_name := modname;
                           emod_desc := "ASAP7 PDK Mos " +:+ modname;
                           emod_port_list := port_list Mos |}))
                    _ _ i Hi) as Hentry.
      eexists. split; [|exact Hentry]. done.
  - intros emod Hget. destruct (H2 emod Hget) as [H|H]; [discriminate|].
    unfold mos_table_entries in H.
    apply elem_of_lookup_imap in H as (i & [[t' tn] [vt' vn]] & Heq & Hi).
    injection Heq as -> -> ->.
    apply list_elem_of_lookup_2 in Hi.
    apply list_elem_of_bind in Hi as ([t0 tn0] & Hi & Ht).
    apply list_elem_of_bind in Hi as ([vt0 vn0] & Hi & Hvt).
    apply list_elem_of_singleton in Hi. injection Hi as -> -> -> ->.
    exists vn0. by repeat split.
Qed.

(** X5: with the table that the module-level loop of [asap7.py] fills from
    a dictionary of types and a dictionary of thresholds, lowering an
    Instance of [Mos] whose type and threshold are keys of these succeeds:
    it yields a call of a module of the ["asap7"] domain with the ports of
    [Mos], named [f"{tp}mos{vtname}"] after the enum member of the type and
    the name of the threshold, and the call carries [tp] and no [vth]. *)
Theorem loop_table_lowers_mos (super : Instance → M Asap7Walker Instance)
    (s : Asap7Walker) (inst : Instance) (pc : PrimitiveCall) (p : MosParams) :
  cache_exact (mos_table typenames vtnames) s →
  _resolved inst = Some (IPrimitiveCall pc) →
  prim_ident (prim pc) = prim_ident Mos →
  params pc = MosParamsObj p →
  tp p ∈ typenames.*1 →
  KVth (vth p) ∈ vtnames.*1 →
  ∃ call vtname,
    (visit_instance (mos_table typenames vtnames) super inst s).1 =
      Ok {| inst_name := inst_name inst;
            _resolved := Some (IExternalModuleCall call);
            conns := conns inst |} ∧
    (KVth (vth p), vtname) ∈ vtnames ∧
    emod_domain (call_module call) = "asap7" ∧
    emod_name (call_module call) = str_MosType (tp p) +:+ "mos" +:+ vtname ∧
    emod_port_list (call_module call) = port_list Mos ∧
    dict_get "vth" (call_params call) = None ∧
    dict_get "tp" (call_params call) =
      Some (PyEnum "MosType" (MosType_name (tp p))).
Proof.
  intros Hs Hres Hmos Hpar Ht Hvt.
  destruct (mos_table_lookup (tp p) (KVth (vth p))) as [Hsome Hentry].
  destruct (proj2 Hsome (conj Ht Hvt)) as [emod Hget].
  destruct (Hentry emod Hget) as (vtname & Hin & Hdom & Hname & _ & Hports).
  destruct (visit_instance_lowers_mos _ super s inst pc p emod
              Hs Hres Hmos Hpar Hget) as [Hrun _].
  eexists _, vtname. split; [exact Hrun|]. cbn [call_module call_params].
  by repeat split.
Qed.

End Asap7Loop.

Section Asap7Composed.
Import Primitives Asap7 Proto Examples.


Lemma lowered_mos_instance_witness :
  (visit_instance rvt_table visit_nothing nmos_inst Asap7Walker_init).1 =
    Ok {| inst_name := "m1";
          _resolved := Some (IExternalModuleCall
            {| call_module :=
                 {| emod_id := 0; emod_domain := "asap7";
                    emod_name := "MosType.NMOSmos_rvt";
                    emod_desc := "ASAP7 PDK Mos MosType.NMOSmos_rvt";
                    emod_port_list := port_list Mos |};
               call_params :=
                 [("w", PyInt 1); ("l", PyInt 1);
                  ("nser", PyInt 1); ("npar", PyInt 1);
                  ("tp", PyEnum "MosType" "NMOS")] |});
          conns := [] |} ∧
  cache_exact rvt_table
    (visit_instance rvt_table visit_nothing nmos_inst Asap7Walker_init).2.
Proof.
  apply (lowered_mos_instance rvt_table visit_nothing Asap7Walker_init
           nmos_inst nmos_call nmos_params).
  - apply init_cache_exact.
  - reflexivity.
  - reflexivity.
  - reflexivity.
  - reflexivity.
Defined.

Lemma loop_table_lowers_mos_witness :
  ∃ call vtname,
    (visit_instance rvt_table visit_nothing nmos_inst Asap7Walker_init).1 =
      Ok {| inst_name := "m1";
            _resolved := Some (IExternalModuleCall call);
            conns := [] |} ∧
    (KVth STD, vtname) ∈ [(KVth STD, "_rvt"); (KStr "SLVT", "_slvt");
                          (KStr "SRAM", "_sram")] ∧
    emod_domain (call_module call) = "asap7" ∧
    emod_name (call_module call) = str_MosType NMOS +:+ "mos" +:+ vtname ∧
    emod_port_list (call_module call) = port_list Mos ∧
    dict_get "vth" (call_params call) = None ∧
    dict_get "tp" (call_params call) = Some (PyEnum "MosType" "NMOS").
Proof.
  apply (loop_table_lowers_mos _mos_typenames
           [(KVth STD, "_rvt"); (KStr "SLVT", "_slvt"); (KStr "SRAM", "_sram")]
           visit_nothing Asap7Walker_init nmos_inst nmos_call nmos_params).
  - apply init_cache_exact.
  - reflexivity.
  - reflexivity.
  - reflexivity.
  - by left.
  - by left.
Defined.

End Asap7Composed.

(** * More on [flatname]: when it fails, and when it cannot *)

Section FlatnameMore.
Import Flatname.

Lemma underscores_inj name j k :
  underscores name j = underscores name k → j = k.
Proof.
  intros H. apply (f_equal String.length) in H.
  rewrite !underscores_length in H. lia.
Qed.

(** X6: [flatname] raises exactly when every candidate that fits in [maxlen]
    is a key of [avoid]; in particular when the joined segments alone are
    longer than [maxlen], avoided or not. *)
Theorem flatname_fails_iff (segments : list string)
    (avoid : option (gset string)) (maxlen : Z) :
  is_Err (flatname segments avoid maxlen) ↔
  ∀ k : nat,
    Z.of_nat (String.length (underscores (join "_" segments) k)) ≤ maxlen →
    underscores (join "_" segments) k ∈ default ∅ avoid.
Proof.
  unfold flatname.
  destruct (flatname_loop_spec segments (default ∅ avoid) maxlen
              (join "_" segments)) as (k & Hbefore & [(Hlen & Hfree & ->)|(Hlen & ->)]).
  - split; [intros []|]. intros Hall. by apply Hfree, Hall.
  - split; [|done]. intros _ j Hj. apply Hbefore.
    rewrite underscores_length in *. lia.
Qed.

(** X7: The number of underscores that can be appended before a free name is
    found is at most the number of avoided keys: so [flatname] returns a
    name whenever [maxlen] leaves room for that many. *)
Theorem flatname_succeeds_with_room (segments : list string)
    (avoid : gset string) (maxlen : Z) :
  Z.of_nat (String.length (join "_" segments)) + Z.of_nat (size avoid)
    ≤ maxlen →
  ∃ k : nat, (k ≤ size avoid)%nat ∧
    flatname segments (Some avoid) maxlen =
      Ok (underscores (join "_" segments) k).
Proof.
  intros Hroom. unfold flatname. simpl.
  destruct (flatname_loop_spec segments avoid maxlen (join "_" segments))
    as (k & Hbefore & Hat).
  assert (k ≤ size avoid)%nat as Hk.
  { set (cands := underscores (join "_" segments) <$> seq 0 k).
    assert (NoDup cands) as Hnd.
    { apply NoDup_fmap_2; [|apply NoDup_seq].
      intros i j. apply underscores_inj. }
    assert (cands ⊆+ elements avoid) as Hsub.
    { apply NoDup_submseteq; [done|]. intros x Hx.
      apply list_elem_of_fmap in Hx as (j & -> & Hj).
      apply elem_of_seq in Hj. apply elem_of_elements.
      apply Hbefore. lia. }
    apply submseteq_length in Hsub.
    unfold cands in Hsub. rewrite length_fmap, length_seq in Hsub.
    done. }
  exists k. split; [done|].
  destruct Hat as [(_ & _ & ->)|(Hlen & _)]; [done|].
  rewrite underscores_length in Hlen. lia.
Qed.

Lemma flatname_succeeds_with_room_witness :
  ∃ k : nat, (k ≤ size ({["a_b"; "a_b_"]} : gset string))%nat ∧
    flatname ["a"; "b"] (Some {["a_b"; "a_b_"]}) 5 =
      Ok (underscores (join "_" ["a"; "b"]) k).
Proof.
  apply (flatname_succeeds_with_room ["a"; "b"] {["a_b"; "a_b_"]} 5).
  vm_compute. discriminate.
Defined.

End FlatnameMore.

(** * More on the exporter: what cannot be exported *)

Section ProtoRejects.
Import Primitives Proto.

Variable int_fits : Z → bool.

(** The fields of a [MosParams] object that the parameter loop meets
    before it reaches [tp]. *)
Definition mos_int_fields (p : MosParams) : list (string * PyVal) :=
  [("w", opt_int (w p)); ("l", opt_int (l p));
   ("nser", PyInt (nser p)); ("npar", PyInt (npar p))].

(** The exception that ends the parameter loop on the fields of a
    [MosParams] object, for the Instance named [inst]: [ValueError] at the
    first of [w], [l], [nser], [npar] that is beyond the range of the
    integer field, and otherwise [TypeError] at the enum-valued [tp]. *)
Definition mos_param_error (inst : string) (p : MosParams) : PyErr :=
  match first_unwritable int_fits (mos_int_fields p) with
  | Some kv => Raise ValueError (ValueOutOfRange (int_value kv.2))
  | None => Raise TypeError (InvalidInstanceParameter "tp" inst)
  end.

(** X8: an Instance of a primitive on [MosParams] cannot be exported.  The
    loop over the parameters raises: [ValueError] at a size or finger count
    beyond the range of the integer field, and otherwise, having written
    these, [TypeError] at the enum-valued field [tp], for which the wire
    format has no variant.  The exporter is left as it was. *)
Theorem mos_instance_cannot_be_exported
    (rec : nat → M ProtoExporter PModule) (inst : Instance)
    (call : PrimitiveCall) (p : MosParams) (s : ProtoExporter) :
  _resolved inst = Some (IPrimitiveCall call) →
  params call = MosParamsObj p →
  export_instance int_fits rec inst s =
    (Err (mos_param_error (inst_name inst) p), s).
Proof.
  intros Hres Hpar. unfold export_instance. rewrite Hres, Hpar.
  monad_unfold. unfold mos_param_error, first_unwritable, writable.
  destruct p as [[wz|] [lz|] ns np t v]; cbn;
    repeat (destruct (int_fits _); cbn); reflexivity.
Qed.

(** X9: the Instance that the ASAP7 walker puts in the place of an Instance
    of [Mos] cannot be exported either: the call it substitutes still
    carries the sizes, the finger counts and the enum-valued [tp], so the
    loop over its parameters raises in the same way. *)
Theorem lowered_mos_cannot_be_exported
    (table : list ((MosType * Asap7.VthKey) * ExternalModule))
    (super : Instance → M Asap7.Asap7Walker Instance)
    (w : Asap7.Asap7Walker) (inst lowered : Instance)
    (pc : PrimitiveCall) (p : MosParams)
    (rec : nat → M ProtoExporter PModule) (s : ProtoExporter) :
  cache_exact table w →
  _resolved inst = Some (IPrimitiveCall pc) →
  prim_ident (prim pc) = prim_ident Mos →
  params pc = MosParamsObj p →
  (Asap7.visit_instance table super inst w).1 = Ok lowered →
  (export_instance int_fits rec lowered s).1 =
    Err (mos_param_error (inst_name inst) p).
Proof.
  intros Hw Hres Hmos Hpar Hlow.
  destruct (dict_get (tp p, Asap7.KVth (vth p)) table) as [emod|] eqn:Ht.
  - destruct (visit_instance_lowers_mos table super w inst pc p emod
                Hw Hres Hmos Hpar Ht) as [Hrun _].
    rewrite Hrun in Hlow. injection Hlow as <-.
    unfold export_instance, export_external_module. cbn [_resolved call_module
      call_params inst_name]. monad_unfold.
    unfold mos_param_error, first_unwritable, writable.
    destruct (ext_modules s !! emod_id emod);
      destruct p as [[wz|] [lz|] ns np t v]; cbn;
      repeat (destruct (int_fits _); cbn); reflexivity.
  - unfold Asap7.visit_instance in Hlow. rewrite Hres in Hlow.
    unfold Asap7.replace_primitive in Hlow.
    rewrite bool_decide_eq_true_2 in Hlow by done. rewrite Hpar in Hlow.
    unfold Asap7.mos_module_call, Asap7.mos_module in Hlow. monad_unfold.
    destruct (dict_get p (Asap7.mos_modcalls w)) as [c|] eqn:Hc.
    + destruct (Hw p c Hc) as (emod & Ht' & _). congruence.
    + rewrite Ht in Hlow. discriminate.
Qed.

End ProtoRejects.

(** * More on the exporter: connection expressions *)

Section ProtoConnsMore.
Import Proto.

(** Induction over connection expressions, through the parts of a
    concatenation. *)
Lemma Connectable_nested_ind (P : Connectable → Prop) :
  (∀ s, P (CSignal s)) →
  (∀ s bot top, P (CSlice s bot top)) →
  (∀ parts, Forall P parts → P (CConcat parts)) →
  (∀ r, P (COther r)) →
  ∀ c, P c.
Proof.
  intros Hsig Hslice Hconcat Hother.
  fix IH 1. intros [s|s bot top|parts|r]; [apply Hsig|apply Hslice| |apply Hother].
  apply Hconcat. induction parts as [|q ps IHps]; constructor; [apply IH|exact IHps].
Qed.

(** The number of Signals and Slices of an expression, at any depth, and
    of its wire form. *)
Fixpoint leaves (c : Connectable) : nat :=
  match c with
  | CSignal _ | CSlice _ _ _ => 1
  | CConcat parts => foldr (λ q n, leaves q + n)%nat 0%nat parts
  | COther _ => 0
  end.

Fixpoint wire_leaves (c : PConnection) : nat :=
  match c with
  | sig _ | slice _ _ _ => 1
  | concat parts => foldr (λ q n, wire_leaves q + n)%nat 0%nat parts
  end.

Lemma export_part_leaves (c : Connectable) :
  match export_part c with
  | Ok pc => exportable_conn c = true ∧ wire_leaves pc = leaves c
  | Err e => exportable_conn c = false ∧ e = Raise TypeError NoMessage
  end.
Proof.
  induction c as [s|s bot top|parts IH|r] using Connectable_nested_ind;
    try done.
  rewrite export_part_concat. cbn [exportable_conn leaves].
  induction IH as [|q ps Hq _ IHps]; [done|].
  cbn [export_concat foldr forallb]. fold (export_concat ps).
  destruct (export_part q) as [pq|e]; simpl.
  - destruct Hq as [-> Hlq]. simpl.
    destruct (export_concat ps) as [pcs|e]; simpl in *.
    + destruct IHps as [-> Hl]. split; [done|]. by rewrite Hlq, Hl.
    + exact IHps.
  - destruct Hq as [-> ->]. done.
Qed.


Lemma export_conns_keys (conns : list (string * Connectable))
    (acc : gmap string PConnection) :
  match export_conns conns acc with
  | Ok out =>
      Forall (λ kv, exportable_conn kv.2 = true) conns ∧
      dom out = dom acc ∪ list_to_set conns.*1
  | Err e =>
      Exists (λ kv, exportable_conn kv.2 = false) conns ∧
      e = Raise TypeError NoMessage
  end.
Proof.
  revert acc. induction conns as [|[pname c] rest IH]; intros acc.
  - simpl. split; [constructor|]. by rewrite union_empty_r_L.
  - cbn [export_conns].
    assert (match c with
            | CSignal s0 => Ok (sig {| psig_name := sig_name s0;
                                       psig_width := sig_width s0 |})
            | CSlice s0 bot top => Ok (slice (sig_name s0) bot top)
            | CConcat parts => cs ← export_concat parts; Ok (concat cs)
            | COther _ => Err (Raise TypeError NoMessage)
            end = export_part c) as ->.
    { destruct c; try done; by rewrite export_part_concat. }
    pose proof (export_part_leaves c) as Hc.
    destruct (export_part c) as [pc|e]; simpl.
    + destruct Hc as [Hc _]. specialize (IH (<[pname := pc]> acc)).
      destruct (export_conns rest _) as [out|e].
      * destruct IH as [Hall Hdom]. split; [by constructor|].
        rewrite Hdom, dom_insert_L. simpl.
        rewrite (comm_L (∪) {[pname]} (dom acc)). by rewrite (assoc_L (∪)).
      * destruct IH as [Hex ->]. split; [by right|done].
    + destruct Hc as [Hc ->]. split; [by left|done].
Qed.


End ProtoConnsMore.

(** * More on the exporter: what a run writes *)

Section ProtoStructure.
Import Primitives Proto.

Variable int_fits : Z → bool.
Variable graph : Graph.

(** ** Nothing exported is rewritten *)

(** The caches keep their entries as they are, the lists of the package
    grow at the end, the name of the package stays, and no qualified name
    is released. *)
Definition only_appends (s s' : ProtoExporter) : Prop :=
  modules s ⊆ modules s' ∧
  ext_modules s ⊆ ext_modules s' ∧
  pkg_modules (pkg s) `prefix_of` pkg_modules (pkg s') ∧
  pkg_ext_modules (pkg s) `prefix_of` pkg_ext_modules (pkg s') ∧
  pkg_name (pkg s') = pkg_name (pkg s) ∧
  dom (module_names s) ⊆ dom (module_names s').

#[local] Instance only_appends_preorder : PreOrder only_appends.
Proof.
  split.
  - intros s. repeat split; done.
  - intros s1 s2 s3 (A1 & B1 & C1 & D1 & E1 & F1) (A2 & B2 & C2 & D2 & E2 & F2).
    repeat split; try (by etrans); congruence.
Qed.

Lemma export_external_module_only_appends emod :
  preserves only_appends (export_external_module emod).
Proof.
  intros s. unfold export_external_module. monad_unfold.
  destruct (ext_modules s !! emod_id emod) eqn:He; [reflexivity|].
  unfold only_appends.
  cbn [snd modules ext_modules pkg module_names set_pkg_ext_modules
       pkg_modules pkg_ext_modules pkg_name].
  repeat split; try done.
  - by apply insert_subseteq.
  - by apply prefix_app_r.
Qed.

(** [export_instance] and the loop over the Instances, for relations that
    the export of an external module respects. *)
Lemma export_instance_respects_calls
    (Rel : ProtoExporter → ProtoExporter → Prop) `{!PreOrder Rel} rec inst :
  (∀ call, _resolved inst = Some (IExternalModuleCall call) →
           preserves Rel (export_external_module (call_module call))) →
  (∀ c, _resolved inst = Some (IModule c) → preserves Rel (rec c)) →
  preserves Rel (export_instance int_fits rec inst).
Proof.
  intros Hext Hrec. unfold export_instance.
  destruct (_resolved inst) as [[c|call|call|g]|]; repeat pres_step.
  - by apply Hrec.
  - by apply Hext.
Qed.

Lemma export_instance_respects (Rel : ProtoExporter → ProtoExporter → Prop)
    `{!PreOrder Rel} rec inst :
  (∀ emod, preserves Rel (export_external_module emod)) →
  (∀ c, _resolved inst = Some (IModule c) → preserves Rel (rec c)) →
  preserves Rel (export_instance int_fits rec inst).
Proof.
  intros Hext Hrec. apply (export_instance_respects_calls Rel); [|done].
  intros call _. apply Hext.
Qed.

Lemma export_instances_respects_calls
    (Rel : ProtoExporter → ProtoExporter → Prop) `{!PreOrder Rel}
    rec module insts :
  (∀ inst call, inst ∈ insts →
     _resolved inst = Some (IExternalModuleCall call) →
     preserves Rel (export_external_module (call_module call))) →
  (∀ c, c ∈ module_targets insts → preserves Rel (rec c)) →
  preserves Rel (export_instances int_fits rec module insts).
Proof.
  intros Hext Hrec. unfold export_instances.
  apply (preserves_map_m Rel). intros inst Hinst.
  destruct (_resolved inst) as [t|] eqn:Ht; [|pres_step].
  apply (export_instance_respects_calls Rel).
  - intros call Hc. apply (Hext inst call Hinst). by rewrite <- Hc.
  - intros c Hc. apply Hrec. unfold module_targets.
    apply list_elem_of_omap. exists inst. split; [done|].
    rewrite Ht in Hc. injection Hc as ->. by rewrite Ht.
Qed.

Lemma export_instances_respects (Rel : ProtoExporter → ProtoExporter → Prop)
    `{!PreOrder Rel} rec module insts :
  (∀ emod, preserves Rel (export_external_module emod)) →
  (∀ c, c ∈ module_targets insts → preserves Rel (rec c)) →
  preserves Rel (export_instances int_fits rec module insts).
Proof.
  intros Hext Hrec. apply (export_instances_respects_calls Rel); [|done].
  intros inst call _ _. apply Hext.
Qed.

Lemma store_module_only_appends x qname pmod s :
  modules s !! x = None → only_appends s (store_module x qname pmod s).
Proof.
  intros Hx. unfold store_module, only_appends.
  cbn [modules ext_modules pkg module_names set_pkg_modules pkg_modules
       pkg_ext_modules pkg_name].
  repeat split; try done.
  - by apply insert_subseteq.
  - by apply prefix_app_r.
  - rewrite dom_insert_L. apply union_subseteq_r.
Qed.

Lemma export_module_appends (fuel : nat) (x : nat) (s : ProtoExporter) :
  only_appends s (export_module int_fits graph fuel x s).2.
Proof.
  revert x s. induction fuel as [|fuel IH]; intros x s; [reflexivity|].
  rewrite export_module_unfold.
  destruct (modules s !! x) as [pm|] eqn:Hx; [reflexivity|].
  destruct (bool_decide _); [reflexivity|].
  destruct (export_module_name graph x s).1 as [qname|e]; [|reflexivity].
  pose proof (export_instances_respects only_appends
                (export_module int_fits graph fuel) x (instances (graph x))
                export_external_module_only_appends (λ c _, IH c) s) as Hl.
  pose proof (instances_do_not_export_parent int_fits graph fuel x s Hx) as Hself.
  destruct (export_instances int_fits _ _ _ s) as [[pinsts|e] s1]; [|exact Hl].
  cbn [snd] in *. etrans; [exact Hl|].
  by apply store_module_only_appends.
Qed.

(** X12: Whatever the state and whether it returns or raises, [export_module]
    only adds: no cache entry is changed or removed, and what the package
    listed it lists still, in the same places. *)
Theorem export_module_only_appends (fuel : nat) (x : nat) (s : ProtoExporter) :
  only_appends s (export_module int_fits graph fuel x s).2.
Proof. exact (export_module_appends fuel x s). Qed.

(** ** Each cache entry mirrors its Module *)

(** The qualified name that an Instance refers to: the name under which
    its target Module is in the cache, or the reserved name of a primitive
    or of an external module. *)
Definition reference_of (s : ProtoExporter) (inst : Instance)
    : option QualifiedName :=
  match _resolved inst with
  | Some (IModule c) => pmod_name <$> modules s !! c
  | Some (IPrimitiveCall call) =>
      Some {| domain := "hdl21.primitives"; qn_name := prim_name (prim call) |}
  | Some (IExternalModuleCall call) =>
      Some {| domain := ""; qn_name := emod_name (call_module call) |}
  | Some (IGeneratorCall _) | None => None
  end.

(** [pinst] is the wire form of [inst]: same name, a reference to the
    target, the parameters of the call (none for a Module), and the
    connections. *)
Definition exports_instance (s : ProtoExporter) (inst : Instance)
    (pinst : PInstance) : Prop :=
  pinst_name pinst = inst_name inst ∧
  reference_of s inst = Some (module_qn pinst) ∧
  export_params int_fits (inst_name inst) (default [] (instance_params inst)) ∅
    = Ok (parameters pinst) ∧
  export_conns (conns inst) ∅ = Ok (connections pinst).

(** [pmod] is the wire form of the Module [m]. *)
Definition mirrors (s : ProtoExporter) (m : nat) (pmod : PModule) : Prop :=
  interfaces (graph m) = [] ∧
  pmod_ports pmod = export_port <$> ports (graph m) ∧
  pmod_signals pmod =
    (λ sg, {| psig_name := sig_name sg; psig_width := sig_width sg |})
    <$> signals (graph m) ∧
  Forall2 (exports_instance s) (instances (graph m)) (pmod_instances pmod).

Definition mirrored (s : ProtoExporter) : Prop :=
  ∀ m pmod, modules s !! m = Some pmod → mirrors s m pmod.

Lemma exports_instance_mono s s' inst pinst :
  modules s ⊆ modules s' →
  exports_instance s inst pinst → exports_instance s' inst pinst.
Proof.
  intros Hsub (H1 & H2 & H3 & H4). repeat split; try done.
  unfold reference_of in *.
  destruct (_resolved inst) as [[c| | |]|]; try done.
  destruct (modules s !! c) as [pmc|] eqn:Hc; [|done].
  by rewrite (lookup_weaken _ _ _ _ Hc Hsub).
Qed.

Lemma mirrors_mono s s' m pmod :
  modules s ⊆ modules s' → mirrors s m pmod → mirrors s' m pmod.
Proof.
  intros Hsub (H1 & H2 & H3 & H4). repeat split; try done.
  eapply Forall2_impl; [exact H4|]. intros inst pinst.
  by apply exports_instance_mono.
Qed.

(** What [export_instance] has done when it returns. *)
Lemma export_instance_Ok rec inst s pinst s1 :
  (∀ c s0 pm s', rec c s0 = (Ok pm, s') → modules s' !! c = Some pm) →
  export_instance int_fits rec inst s = (Ok pinst, s1) →
  exports_instance s1 inst pinst.
Proof.
  intros Hrec. unfold export_instance, exports_instance, reference_of,
    instance_params.
  destruct (_resolved inst) as [[c|call|call|g]|]; monad_unfold;
    try discriminate.
  - pose proof (Hrec c s) as Hc.
    destruct (rec c s) as [[pmc|e] s0]; [|discriminate].
    specialize (Hc pmc s0 eq_refl).
    destruct (export_conns (conns inst) ∅) as [cs|e]; [|discriminate].
    intros [= <- <-]. cbn. by rewrite Hc.
  - destruct (export_params int_fits _ _ _) as [ps|e]; [|discriminate].
    destruct (export_conns (conns inst) ∅) as [cs|e]; [|discriminate].
    intros [= <- <-]. done.
  - destruct (export_external_module (call_module call) s) as [[pem|e] s0];
      [|discriminate].
    destruct (export_params int_fits _ _ _) as [ps|e]; [|discriminate].
    destruct (export_conns (conns inst) ∅) as [cs|e]; [|discriminate].
    intros [= <- <-]. done.
Qed.

Definition keeps_mirrored (s s' : ProtoExporter) : Prop :=
  mirrored s → mirrored s'.

#[local] Instance keeps_mirrored_preorder : PreOrder keeps_mirrored.
Proof.
  split.
  - intros s H. exact H.
  - intros s1 s2 s3 H1 H2 H. by apply H2, H1.
Qed.

Lemma export_external_module_mirrored emod :
  preserves keeps_mirrored (export_external_module emod).
Proof.
  intros s Hs m pm Hm.
  pose proof (export_external_module_same emod s) as (Em & _).
  rewrite Em in Hm. apply (mirrors_mono s); [by rewrite Em|by apply Hs].
Qed.

Lemma export_module_mirrored fuel x :
  preserves keeps_mirrored (export_module int_fits graph fuel x).
Proof.
  revert x. induction fuel as [|fuel IH]; intros x; [simpl; pres_step|].
  intros s. rewrite export_module_unfold.
  destruct (modules s !! x) as [pm|] eqn:Hx; [reflexivity|].
  destruct (bool_decide _) eqn:Hif; [reflexivity|].
  apply bool_decide_eq_false in Hif.
  destruct (export_module_name graph x s).1 as [qname|e]; [|reflexivity].
  pose proof (export_instances_respects keeps_mirrored
                (export_module int_fits graph fuel) x (instances (graph x))
                export_external_module_mirrored (λ c _, IH c) s) as Hl.
  pose proof (instances_do_not_export_parent int_fits graph fuel x s Hx) as Hself.
  pose proof (map_m_Ok_Forall2 only_appends
                (λ inst, match _resolved inst with
                         | Some _ => export_instance int_fits (export_module int_fits graph fuel) inst
                         | None => throw RuntimeError
                                         (UnresolvedInstance (inst_name inst) x)
                         end)
                (instances (graph x)) s) as Hpairs.
  unfold export_instances in *.
  destruct (map_m _ (instances (graph x)) s) as [[pinsts|e] s1];
    [|exact Hl].
  cbn [snd] in *. intros Hs. specialize (Hl Hs).
  pose proof (store_module_only_appends x qname
                (serialized graph x qname pinsts) s1 Hself) as (Hsub & _).
  intros m pm. cbn [modules store_module].
  destruct (decide (m = x)) as [->|Hne].
  - rewrite lookup_insert_eq. intros [= <-].
    split; [by destruct (interfaces (graph x)); [|destruct Hif]|].
    split; [done|]. split; [done|]. cbn [pmod_instances serialized].
    eapply Forall2_impl.
    + apply (Hpairs pinsts s1); [|done]. intros inst s0 _.
      destruct (_resolved inst); [|reflexivity].
      apply (export_instance_respects only_appends).
      * apply export_external_module_only_appends.
      * intros c _ s2. apply export_module_appends.
    + intros inst pinst (s0 & s2 & _ & Hrun & (Hsub2 & _)). cbn beta in Hrun.
      destruct (_resolved inst) eqn:Hres; [|discriminate].
      apply (exports_instance_mono s2); [by etrans|].
      apply (export_instance_Ok (export_module int_fits graph fuel) inst s0); [|done].
      intros c s3 pmc s4 Hc.
      pose proof (export_module_Ok_cached int_fits graph fuel c s3 pmc) as Hcached.
      rewrite Hc in Hcached. by apply Hcached.
  - rewrite lookup_insert_ne by done. intros Hm.
    apply (mirrors_mono s1); [done|]. by apply Hl.
Qed.

(** ** External modules are exported once *)

(** The wire form of an external module. *)
Definition ext_wire (emod : ExternalModule) : PExternalModule :=
  {| pemod_name := emod_name emod;
     pemod_ports := export_port <$> emod_port_list emod |}.

(** Some Instance of the graph calls the external module [emod]. *)
Definition called (emod : ExternalModule) : Prop :=
  ∃ m inst call,
    inst ∈ instances (graph m) ∧
    _resolved inst = Some (IExternalModuleCall call) ∧
    call_module call = emod.

(** [emods] lists the external modules exported so far, in the order of
    the package: one per identity, each of them called by an Instance and
    written as its wire form. *)
Definition ext_listed (emods : list ExternalModule) (s : ProtoExporter) : Prop :=
  NoDup (emod_id <$> emods) ∧
  (∀ id, id ∈ emod_id <$> emods ↔ is_Some (ext_modules s !! id)) ∧
  pkg_ext_modules (pkg s) = ext_wire <$> emods ∧
  ∀ emod, emod ∈ emods →
    ext_modules s !! emod_id emod = Some (ext_wire emod) ∧ called emod.

Definition ext_extends (s s' : ProtoExporter) : Prop :=
  ∀ emods, ext_listed emods s → ∃ suffix, ext_listed (emods ++ suffix) s'.

#[local] Instance ext_extends_preorder : PreOrder ext_extends.
Proof.
  split.
  - intros s ids H. exists []. by rewrite app_nil_r.
  - intros s1 s2 s3 H1 H2 ids H. destruct (H1 ids H) as [suf1 H'].
    destruct (H2 _ H') as [suf2 H'']. exists (suf1 ++ suf2).
    by rewrite app_assoc.
Qed.

Lemma export_external_module_ext_extends emod :
  called emod →
  preserves ext_extends (export_external_module emod).
Proof.
  intros Hcalled s emods (Hnd & Hdom & Hpkg & Hall).
  unfold export_external_module. monad_unfold.
  destruct (ext_modules s !! emod_id emod) as [pem|] eqn:He.
  { exists []. by rewrite app_nil_r. }
  exists [emod]. unfold ext_listed.
  cbn [snd ext_modules pkg pkg_ext_modules set_pkg_ext_modules].
  assert (emod_id emod ∉ emod_id <$> emods) as Hfresh.
  { rewrite Hdom, He. by intros [? ?]. }
  rewrite !fmap_app. cbn [fmap list_fmap].
  split; [|split; [|split]].
  - apply NoDup_app. split; [done|]. split; [|apply NoDup_singleton].
    intros id Hid Hid'. apply list_elem_of_singleton in Hid' as ->. done.
  - intros id. rewrite elem_of_app, list_elem_of_singleton, Hdom.
    destruct (decide (id = emod_id emod)) as [->|Hne].
    + rewrite lookup_insert_eq. split; [eauto|]. by right.
    + rewrite lookup_insert_ne by done. split; [intros [?|?]; done|by left].
  - by rewrite Hpkg.
  - intros emod' Hin. apply elem_of_app in Hin as [Hin|Hin].
    + destruct (Hall emod' Hin) as [Hlook Hc]. split; [|done].
      rewrite lookup_insert_ne; [done|].
      intros Heq. apply Hfresh. rewrite Heq.
      apply list_elem_of_fmap. by exists emod'.
    + apply list_elem_of_singleton in Hin as ->.
      split; [apply lookup_insert_eq|done].
Qed.

Lemma export_module_ext_extends fuel x :
  preserves ext_extends (export_module int_fits graph fuel x).
Proof.
  revert x. induction fuel as [|fuel IH]; intros x; [simpl; pres_step|].
  intros s. rewrite export_module_unfold.
  destruct (modules s !! x) as [pm|] eqn:Hx; [reflexivity|].
  destruct (bool_decide _); [reflexivity|].
  destruct (export_module_name graph x s).1 as [qname|e]; [|reflexivity].
  assert (∀ inst call, inst ∈ instances (graph x) →
            _resolved inst = Some (IExternalModuleCall call) →
            preserves ext_extends (export_external_module (call_module call)))
    as Hext.
  { intros inst call Hinst Hres. apply export_external_module_ext_extends.
    by exists x, inst, call. }
  pose proof (export_instances_respects_calls ext_extends
                (export_module int_fits graph fuel) x (instances (graph x))
                Hext (λ c _, IH c) s) as Hl.
  destruct (export_instances int_fits _ _ _ s) as [[pinsts|e] s1]; [|exact Hl].
  exact Hl.
Qed.

(** The external module of every call among the Instances of a Module in
    the cache is in the cache of external modules. *)
Definition ext_targets_cached (s : ProtoExporter) : Prop :=
  ∀ m pmod inst call,
    modules s !! m = Some pmod → inst ∈ instances (graph m) →
    _resolved inst = Some (IExternalModuleCall call) →
    is_Some (ext_modules s !! emod_id (call_module call)).

Definition keeps_ext_targets (s s' : ProtoExporter) : Prop :=
  ext_targets_cached s → ext_targets_cached s'.

#[local] Instance keeps_ext_targets_preorder : PreOrder keeps_ext_targets.
Proof.
  split.
  - intros s H. exact H.
  - intros s1 s2 s3 H1 H2 H. by apply H2, H1.
Qed.

Lemma export_external_module_Ok_cached emod s :
  is_Some (ext_modules (export_external_module emod s).2 !! emod_id emod).
Proof.
  unfold export_external_module. monad_unfold.
  destruct (ext_modules s !! emod_id emod) as [pem|] eqn:He.
  - cbn [snd]. rewrite He. eauto.
  - cbn [snd ext_modules]. rewrite lookup_insert_eq. eauto.
Qed.

Lemma export_external_module_keeps_ext_targets emod :
  preserves keeps_ext_targets (export_external_module emod).
Proof.
  intros s Hs m pm inst call Hm Hinst Hres.
  pose proof (export_external_module_same emod s) as (Em & _).
  pose proof (export_external_module_only_appends emod s) as (_ & Hsub & _).
  rewrite Em in Hm. destruct (Hs m pm inst call Hm Hinst Hres) as [pem Hpem].
  exists pem. by apply (lookup_weaken _ _ _ _ Hpem Hsub).
Qed.

Lemma export_module_keeps_ext_targets fuel x :
  preserves keeps_ext_targets (export_module int_fits graph fuel x).
Proof.
  revert x. induction fuel as [|fuel IH]; intros x; [simpl; pres_step|].
  intros s. rewrite export_module_unfold.
  destruct (modules s !! x) as [pm|] eqn:Hx; [reflexivity|].
  destruct (bool_decide _); [reflexivity|].
  destruct (export_module_name graph x s).1 as [qname|e]; [|reflexivity].
  pose proof (export_instances_respects keeps_ext_targets
                (export_module int_fits graph fuel) x (instances (graph x))
                export_external_module_keeps_ext_targets (λ c _, IH c) s)
    as Hl.
  pose proof (map_m_Ok_Forall2 only_appends
                (λ inst, match _resolved inst with
                         | Some _ => export_instance int_fits (export_module int_fits graph fuel) inst
                         | None => throw RuntimeError
                                         (UnresolvedInstance (inst_name inst) x)
                         end)
                (instances (graph x)) s) as Hpairs.
  unfold export_instances in *.
  destruct (map_m _ (instances (graph x)) s) as [[pinsts|e] s1];
    [|exact Hl].
  cbn [snd] in *. intros Hs. specialize (Hl Hs).
  intros m pm inst call. cbn [modules ext_modules store_module].
  destruct (decide (m = x)) as [->|Hne].
  - rewrite lookup_insert_eq. intros _ Hinst Hres.
    assert (Forall2 (λ inst0 pinst, ∀ call0,
              _resolved inst0 = Some (IExternalModuleCall call0) →
              is_Some (ext_modules s1 !! emod_id (call_module call0)))
              (instances (graph x)) pinsts) as Hall.
    { eapply Forall2_impl.
      - apply (Hpairs pinsts s1); [|done]. intros inst0 s0 _.
        destruct (_resolved inst0); [|reflexivity].
        apply (export_instance_respects only_appends).
        + apply export_external_module_only_appends.
        + intros c _ s2. apply export_module_appends.
      - intros inst0 pinst (s0 & s2 & _ & Hrun & (_ & Hsub2 & _)) call0 Hc0.
        cbn beta in Hrun. rewrite Hc0 in Hrun.
        unfold export_instance in Hrun. rewrite Hc0 in Hrun. monad_unfold.
        pose proof (export_external_module_Ok_cached (call_module call0) s0)
          as [pem Hpem].
        destruct (export_external_module (call_module call0) s0)
          as [[pem'|e] s3]; [|discriminate].
        destruct (export_params int_fits _ _ _); [|discriminate].
        destruct (export_conns _ _); [|discriminate].
        injection Hrun as _ <-. exists pem.
        by apply (lookup_weaken _ _ _ _ Hpem Hsub2). }
    apply list_elem_of_lookup in Hinst as [i Hi].
    destruct (Forall2_lookup_l _ _ _ _ _ Hall Hi) as (pinst & _ & Hp).
    by apply Hp.
  - rewrite lookup_insert_ne by done. apply Hl.
Qed.

(** ** A whole run *)

Lemma run_export_respects (Rel : ProtoExporter → ProtoExporter → Prop)
    `{!PreOrder Rel} fuel tops domain :
  (∀ x, preserves Rel (export_module int_fits graph fuel x)) →
  Rel (ProtoExporter_init domain) (run_export int_fits graph fuel tops domain).2.
Proof.
  intros Hrec. unfold run_export, export.
  assert (preserves Rel
            (for_each (λ m, export_module int_fits graph fuel m ≫= λ _, mret ()) tops
               ≫= λ _, get_state ≫= λ self, mret (pkg self))) as Hp.
  { pres_step.
    - pres_step. pres_step; [apply Hrec|pres_step].
    - apply (preserves_bind_get Rel). intros s. reflexivity. }
  apply Hp.
Qed.

Lemma run_export_Ok fuel tops domain package s' :
  run_export int_fits graph fuel tops domain = (Ok package, s') →
  package = pkg s' ∧
  ∀ top, top ∈ tops → is_Some (modules s' !! top).
Proof.
  unfold run_export, export. intros Hrun. monad_unfold.
  set (body := λ m : nat,
         λ s : ProtoExporter,
           match export_module int_fits graph fuel m s with
           | (Ok _, s1) => (Ok (), s1)
           | (Err e, s1) => (Err e, s1)
           end) in *.
  destruct (for_each body tops (ProtoExporter_init domain))
    as [[[]|e] s1] eqn:Hloop; [|discriminate].
  injection Hrun as <- <-. split; [done|].
  intros top Htop.
  apply (for_each_Ok_post (λ m s, is_Some (modules s !! m)) body tops
           _ s1 Hloop); [| |done].
  - intros m s0 s2 _ Hm. unfold body in Hm.
    pose proof (export_module_Ok_cached int_fits graph fuel m s0) as Hc.
    destruct (export_module int_fits graph fuel m s0) as [[pm|e] s3]; [|discriminate].
    injection Hm as <-. specialize (Hc pm eq_refl). cbn [snd] in Hc. eauto.
  - intros m y s0 _ [pm Hm]. unfold body.
    pose proof (export_module_appends fuel y s0) as (Hsub & _).
    exists pm.
    destruct (export_module int_fits graph fuel y s0) as [[pm'|e] s3];
      by apply (lookup_weaken _ _ _ _ Hm Hsub).
Qed.

Lemma init_mirrored domain : mirrored (ProtoExporter_init domain).
Proof. intros m pm. simpl. by rewrite lookup_empty. Qed.

Lemma init_ext_listed domain : ext_listed [] (ProtoExporter_init domain).
Proof.
  split; [constructor|]. split; [|split; [done|]].
  - intros id. simpl. rewrite lookup_empty. split.
    + intros H. by apply elem_of_nil in H.
    + by intros [? ?].
  - intros emod H. by apply elem_of_nil in H.
Qed.

Lemma init_ext_targets_cached domain :
  ext_targets_cached (ProtoExporter_init domain).
Proof. intros m pm inst call. simpl. by rewrite lookup_empty. Qed.

Lemma init_names_recorded domain :
  names_recorded (ProtoExporter_init domain).
Proof. intros m pm. simpl. by rewrite lookup_empty. Qed.

#[local] Instance extends_is_preorder : PreOrder (extends graph).
Proof.
  split.
  - intros s. split; [done|]. intros order H. exists []. by rewrite app_nil_r.
  - intros s1 s2 s3 [N1 H1] [N2 H2]. split; [congruence|].
    intros order H. destruct (H1 order H) as [suf1 H'].
    destruct (H2 _ H') as [suf2 H'']. exists (suf1 ++ suf2).
    by rewrite app_assoc.
Qed.

#[local] Instance records_names_is_preorder : PreOrder records_names.
Proof.
  split.
  - intros s H. exact H.
  - intros s1 s2 s3 H1 H2 H. by apply H2, H1.
Qed.

(** What holds of the state that a run which returned leaves behind. *)
Lemma run_export_state fuel tops domain package s' :
  run_export int_fits graph fuel tops domain = (Ok package, s') →
  package = pkg s' ∧
  pkg_name (pkg s') = default "" domain ∧
  (∃ order, export_inv graph order s') ∧
  mirrored s' ∧ names_recorded s' ∧ ext_targets_cached s' ∧
  (∃ ids, ext_listed ids s') ∧
  ∀ top, top ∈ tops → is_Some (modules s' !! top).
Proof.
  intros Hrun. destruct (run_export_Ok _ _ _ _ _ Hrun) as [-> Htops].
  pose proof (run_export_respects (extends graph) fuel tops domain
                (export_module_extends int_fits graph fuel)) as [Hname Hext].
  pose proof (run_export_respects keeps_mirrored fuel tops domain
                (export_module_mirrored fuel)) as Hmir.
  pose proof (run_export_respects records_names fuel tops domain
                (export_module_records_names int_fits graph fuel)) as Hrec.
  pose proof (run_export_respects keeps_ext_targets fuel tops domain
                (export_module_keeps_ext_targets fuel)) as Hetc.
  pose proof (run_export_respects ext_extends fuel tops domain
                (export_module_ext_extends fuel)) as Hexl.
  rewrite Hrun in *. cbn [snd] in *.
  split; [done|]. split; [done|].
  split; [apply (Hext [] (init_export_inv graph domain))|].
  split; [apply Hmir, init_mirrored|].
  split; [apply Hrec, init_names_recorded|].
  split; [apply Hetc, init_ext_targets_cached|].
  split; [apply (Hexl [] (init_ext_listed domain))|done].
Qed.

(** X13: In the package of a run that returned, the entry of each exported
    Module is its wire form: it comes from a Module without interfaces,
    has the ports and the signals of the Module in their order, and one
    Instance per Instance of the Module, in declared order, each with the
    name, the reference, the parameters and the connections of its
    source. *)
Theorem package_entry_mirrors_module (fuel : nat) (tops : list nat)
    (domain : option string) (package : Package) (s' : ProtoExporter) :
  run_export int_fits graph fuel tops domain = (Ok package, s') →
  ∀ m pmod, modules s' !! m = Some pmod →
    pmod ∈ pkg_modules package ∧ mirrors s' m pmod.
Proof.
  intros Hrun m pmod Hm.
  destruct (run_export_state _ _ _ _ _ Hrun)
    as (-> & _ & [order Hinv] & Hmir & _).
  split; [|by apply Hmir].
  assert (m ∈ order) as Hin by (apply (inv_dom _ _ _ Hinv); eauto).
  apply list_elem_of_lookup in Hin as [i Hi].
  destruct (Forall2_lookup_l _ _ _ _ _ (inv_pkg _ _ _ Hinv) Hi)
    as (pm & Hpm & Hc).
  rewrite Hm in Hc. injection Hc as <-.
  apply list_elem_of_lookup. eauto.
Qed.

(** X14: Every reference to a Module in the package of a run that returned
    resolves backwards: the Instance that stands for an Instance of a
    Module names an entry of the package at a smaller index, the entry of
    that Module. *)
Theorem package_references_resolve (fuel : nat) (tops : list nat)
    (domain : option string) (package : Package) (s' : ProtoExporter) :
  run_export int_fits graph fuel tops domain = (Ok package, s') →
  ∀ i pmod, pkg_modules package !! i = Some pmod →
    ∃ m, modules s' !! m = Some pmod ∧
      Forall2 (λ inst pinst,
                 ∀ c, _resolved inst = Some (IModule c) →
                   ∃ j pmc, (j < i)%nat ∧
                            pkg_modules package !! j = Some pmc ∧
                            modules s' !! c = Some pmc ∧
                            module_qn pinst = pmod_name pmc)
              (instances (graph m)) (pmod_instances pmod).
Proof.
  intros Hrun i pmod Hi.
  destruct (run_export_state _ _ _ _ _ Hrun)
    as (-> & _ & [order Hinv] & Hmir & _).
  destruct (Forall2_lookup_r _ _ _ _ _ (inv_pkg _ _ _ Hinv) Hi)
    as (m & Hm & Hc).
  exists m. split; [done|].
  destruct (Hmir m pmod Hc) as (_ & _ & _ & Hall).
  apply Forall2_same_length_lookup_2; [by eapply Forall2_length|].
  intros k inst pinst Hk Hpk c Hres.
  assert (inst ∈ instances (graph m)) as Hinst
    by (apply list_elem_of_lookup; eauto).
  destruct (Forall2_lookup_lr _ _ _ _ _ _ Hall Hk Hpk) as (_ & Href & _).
  { unfold reference_of in Href. rewrite Hres in Href.
    destruct (modules s' !! c) as [pmc|] eqn:Hpmc; [|done].
    injection Href as Href.
    assert (instantiates graph m c) as Hmc.
    { unfold instantiates, module_targets. apply list_elem_of_omap.
      exists inst. split; [done|]. by rewrite Hres. }
    destruct (inv_children _ _ _ Hinv i m c Hm Hmc) as (j & Hj & Hjc).
    destruct (Forall2_lookup_l _ _ _ _ _ (inv_pkg _ _ _ Hinv) Hjc)
      as (pmc' & Hpkg & Hc').
    rewrite Hpmc in Hc'. injection Hc' as <-.
    exists j, pmc. done. }
Qed.

Lemma export_params_Ok_writable inst params acc out :
  export_params int_fits inst params acc = Ok out →
  Forall (λ kv, writable int_fits kv.2 = true) params.
Proof.
  intros Hok. apply Forall_forall. intros [k v] Hkv. cbn [snd].
  pose proof (export_params_outcome int_fits inst params acc) as Hout.
  destruct (first_unwritable int_fits params) as [kv|] eqn:Hf;
    [congruence|].
  by apply (proj1 (first_unwritable_None int_fits params) Hf k v).
Qed.

Lemma export_params_Ok_supported inst params acc out :
  export_params int_fits inst params acc = Ok out →
  Forall (λ kv, supported kv.2 = true) params.
Proof.
  intros Hok. eapply Forall_impl; [by eapply export_params_Ok_writable|].
  intros kv Hkv. unfold writable in Hkv. by apply andb_prop in Hkv as [? _].
Qed.

(** X15: A run returns only on a hierarchy that the wire format can hold:
    every exported Module has a name and no interfaces, and each of its
    Instances points to an exported Module, a primitive call or an
    external-module call, has parameters of the supported types only,
    every [int] among them within the range of the integer field, and is
    connected through Signals, Slices and Concats only. *)
Theorem exported_hierarchy_is_supported (fuel : nat) (tops : list nat)
    (domain : option string) (package : Package) (s' : ProtoExporter) :
  run_export int_fits graph fuel tops domain = (Ok package, s') →
  ∀ m, is_Some (modules s' !! m) →
    interfaces (graph m) = [] ∧
    is_Some (name (graph m)) ∧
    Forall (λ inst,
              ((∃ c, _resolved inst = Some (IModule c) ∧
                     is_Some (modules s' !! c)) ∨
               (∃ call, _resolved inst = Some (IPrimitiveCall call)) ∨
               (∃ call, _resolved inst = Some (IExternalModuleCall call))) ∧
              Forall (λ kv, supported kv.2 = true)
                     (default [] (instance_params inst)) ∧
              Forall (λ kv, isinstance_int kv.2 = true →
                            int_fits (int_value kv.2) = true)
                     (default [] (instance_params inst)) ∧
              Forall (λ kv, exportable_conn kv.2 = true) (conns inst))
           (instances (graph m)).
Proof.
  intros Hrun m [pmod Hm].
  destruct (run_export_state _ _ _ _ _ Hrun)
    as (-> & _ & [order Hinv] & Hmir & _).
  destruct (Hmir m pmod Hm) as (Hif & _ & _ & Hall).
  split; [done|]. split.
  { destruct (inv_names _ _ _ Hinv m pmod Hm) as (n & -> & _). eauto. }
  apply Forall_forall. intros inst Hinst.
  apply list_elem_of_lookup in Hinst as [k Hk].
  destruct (Forall2_lookup_l _ _ _ _ _ Hall Hk)
    as (pinst & _ & (_ & Href & Hpar & Hcon)).
  split; [|split; [|split]].
  - unfold reference_of in Href.
    destruct (_resolved inst) as [[c|call|call|g]|]; try done.
    + left. exists c. split; [done|].
      destruct (modules s' !! c); [eauto|done].
    + right. left. eauto.
    + right. right. eauto.
  - by apply (export_params_Ok_supported _ _ _ _ Hpar).
  - eapply Forall_impl; [by apply (export_params_Ok_writable _ _ _ _ Hpar)|].
    intros kv Hkv Hint. unfold writable in Hkv.
    apply andb_prop in Hkv as [_ Hkv]. by rewrite Hint in Hkv.
  - pose proof (export_conns_keys (conns inst) ∅) as Hspec.
    rewrite Hcon in Hspec. apply Hspec.
Qed.

(** X16: In the package of a run that returned, the external modules stand
    once each: the list has one entry per identity, each the wire form
    (the name and the ports) of an external module that an Instance
    calls, and the module of every external-module call among the
    Instances of the exported Modules is among them by identity.  Where
    identities name objects (calls of one identity are calls of one
    module), the entry for the module of such a call is the wire form of
    that very module. *)
Theorem external_modules_exported_once (fuel : nat) (tops : list nat)
    (domain : option string) (package : Package) (s' : ProtoExporter) :
  run_export int_fits graph fuel tops domain = (Ok package, s') →
  ∃ emods : list ExternalModule,
    NoDup (emod_id <$> emods) ∧
    pkg_ext_modules package = ext_wire <$> emods ∧
    (∀ emod, emod ∈ emods →
       ext_modules s' !! emod_id emod = Some (ext_wire emod) ∧ called emod) ∧
    (∀ m inst call,
       is_Some (modules s' !! m) → inst ∈ instances (graph m) →
       _resolved inst = Some (IExternalModuleCall call) →
       emod_id (call_module call) ∈ emod_id <$> emods) ∧
    ((∀ e1 e2, called e1 → called e2 → emod_id e1 = emod_id e2 → e1 = e2) →
     ∀ m inst call,
       is_Some (modules s' !! m) → inst ∈ instances (graph m) →
       _resolved inst = Some (IExternalModuleCall call) →
       call_module call ∈ emods ∧
       ext_modules s' !! emod_id (call_module call) =
         Some (ext_wire (call_module call))).
Proof.
  intros Hrun.
  destruct (run_export_state _ _ _ _ _ Hrun)
    as (-> & _ & _ & _ & _ & Hetc & [emods (Hnd & Hdom & Hpkg & Hall)] & _).
  assert (∀ m inst call,
            is_Some (modules s' !! m) → inst ∈ instances (graph m) →
            _resolved inst = Some (IExternalModuleCall call) →
            emod_id (call_module call) ∈ emod_id <$> emods) as Hin.
  { intros m inst call [pmod Hm] Hinst Hres. apply Hdom.
    by apply (Hetc m pmod inst call). }
  exists emods. split; [done|]. split; [done|]. split; [done|].
  split; [done|].
  intros Hids m inst call Hm Hinst Hres.
  pose proof (Hin m inst call Hm Hinst Hres) as Hid.
  apply list_elem_of_fmap in Hid as (emod & Heq & Hemod).
  destruct (Hall emod Hemod) as [Hlook Hcalled].
  assert (call_module call = emod) as ->.
  { apply Hids; [by exists m, inst, call|done|done]. }
  by split.
Qed.

(** X17: Listing a top again at the end of the tops changes nothing: the run
    returns the same package and leaves the same state. *)
Theorem top_listed_again_changes_nothing (fuel : nat) (tops : list nat)
    (domain : option string) (package : Package) (s' : ProtoExporter)
    (t : nat) :
  run_export int_fits graph fuel tops domain = (Ok package, s') →
  t ∈ tops →
  run_export int_fits graph fuel (tops ++ [t]) domain = (Ok package, s').
Proof.
  intros Hrun Ht.
  destruct (run_export_Ok _ _ _ _ _ Hrun) as [-> Htops].
  destruct (Htops t Ht) as [pm Hpm].
  destruct fuel as [|fuel].
  { destruct tops as [|t0 tops]; [by apply elem_of_nil in Ht|].
    discriminate Hrun. }
  unfold run_export, export in *. monad_unfold.
  rewrite for_each_app.
  destruct (for_each _ tops (ProtoExporter_init domain))
    as [[[]|e] s1]; [|discriminate].
  injection Hrun as _ ->.
  cbn [for_each]. monad_unfold.
  by rewrite (export_module_cached int_fits graph fuel t s' pm Hpm).
Qed.

(** X18: A top that comes after a run's tops and computes the qualified name
    of a Module that the run exported, without being exported itself and
    without interfaces, makes the run raise the collision error, having
    written nothing for it. *)
Theorem later_top_with_taken_name_collides (fuel : nat) (tops : list nat)
    (domain : option string) (package : Package) (s' : ProtoExporter)
    (m1 m2 : nat) (pm1 : PModule) (n2 : string) :
  run_export int_fits graph (S fuel) tops domain = (Ok package, s') →
  modules s' !! m1 = Some pm1 →
  modules s' !! m2 = None →
  name (graph m2) = Some n2 →
  qn_name (pmod_name pm1) = _pymodule (graph m2) +:+ "." +:+ n2 →
  interfaces (graph m2) = [] →
  run_export int_fits graph (S fuel) (tops ++ [m2]) domain =
    (Err (Raise RuntimeError
            (ConflictingName m2 (default "" domain,
                                 _pymodule (graph m2) +:+ "." +:+ n2))), s').
Proof.
  intros Hrun Hm1 Hm2 Hn2 Hq Hif.
  destruct (run_export_state _ _ _ _ _ Hrun)
    as (-> & Hname & [order Hinv] & _ & Hrec & _).
  destruct (inv_names _ _ _ Hinv m1 pm1 Hm1) as (n1 & Hn1 & Hq1).
  rewrite Hq1 in Hq. cbn [qn_name] in Hq.
  assert (export_module int_fits graph (S fuel) m2 s' =
            (Err (Raise RuntimeError
               (ConflictingName m2 (pkg_name (pkg s'),
                                    _pymodule (graph m2) +:+ "." +:+ n2))), s'))
    as Hcol.
  { apply (later_module_with_taken_name_collides int_fits graph fuel order s' m1 m2 n1 n2);
      try done.
    - apply (inv_dom _ _ _ Hinv). eauto.
    - rewrite (inv_dom _ _ _ Hinv), Hm2. by intros [? ?]. }
  rewrite Hname in Hcol.
  unfold run_export, export in *. monad_unfold.
  rewrite for_each_app.
  destruct (for_each _ tops (ProtoExporter_init domain))
    as [[[]|e] s1]; [|discriminate].
  injection Hrun as _ ->.
  cbn [for_each]. monad_unfold. by rewrite Hcol.
Qed.

(** ** Cycles *)

(** X19: A hierarchy in which a top reaches a Module that holds an Instance of
    itself, directly or through others, is not exported, whatever the
    recursion limit: the run raises, and no Module from which the cycle can
    be reached has been written. *)
Theorem cyclic_hierarchy_is_not_exported (fuel : nat) (tops : list nat)
    (domain : option string) (top m : nat) :
  top ∈ tops →
  rtc (instantiates graph) top m → tc (instantiates graph) m m →
  let run := run_export int_fits graph fuel tops domain in
  is_Err run.1 ∧
  ∀ b, reaches_cycle (instantiates graph) b → modules run.2 !! b = None.
Proof.
  intros Htop Hr Hc. cbn zeta.
  set (B := reaches_cycle (instantiates graph)).
  destruct (export_module_stuck int_fits graph B (reaches_cycle_closed _) fuel)
    as [Hk Hfail].
  assert (unexported B (ProtoExporter_init domain)) as Hinit.
  { intros b _. apply lookup_empty. }
  split.
  - unfold run_export, export. monad_unfold.
    pose proof (for_each_fails (unexported B)
                  (λ m0, export_module int_fits graph fuel m0 ≫= λ _, mret ())
                  tops top (ProtoExporter_init domain) Htop) as Hloop.
    monad_unfold.
    destruct (for_each _ tops (ProtoExporter_init domain)) as [[[]|e] s1];
      [|done].
    exfalso. apply Hloop; [| |done].
    + intros y s0 _ Hs0. pose proof (Hk y s0 Hs0) as Hy.
      by destruct (export_module int_fits graph fuel y s0) as [[pm|e] s2].
    + intros s0 Hs0.
      assert (B top) as Hb by (by exists m).
      pose proof (Hfail top s0 Hb Hs0) as He.
      by destruct (export_module int_fits graph fuel top s0) as [[pm|e] s2].
  - assert (PreOrder (keeps_out B)) as Hpre.
    { split; [by intros s H|].
      intros s1 s2 s3 H1 H2 H. by apply H2, H1. }
    by apply (run_export_respects (keeps_out B) fuel tops domain Hk).
Qed.

End ProtoStructure.

(** * More on the base elaborator: what a run does, as a whole *)

Section ElabRuns.
Import Primitives Elab.

Variable graph : Graph.
Variable pass : Pass.

(** The Modules on which the effects [T] call the hook, in order. *)
Definition hook_calls (T : list Event) : list nat :=
  omap (λ e, match e with Call_elaborate_module m => Some m | _ => None end) T.

Lemma elem_of_hook_calls m T :
  m ∈ hook_calls T ↔ Call_elaborate_module m ∈ T.
Proof.
  unfold hook_calls. rewrite list_elem_of_omap. split.
  - intros (e & He & Hm). destruct e; try discriminate.
    by injection Hm as ->.
  - intros H. by exists (Call_elaborate_module m).
Qed.

Lemma hook_calls_app T1 T2 :
  hook_calls (T1 ++ T2) = hook_calls T1 ++ hook_calls T2.
Proof. apply omap_app. Qed.

(** An effect other than a call of the Module hook. *)
Definition plain (e : Event) : Prop := ∀ m, e ≠ Call_elaborate_module m.

(** ** [elaborate_module_base], one level unfolded *)

Lemma elaborate_module_base_unfold fuel x s :
  elaborate_module_base graph pass (S fuel) x s =
  if bool_decide (x ∈ dom (modules s)) then (Ok x, s)
  else if falsy_name (name (graph x)) then
    (Err (Raise RuntimeError (AnonymousModule x)), s)
  else
    match elaborate_children pass (elaborate_module_base graph pass fuel)
                             (graph x) s with
    | (Err e, s1) => (Err e, s1)
    | (Ok _, s1) =>
        match elaborate_module pass x with
        | Ok r => (Ok r, cache_result x r
                           (add_effect (Call_elaborate_module x) s1))
        | Err e => (Err e, add_effect (Call_elaborate_module x) s1)
        end
    end.
Proof.
  simpl. unfold emit. monad_unfold.
  destruct (bool_decide _); [done|]. destruct (falsy_name _); [done|].
  destruct (elaborate_children _ _ _ s) as [[[]|e] s1]; [|done].
  by destruct (elaborate_module pass x).
Qed.

(** The traversal of the children, for relations that plain effects
    respect. *)
Lemma elaborate_instantiable_respects
    (Rel : Elaborator → Elaborator → Prop) `{!PreOrder Rel} rec t :
  (∀ e s, plain e → Rel s (add_effect e s)) →
  (∀ c, t = Some (IModule c) → preserves Rel (rec c)) →
  preserves Rel (elaborate_instantiable pass rec t).
Proof.
  intros Hplain Hrec. destruct t as [[c|call|call|g]|]; simpl;
    unfold emit; repeat pres_step.
  - by apply Hrec.
  - apply (preserves_modify Rel). intros s. by apply Hplain.
  - apply (preserves_modify Rel). intros s. by apply Hplain.
Qed.

Lemma elaborate_children_respects
    (Rel : Elaborator → Elaborator → Prop) `{!PreOrder Rel} rec m :
  (∀ e s, plain e → Rel s (add_effect e s)) →
  (∀ c, c ∈ child_modules m → preserves Rel (rec c)) →
  preserves Rel (elaborate_children pass rec m).
Proof.
  intros Hplain Hrec. unfold elaborate_children.
  apply (preserves_bind Rel).
  { apply (preserves_for_each Rel). intros inst Hinst.
    pres_step; [|pres_step]. unfold elaborate_instance, emit.
    pres_step; [apply (preserves_modify Rel); intros s; by apply Hplain|].
    apply (elaborate_instantiable_respects Rel); [done|].
    intros c Hc. apply Hrec. unfold child_modules. apply elem_of_app. left.
    apply list_elem_of_omap. exists inst. split; [done|]. by rewrite Hc. }
  intros _. apply (preserves_bind Rel).
  { apply (preserves_for_each Rel). intros arr Harr.
    pres_step; [|pres_step]. unfold elaborate_instance_array, emit.
    pres_step; [apply (preserves_modify Rel); intros s; by apply Hplain|].
    apply (elaborate_instantiable_respects Rel); [done|].
    intros c Hc. apply Hrec. unfold child_modules. apply elem_of_app. right.
    apply list_elem_of_omap. exists arr. split; [done|]. by rewrite Hc. }
  intros _. apply (preserves_for_each Rel). intros b _.
  unfold elaborate_bundle_instance, emit.
  apply (preserves_modify Rel). intros s. by apply Hplain.
Qed.

(** ** Nothing is rewritten *)

(** The cache keeps its entries, the effects grow at the end, and every
    Module that enters the cache has had the hook called on it. *)
Definition steps (s s' : Elaborator) : Prop :=
  modules s ⊆ modules s' ∧
  ∃ T, effects s' = effects s ++ T ∧
       ∀ m, m ∈ dom (modules s') → m ∉ dom (modules s) →
            Call_elaborate_module m ∈ T.

#[local] Instance steps_preorder : PreOrder steps.
Proof.
  split.
  - intros s. split; [done|]. exists []. rewrite app_nil_r. split; [done|].
    intros m Hm Hn. done.
  - intros s1 s2 s3 (A1 & T1 & E1 & Q1) (A2 & T2 & E2 & Q2).
    split; [by etrans|]. exists (T1 ++ T2).
    split; [by rewrite E2, E1, app_assoc|].
    intros m H3 H1. apply elem_of_app.
    destruct (decide (m ∈ dom (modules s2))) as [H2|H2].
    + left. by apply Q1.
    + right. by apply Q2.
Qed.

Lemma steps_add_effect e s : steps s (add_effect e s).
Proof.
  split; [done|]. exists [e]. split; [done|]. intros m Hm Hn. done.
Qed.

Lemma module_base_steps fuel x :
  preserves steps (elaborate_module_base graph pass fuel x).
Proof.
  revert x. induction fuel as [|fuel IH]; intros x; [simpl; pres_step|].
  intros s. rewrite elaborate_module_base_unfold.
  destruct (bool_decide _) eqn:Hc; [reflexivity|].
  apply bool_decide_eq_false in Hc.
  destruct (falsy_name _); [reflexivity|].
  pose proof (elaborate_children_respects steps
                (elaborate_module_base graph pass fuel) (graph x)
                (λ e s0 _, steps_add_effect e s0) (λ c _, IH c) s) as Hl.
  destruct (children_do_not_call_hook graph pass fuel x s Hc)
    as (T' & ET' & HT').
  destruct (elaborate_children _ _ _ s) as [[[]|e] s1]; [|exact Hl].
  cbn [snd] in *. destruct Hl as (Hsub & T & ET & HT).
  rewrite ET in ET'. apply app_inv_head in ET'. subst T'.
  assert (x ∉ dom (modules s1)) as Hfresh.
  { intros Hx. apply HT'. by apply HT. }
  assert (effects (add_effect (Call_elaborate_module x) s1) =
          effects s ++ (T ++ [Call_elaborate_module x])) as ET2.
  { cbn. by rewrite ET, app_assoc. }
  destruct (elaborate_module pass x) as [r|e]; cbn [snd].
  - split.
    + cbn [modules cache_result add_effect]. etrans; [exact Hsub|].
      apply insert_subseteq. by apply not_elem_of_dom.
    + exists (T ++ [Call_elaborate_module x]). split; [exact ET2|].
      intros m Hm Hn. cbn [modules cache_result add_effect] in Hm.
      rewrite dom_insert_L in Hm. apply elem_of_app.
      apply elem_of_union in Hm as [Hm|Hm].
      * apply elem_of_singleton in Hm as ->. right. left.
      * left. by apply HT.
  - split; [done|]. exists (T ++ [Call_elaborate_module x]).
    split; [exact ET2|]. intros m Hm Hn. apply elem_of_app. left.
    by apply HT.
Qed.

(** X21: Whatever the state and whether it returns or raises,
    [elaborate_module_base] changes and removes no cache entry and only
    adds to the effects. *)
Theorem elaboration_only_adds (fuel : nat) (x : nat) (s : Elaborator) :
  modules s ⊆ modules (elaborate_module_base graph pass fuel x s).2 ∧
  effects s `prefix_of` effects (elaborate_module_base graph pass fuel x s).2.
Proof.
  destruct (module_base_steps fuel x s) as (Hsub & T & ET & _).
  split; [done|]. by exists T.
Qed.

(** ** The hook runs at most once on a Module *)

(** No Module has had the hook called twice, and every Module on which
    it was called is in the cache. *)
Definition clean (s : Elaborator) : Prop :=
  NoDup (hook_calls (effects s)) ∧
  ∀ m, m ∈ hook_calls (effects s) → m ∈ dom (modules s).

(** From a clean state, [c] leaves no Module with two calls, and a clean
    state again unless it raises. *)
Definition tidy {A} (c : M Elaborator A) : Prop :=
  ∀ s, clean s →
    NoDup (hook_calls (effects (c s).2)) ∧
    (¬ is_Err (c s).1 → clean (c s).2).

Lemma tidy_ret {A} (a : A) : tidy (mret a).
Proof. intros s Hs. split; [apply (proj1 Hs)|done]. Qed.

Lemma tidy_throw {A} c msg : tidy (throw (A:=A) c msg).
Proof. intros s Hs. split; [apply (proj1 Hs)|]. intros H. exfalso. apply H. exact I. Qed.

Lemma tidy_lift_res {A} (r : Res A) : tidy (lift_res r).
Proof. intros s Hs. split; [apply (proj1 Hs)|done]. Qed.

Lemma tidy_bind {A B} (m : M Elaborator A) (k : A → M Elaborator B) :
  tidy m → (∀ a, tidy (k a)) → tidy (m ≫= k).
Proof.
  intros Hm Hk s Hs. monad_unfold. specialize (Hm s Hs).
  destruct (m s) as [[a|e] s1]; cbn [fst snd] in *.
  - apply Hk. apply Hm. intros H. exact H.
  - split; [apply (proj1 Hm)|]. intros H. exfalso. apply H. exact I.
Qed.

Lemma tidy_for_each {A} (body : A → M Elaborator unit) xs :
  (∀ x, x ∈ xs → tidy (body x)) → tidy (for_each body xs).
Proof.
  induction xs as [|x xs IH]; intros Hb; simpl.
  - apply tidy_ret.
  - apply tidy_bind; [apply Hb; left|].
    intros _. apply IH. intros y Hy. apply Hb. by right.
Qed.

Lemma tidy_emit e : plain e → tidy (emit e).
Proof.
  intros He s [Hnd Hall]. unfold emit. monad_unfold. cbn [fst snd].
  assert (hook_calls (effects (add_effect e s)) = hook_calls (effects s))
    as Heq.
  { cbn. rewrite hook_calls_app. destruct e; simpl;
      try (by rewrite app_nil_r). by destruct (He module). }
  rewrite Heq. split; [done|]. intros _. split; [by rewrite Heq|].
  intros m. rewrite Heq. apply Hall.
Qed.

Lemma tidy_instantiable rec t :
  (∀ c, tidy (rec c)) → tidy (elaborate_instantiable pass rec t).
Proof.
  intros Hrec. destruct t as [[c|call|call|g]|]; simpl.
  - apply tidy_bind; [apply Hrec|]. intros r. apply tidy_ret.
  - apply tidy_bind; [by apply tidy_emit|]. intros _.
    apply tidy_bind; [apply tidy_lift_res|]. intros r. apply tidy_ret.
  - apply tidy_bind; [by apply tidy_emit|]. intros _.
    apply tidy_bind; [apply tidy_lift_res|]. intros r. apply tidy_ret.
  - apply tidy_throw.
  - apply tidy_throw.
Qed.

Lemma tidy_children rec m :
  (∀ c, tidy (rec c)) → tidy (elaborate_children pass rec m).
Proof.
  intros Hrec. unfold elaborate_children.
  apply tidy_bind.
  { apply tidy_for_each. intros inst _. apply tidy_bind; [|intros; apply tidy_ret].
    unfold elaborate_instance. apply tidy_bind; [by apply tidy_emit|].
    intros _. by apply tidy_instantiable. }
  intros _. apply tidy_bind.
  { apply tidy_for_each. intros arr _. apply tidy_bind; [|intros; apply tidy_ret].
    unfold elaborate_instance_array. apply tidy_bind; [by apply tidy_emit|].
    intros _. by apply tidy_instantiable. }
  intros _. apply tidy_for_each. intros b _.
  unfold elaborate_bundle_instance. by apply tidy_emit.
Qed.

Lemma tidy_module_base fuel x :
  tidy (elaborate_module_base graph pass fuel x).
Proof.
  revert x. induction fuel as [|fuel IH]; intros x; [apply tidy_throw|].
  intros s Hs. rewrite elaborate_module_base_unfold.
  destruct (bool_decide _) eqn:Hc; [split; [apply (proj1 Hs)|done]|].
  apply bool_decide_eq_false in Hc.
  destruct (falsy_name _).
  { split; [apply (proj1 Hs)|]. intros H. exfalso. apply H. exact I. }
  pose proof (tidy_children _ (graph x) IH s Hs) as Hch.
  destruct (children_do_not_call_hook graph pass fuel x s Hc)
    as (T & ET & HT).
  destruct (elaborate_children _ _ _ s) as [[[]|e] s1]; cbn [fst snd] in *.
  2:{ split; [apply (proj1 Hch)|]. intros H. exfalso. apply H. exact I. }
  destruct Hch as [_ Hch]. destruct Hch as [Hnd Hall]; [intros H; exact H|].
  assert (x ∉ hook_calls (effects s1)) as Hfresh.
  { rewrite ET, hook_calls_app, elem_of_app, !elem_of_hook_calls.
    intros [Hx|Hx]; [|done].
    apply Hc. apply Hs. by apply elem_of_hook_calls. }
  assert (hook_calls (effects (add_effect (Call_elaborate_module x) s1)) =
          hook_calls (effects s1) ++ [x]) as Heq.
  { cbn. by rewrite hook_calls_app. }
  assert (NoDup (hook_calls (effects s1) ++ [x])) as Hnd'.
  { apply NoDup_app. split; [done|]. split; [|apply NoDup_singleton].
    intros m Hm Hmx. apply list_elem_of_singleton in Hmx as ->. done. }
  destruct (elaborate_module pass x) as [r|e]; cbn [fst snd] in *.
  - cbn [effects cache_result]. rewrite Heq. split; [done|].
    intros _. split; [cbn [effects cache_result]; by rewrite Heq|].
    intros m. cbn [effects modules cache_result]. rewrite Heq.
    rewrite dom_insert_L, elem_of_app, list_elem_of_singleton.
    cbn [modules add_effect]. intros [Hm| ->]; [|set_solver].
    apply elem_of_union. right. by apply Hall.
  - rewrite Heq. split; [done|]. intros H. exfalso. apply H. exact I.
Qed.

Lemma init_clean : clean Elaborator_init.
Proof.
  split; [constructor|]. intros m Hm. by apply elem_of_nil in Hm.
Qed.

(** X22: In a run of a fresh engine, whether it returns or raises, the hook
    [elaborate_module] is called at most once on each Module, however
    many Instances point to it. *)
Theorem module_hook_called_at_most_once (fuel : nat) (top : Instantiable) :
  NoDup (hook_calls (effects (elaborate graph pass fuel top).2)).
Proof.
  unfold elaborate, elaborate_top.
  destruct top as [m| | |]; try (simpl; constructor).
  apply (proj1 (tidy_module_base fuel m Elaborator_init init_clean)).
Qed.

(** ** A run that returns has visited what the top reaches *)

Lemma module_base_Ok_cached fuel x s r :
  (elaborate_module_base graph pass fuel x s).1 = Ok r →
  x ∈ dom (modules (elaborate_module_base graph pass fuel x s).2).
Proof.
  destruct fuel as [|fuel]; [discriminate|].
  rewrite elaborate_module_base_unfold.
  destruct (bool_decide _) eqn:Hc.
  { intros _. by apply bool_decide_eq_true in Hc. }
  destruct (falsy_name _); [discriminate|].
  destruct (elaborate_children _ _ _ s) as [[[]|e] s1]; [|discriminate].
  destruct (elaborate_module pass x) as [r'|e]; [|discriminate].
  intros _. cbn [snd modules cache_result]. rewrite dom_insert_L.
  apply elem_of_union. left. by apply elem_of_singleton.
Qed.

Definition dom_steps (s s' : Elaborator) : Prop :=
  dom (modules s) ⊆ dom (modules s').

#[local] Instance dom_steps_preorder : PreOrder dom_steps.
Proof.
  split.
  - intros s. unfold dom_steps. set_solver.
  - intros s1 s2 s3 H1 H2. unfold dom_steps in *. set_solver.
Qed.

Lemma steps_dom s s' : steps s s' → dom_steps s s'.
Proof. intros [Hsub _]. by apply subseteq_dom. Qed.

Lemma instantiable_dom_steps fuel t s :
  dom_steps s (elaborate_instantiable pass
                 (elaborate_module_base graph pass fuel) t s).2.
Proof.
  apply steps_dom.
  apply (elaborate_instantiable_respects steps); [|].
  - intros e s0 _. apply steps_add_effect.
  - intros c _. apply module_base_steps.
Qed.

Lemma instantiable_Ok_cached fuel c s :
  ¬ is_Err (elaborate_instantiable pass (elaborate_module_base graph pass fuel)
              (Some (IModule c)) s).1 →
  c ∈ dom (modules (elaborate_instantiable pass
                      (elaborate_module_base graph pass fuel)
                      (Some (IModule c)) s).2).
Proof.
  simpl. monad_unfold.
  pose proof (module_base_Ok_cached fuel c s) as Hc.
  destruct (elaborate_module_base graph pass fuel c s) as [[r|e] s1].
  - intros _. by apply (Hc r).
  - intros H. exfalso. apply H. exact I.
Qed.

(** After the loops over the children have returned, every child Module
    is in the cache. *)
Lemma children_Ok_cached fuel m s :
  (elaborate_children pass (elaborate_module_base graph pass fuel) m s).1
    = Ok () →
  ∀ c, c ∈ child_modules m →
    c ∈ dom (modules (elaborate_children pass
                        (elaborate_module_base graph pass fuel) m s).2).
Proof.
  unfold elaborate_children. intros Hok c Hc.
  set (rec := elaborate_module_base graph pass fuel) in *.
  set (body_i := λ inst : Instance,
         elaborate_instance pass rec inst ≫= λ _, mret ()) in *.
  set (body_a := λ arr : InstArray,
         elaborate_instance_array pass rec arr ≫= λ _, mret ()) in *.
  assert (∀ y s0, dom_steps s0 (body_i y s0).2) as Hgi.
  { intros y s0. unfold body_i, elaborate_instance, emit. monad_unfold.
    pose proof (instantiable_dom_steps fuel (_resolved y)
                  (add_effect (SetElaborated_instance y) s0)) as H.
    fold rec in H.
    by destruct (elaborate_instantiable pass rec (_resolved y) _)
      as [[r|e] s1]. }
  assert (∀ y s0, dom_steps s0 (body_a y s0).2) as Hga.
  { intros y s0. unfold body_a, elaborate_instance_array, emit. monad_unfold.
    pose proof (instantiable_dom_steps fuel (arr_resolved y)
                  (add_effect (SetElaborated_array y) s0)) as H.
    fold rec in H.
    by destruct (elaborate_instantiable pass rec (arr_resolved y) _)
      as [[r|e] s1]. }
  monad_unfold.
  destruct (for_each body_i (instances m) s) as [[[]|e] s1] eqn:Hi;
    [|discriminate].
  destruct (for_each body_a (instarrays m) s1) as [[[]|e] s2] eqn:Ha;
    [|discriminate].
  rewrite for_each_bundles. cbn [snd modules].
  assert (dom_steps s1 s2) as H12.
  { assert (dom_steps s1 (for_each body_a (instarrays m) s1).2) as H.
    { apply (preserves_for_each dom_steps). intros y _ s0. apply Hga. }
    by rewrite Ha in H. }
  unfold child_modules in Hc.
  apply elem_of_app in Hc as [Hc|Hc];
    apply list_elem_of_omap in Hc as (x & Hx & Htx).
  - apply H12.
    refine (for_each_Ok_post
             (λ inst s0, ∀ c, target_module (_resolved inst) = Some c →
                              c ∈ dom (modules s0))
             body_i (instances m) s s1 Hi _ _ x Hx c Htx).
    + intros inst s0 s3 _ Hrun c' Hc'.
      destruct (_resolved inst) as [[c''| | |]|] eqn:Hr; try discriminate.
      injection Hc' as ->.
      unfold body_i, elaborate_instance, emit in Hrun. monad_unfold.
      rewrite Hr in Hrun.
      pose proof (instantiable_Ok_cached fuel c'
                    (add_effect (SetElaborated_instance inst) s0)) as Hcached.
      fold rec in Hcached.
      destruct (elaborate_instantiable pass rec (Some (IModule c')) _)
        as [[r|e] s4]; [|discriminate].
      injection Hrun as <-. apply Hcached. intros H. exact H.
    + intros inst y s0 _ Hq c' Hc'. apply (Hgi y s0). by apply Hq.
  - refine (for_each_Ok_post
             (λ arr s0, ∀ c, target_module (arr_resolved arr) = Some c →
                             c ∈ dom (modules s0))
             body_a (instarrays m) s1 s2 Ha _ _ x Hx c Htx).
    + intros arr s0 s3 _ Hrun c' Hc'.
      destruct (arr_resolved arr) as [[c''| | |]|] eqn:Hr; try discriminate.
      injection Hc' as ->.
      unfold body_a, elaborate_instance_array, emit in Hrun. monad_unfold.
      rewrite Hr in Hrun.
      pose proof (instantiable_Ok_cached fuel c'
                    (add_effect (SetElaborated_array arr) s0)) as Hcached.
      fold rec in Hcached.
      destruct (elaborate_instantiable pass rec (Some (IModule c')) _)
        as [[r|e] s4]; [|discriminate].
      injection Hrun as <-. apply Hcached. intros H. exact H.
    + intros arr y s0 _ Hq c' Hc'. apply (Hga y s0). by apply Hq.
Qed.

(** The cache is closed under children. *)
Definition closed (s : Elaborator) : Prop :=
  ∀ m c, m ∈ dom (modules s) → child graph m c → c ∈ dom (modules s).

Definition keeps_closed (s s' : Elaborator) : Prop := closed s → closed s'.

#[local] Instance keeps_closed_preorder : PreOrder keeps_closed.
Proof.
  split.
  - intros s H. exact H.
  - intros s1 s2 s3 H1 H2 H. by apply H2, H1.
Qed.

Lemma module_base_keeps_closed fuel x :
  preserves keeps_closed (elaborate_module_base graph pass fuel x).
Proof.
  revert x. induction fuel as [|fuel IH]; intros x; [simpl; pres_step|].
  intros s. rewrite elaborate_module_base_unfold.
  destruct (bool_decide _) eqn:Hc; [reflexivity|].
  destruct (falsy_name _); [reflexivity|].
  pose proof (elaborate_children_respects keeps_closed
                (elaborate_module_base graph pass fuel) (graph x)
                (λ e s0 _ H, H) (λ c _, IH c) s) as Hl.
  pose proof (children_Ok_cached fuel (graph x) s) as Hkids.
  destruct (elaborate_children _ _ _ s) as [[[]|e] s1]; [|exact Hl].
  cbn [fst snd] in *. specialize (Hkids eq_refl).
  destruct (elaborate_module pass x) as [r|e]; [|exact Hl].
  intros Hs m c. cbn [snd modules cache_result add_effect].
  rewrite !dom_insert_L, !elem_of_union, elem_of_singleton.
  intros [->|Hm] Hmc; right.
  - by apply Hkids.
  - by apply (Hl Hs m c).
Qed.

Lemma run_Ok_visits_reachable (fuel : nat) (top : nat)
    (r : nat) (s : Elaborator) :
  elaborate graph pass fuel (IModule top) = (Ok r, s) →
  ∀ m, (m ∈ dom (modules s) ↔ rtc (child graph) top m) ∧
       (Call_elaborate_module m ∈ effects s ↔ rtc (child graph) top m).
Proof.
  unfold elaborate, elaborate_top. intros Hrun m.
  pose proof (module_base_steps fuel top Elaborator_init)
    as (_ & T & ET & HT).
  pose proof (module_base_traced graph pass fuel top Elaborator_init)
    as (_ & T' & ET' & HT').
  pose proof (module_base_keeps_closed fuel top Elaborator_init) as Hcl.
  pose proof (module_base_Ok_cached fuel top Elaborator_init r) as Htop.
  pose proof (proj1 (tidy_module_base fuel top Elaborator_init init_clean))
    as _.
  pose proof (proj2 (tidy_module_base fuel top Elaborator_init init_clean))
    as Hclean.
  rewrite Hrun in *. cbn [fst snd] in *.
  rewrite ET in ET'. apply app_inv_head in ET'. subst T'.
  simpl in ET. subst T.
  assert (Call_elaborate_module m ∈ effects s → rtc (child graph) top m)
    as Hcalled.
  { intros Hm. destruct (HT' m Hm) as (c & <- & Hpath & _).
    eapply rtc_subrel; [|exact Hpath]. by intros a b [_ ?]. }
  assert (closed s) as Hclosed.
  { apply Hcl. intros m0 c0 Hm0. simpl in Hm0. rewrite dom_empty_L in Hm0.
    by apply not_elem_of_empty in Hm0. }
  assert (∀ m', rtc (child graph) top m' → m' ∈ dom (modules s)) as Hreach.
  { apply rtc_ind_r.
    - by apply Htop.
    - intros a b _ Hab IH. by apply (Hclosed a b). }
  split; split.
  - intros Hm. apply Hcalled. apply HT; [done|]. simpl.
    rewrite dom_empty_L. apply not_elem_of_empty.
  - apply Hreach.
  - exact Hcalled.
  - intros Hpath. apply HT; [by apply Hreach|]. simpl.
    rewrite dom_empty_L. apply not_elem_of_empty.
Qed.

(** X23: A run of a fresh engine that returns has put in the cache exactly the
    Modules that the top reaches through Instances and InstArrays, and
    has called the hook on exactly these. *)
Theorem successful_run_visits_what_top_reaches (fuel : nat) (top : nat)
    (r : nat) (s : Elaborator) :
  elaborate graph pass fuel (IModule top) = (Ok r, s) →
  ∀ m, (m ∈ dom (modules s) ↔ rtc (child graph) top m) ∧
       (Call_elaborate_module m ∈ effects s ↔ rtc (child graph) top m).
Proof. exact (run_Ok_visits_reachable fuel top r s). Qed.

(** ** What the cache holds *)

Definition sound (s : Elaborator) : Prop :=
  ∀ m r, modules s !! m = Some r → elaborate_module pass m = Ok r.

Definition keeps_sound (s s' : Elaborator) : Prop := sound s → sound s'.

#[local] Instance keeps_sound_preorder : PreOrder keeps_sound.
Proof.
  split.
  - intros s H. exact H.
  - intros s1 s2 s3 H1 H2 H. by apply H2, H1.
Qed.

Lemma module_base_keeps_sound fuel x :
  preserves keeps_sound (elaborate_module_base graph pass fuel x).
Proof.
  revert x. induction fuel as [|fuel IH]; intros x; [simpl; pres_step|].
  intros s. rewrite elaborate_module_base_unfold.
  destruct (bool_decide _) eqn:Hc; [reflexivity|].
  destruct (falsy_name _); [reflexivity|].
  pose proof (elaborate_children_respects keeps_sound
                (elaborate_module_base graph pass fuel) (graph x)
                (λ e s0 _ H, H) (λ c _, IH c) s) as Hl.
  destruct (elaborate_children _ _ _ s) as [[[]|e] s1]; [|exact Hl].
  cbn [fst snd] in *.
  destruct (elaborate_module pass x) as [r|e] eqn:Hhook; [|exact Hl].
  intros Hs m r'. cbn [snd modules cache_result add_effect].
  destruct (decide (m = x)) as [->|Hne].
  - rewrite lookup_insert_eq. by intros [= <-].
  - rewrite lookup_insert_ne by done. by apply (Hl Hs).
Qed.

(** X24: A run of a fresh engine that returns gives back what the hook
    returned on the top, and every cache entry is what the hook returned
    on its Module. *)
Theorem run_returns_what_the_hook_returned (fuel : nat) (top : nat)
    (r : nat) (s : Elaborator) :
  elaborate graph pass fuel (IModule top) = (Ok r, s) →
  elaborate_module pass top = Ok r ∧
  modules s !! top = Some r ∧
  ∀ m r', modules s !! m = Some r' → elaborate_module pass m = Ok r'.
Proof.
  unfold elaborate, elaborate_top. intros Hrun.
  pose proof (module_base_keeps_sound fuel top Elaborator_init) as Hsound.
  rewrite Hrun in Hsound. cbn [snd] in Hsound.
  assert (sound s) as Hs.
  { apply Hsound. intros m r'. simpl. by rewrite lookup_empty. }
  destruct fuel as [|fuel]; [discriminate|].
  rewrite elaborate_module_base_unfold in Hrun.
  rewrite bool_decide_eq_false_2 in Hrun
    by (simpl; rewrite dom_empty_L; apply not_elem_of_empty).
  destruct (falsy_name _); [discriminate|].
  destruct (elaborate_children _ _ _ _) as [[[]|e] s1]; [|discriminate].
  destruct (elaborate_module pass top) as [r0|e] eqn:Hhook; [|discriminate].
  injection Hrun as <- <-. split; [done|]. split; [|exact Hs].
  cbn [modules cache_result]. apply lookup_insert_eq.
Qed.

(** ** A run returns only on a well-formed hierarchy *)

(** A target that the traversal gets past: a Module, or a call that the
    hook of the pass accepts. *)
Definition accepted (t : option Instantiable) : Prop :=
  match t with
  | Some (IModule _) => True
  | Some (IPrimitiveCall call) =>
      ∃ r, elaborate_primitive_call pass call = Ok r
  | Some (IExternalModuleCall call) =>
      ∃ r, elaborate_external_module pass call = Ok r
  | Some (IGeneratorCall _) | None => False
  end.

Definition well_formed (m : nat) : Prop :=
  falsy_name (name (graph m)) = false ∧
  Forall (λ inst, accepted (_resolved inst)) (instances (graph m)) ∧
  Forall (λ arr, accepted (arr_resolved arr)) (instarrays (graph m)).

Lemma instantiable_Ok_accepted rec t s r s' :
  elaborate_instantiable pass rec t s = (Ok r, s') → accepted t.
Proof.
  destruct t as [[c|call|call|g]|]; simpl; unfold emit; monad_unfold;
    try discriminate; try done.
  - destruct (elaborate_primitive_call pass call); [eauto|discriminate].
  - destruct (elaborate_external_module pass call); [eauto|discriminate].
Qed.

Lemma children_Ok_accepted rec m s :
  (elaborate_children pass rec m s).1 = Ok () →
  Forall (λ inst, accepted (_resolved inst)) (instances m) ∧
  Forall (λ arr, accepted (arr_resolved arr)) (instarrays m).
Proof.
  unfold elaborate_children. monad_unfold.
  destruct (for_each _ (instances m) s) as [[[]|e] s1] eqn:Hi;
    [|discriminate].
  destruct (for_each _ (instarrays m) s1) as [[[]|e] s2] eqn:Ha;
    [|discriminate].
  intros _. split; apply Forall_forall.
  - intros inst Hinst.
    refine (for_each_Ok_post (λ i _, accepted (_resolved i)) _
              (instances m) s s1 Hi _ _ inst Hinst); [|done].
    intros i s0 s3 _ Hrun. unfold elaborate_instance, emit in Hrun.
    monad_unfold.
    destruct (elaborate_instantiable pass rec (_resolved i) _)
      as [[r|e] s4] eqn:Hr; [|discriminate].
    by apply (instantiable_Ok_accepted _ _ _ _ _ Hr).
  - intros arr Harr.
    refine (for_each_Ok_post (λ a _, accepted (arr_resolved a)) _
              (instarrays m) s1 s2 Ha _ _ arr Harr); [|done].
    intros a s0 s3 _ Hrun. unfold elaborate_instance_array, emit in Hrun.
    monad_unfold.
    destruct (elaborate_instantiable pass rec (arr_resolved a) _)
      as [[r|e] s4] eqn:Hr; [|discriminate].
    by apply (instantiable_Ok_accepted _ _ _ _ _ Hr).
Qed.

Definition checked (s : Elaborator) : Prop :=
  ∀ m, m ∈ dom (modules s) → well_formed m.

Definition keeps_checked (s s' : Elaborator) : Prop := checked s → checked s'.

#[local] Instance keeps_checked_preorder : PreOrder keeps_checked.
Proof.
  split.
  - intros s H. exact H.
  - intros s1 s2 s3 H1 H2 H. by apply H2, H1.
Qed.

Lemma module_base_keeps_checked fuel x :
  preserves keeps_checked (elaborate_module_base graph pass fuel x).
Proof.
  revert x. induction fuel as [|fuel IH]; intros x; [simpl; pres_step|].
  intros s. rewrite elaborate_module_base_unfold.
  destruct (bool_decide _) eqn:Hc; [reflexivity|].
  destruct (falsy_name _) eqn:Hname; [reflexivity|].
  pose proof (elaborate_children_respects keeps_checked
                (elaborate_module_base graph pass fuel) (graph x)
                (λ e s0 _ H, H) (λ c _, IH c) s) as Hl.
  pose proof (children_Ok_accepted (elaborate_module_base graph pass fuel)
                (graph x) s) as Hacc.
  destruct (elaborate_children _ _ _ s) as [[[]|e] s1]; [|exact Hl].
  cbn [fst snd] in *. specialize (Hacc eq_refl).
  destruct (elaborate_module pass x) as [r|e]; [|exact Hl].
  intros Hs m. cbn [snd modules cache_result add_effect].
  rewrite dom_insert_L, elem_of_union, elem_of_singleton.
  intros [->|Hm]; [by split|by apply (Hl Hs)].
Qed.

(** X25: A run of a fresh engine returns only if every Module that the top
    reaches has a name and every Instance and InstArray of these Modules
    points to a Module or to a call that the pass accepts: none is
    without a target and none points to a generator call. *)
Theorem run_returns_only_on_well_formed (fuel : nat) (top : nat)
    (r : nat) (s : Elaborator) :
  elaborate graph pass fuel (IModule top) = (Ok r, s) →
  ∀ m, rtc (child graph) top m → well_formed m.
Proof.
  intros Hrun m Hm.
  destruct (run_Ok_visits_reachable fuel top r s Hrun m)
    as [Hdom _].
  apply Hdom in Hm.
  pose proof (module_base_keeps_checked fuel top Elaborator_init) as Hck.
  unfold elaborate, elaborate_top in Hrun. rewrite Hrun in Hck.
  cbn [snd] in Hck. apply Hck; [|done].
  intros m0 Hm0. simpl in Hm0. rewrite dom_empty_L in Hm0.
  by apply not_elem_of_empty in Hm0.
Qed.

(** ** Cycles *)

(** X26: A hierarchy in which the top reaches a Module that holds itself,
    directly or through others, is not elaborated, whatever the recursion
    limit: the run raises, and the hook has been called on no Module from
    which the cycle can be reached, the top among them. *)
Theorem cyclic_hierarchy_is_not_elaborated (fuel : nat) (top m : nat) :
  rtc (child graph) top m → tc (child graph) m m →
  let run := elaborate graph pass fuel (IModule top) in
  is_Err run.1 ∧
  ∀ b, reaches_cycle (child graph) b →
    (b ∉ dom (modules run.2)) ∧ (Call_elaborate_module b ∉ effects run.2).
Proof.
  intros Hr Hc. cbn zeta. unfold elaborate, elaborate_top.
  destruct (module_base_stuck graph pass (reaches_cycle (child graph))
              (reaches_cycle_closed (child graph)) fuel) as [Hq Hfail].
  assert (uncached (reaches_cycle (child graph)) Elaborator_init) as Hinit.
  { intros b _. simpl. rewrite dom_empty_L. apply not_elem_of_empty. }
  split.
  - apply Hfail; [by exists m|done].
  - destruct (Hq top Elaborator_init Hinit) as (Hout & T & HT & Hquiet).
    intros b Hb. split; [by apply Hout|].
    rewrite HT. simpl. by apply Hquiet.
Qed.

End ElabRuns.

(** * Enough recursion depth *)

Section Depth.
Import Primitives.

Variable int_fits : Z → bool.
Variable graph : Graph.

(** X27: In a hierarchy whose Modules have a rank that falls from each Module
    to the Modules of its Instances and InstArrays, a run of the engine
    from a top of rank below the recursion limit does not depend on the
    limit: a higher limit gives the same result, the same cache and the
    same effects. *)
Theorem elaborate_depth_suffices (pass : Elab.Pass) (rank : nat → nat)
    (n n' : nat) (top : nat) :
  (∀ p c, child graph p c → (rank c < rank p)%nat) →
  (rank top < n)%nat → (rank top < n')%nat →
  Elab.elaborate graph pass n (IModule top) =
  Elab.elaborate graph pass n' (IModule top).
Proof.
  intros Hrank Hn Hn'. unfold Elab.elaborate, Elab.elaborate_top.
  by apply (elaborate_module_base_fuel_stable graph pass rank Hrank).
Qed.

(** X20: In a hierarchy whose Modules have a rank that falls from each
    Module to the Modules of its Instances, an export with every top of
    rank below the recursion limit does not depend on the limit: a higher
    limit gives the same package and the same tables of the exporter. *)
Theorem export_depth_suffices (rank : nat → nat) (n n' : nat)
    (tops : list nat) (domain : option string) :
  (∀ p c, instantiates graph p c → (rank c < rank p)%nat) →
  (∀ top, top ∈ tops → (rank top < n)%nat ∧ (rank top < n')%nat) →
  Proto.run_export int_fits graph n tops domain = Proto.run_export int_fits graph n' tops domain.
Proof.
  intros Hrank Htops. unfold Proto.run_export, Proto.export. monad_unfold.
  rewrite (for_each_ext _ (λ m, Proto.export_module int_fits graph n' m ≫= λ _, mret ()));
    [done|].
  intros top s Htop. monad_unfold.
  destruct (Htops top Htop) as [Hn Hn'].
  by rewrite (export_module_fuel_stable int_fits graph rank Hrank n n' top s Hn Hn').
Qed.

End Depth.

(** * The further theorems at concrete inputs *)

Section MoreConcrete.
Import Primitives Examples MoreExamples.

Lemma mos_instance_cannot_be_exported_witness :
  Proto.export_instance int64_fits
    (Proto.export_module int64_fits leaf_graph 10) nmos_inst
    (Proto.ProtoExporter_init None) =
  (Err (Raise TypeError (InvalidInstanceParameter "tp" "m1")),
   Proto.ProtoExporter_init None).
Proof.
  apply (mos_instance_cannot_be_exported int64_fits (Proto.export_module int64_fits leaf_graph 10)
           nmos_inst nmos_call nmos_params (Proto.ProtoExporter_init None));
    reflexivity.
Defined.

(** With a 64-bit integer field, an Instance of [Mos] of width [2 ** 64]
    is refused at its width, before the loop reaches [tp]. *)
Example wide_mos_is_refused_at_its_width :
  Proto.export_instance int64_fits
    (Proto.export_module int64_fits leaf_graph 10)
    {| inst_name := "m2";
       _resolved := Some (IPrimitiveCall
         {| prim := Mos;
            params := MosParamsObj
              {| w := Some (2 ^ 64); l := Some 1; nser := 1; npar := 1;
                 tp := NMOS; vth := STD |} |});
       conns := [] |}
    (Proto.ProtoExporter_init None) =
  (Err (Raise ValueError (ValueOutOfRange (2 ^ 64))),
   Proto.ProtoExporter_init None).
Proof. vm_compute. reflexivity. Qed.

Lemma lowered_mos_cannot_be_exported_witness :
  (Proto.export_instance int64_fits (Proto.export_module int64_fits leaf_graph 10) lowered_nmos_inst
     (Proto.ProtoExporter_init None)).1 =
  Err (Raise TypeError (InvalidInstanceParameter "tp" "m1")).
Proof.
  apply (lowered_mos_cannot_be_exported int64_fits rvt_table visit_nothing
           Asap7.Asap7Walker_init nmos_inst lowered_nmos_inst nmos_call
           nmos_params (Proto.export_module int64_fits leaf_graph 10)
           (Proto.ProtoExporter_init None)).
  - apply init_cache_exact.
  - reflexivity.
  - reflexivity.
  - reflexivity.
  - vm_compute. reflexivity.
Defined.

Lemma package_entry_mirrors_module_witness :
  pdk_top_entry ∈ Proto.pkg_modules pdk_package ∧
  mirrors int64_fits pdk_graph pdk_run.2 0 pdk_top_entry.
Proof.
  apply (package_entry_mirrors_module int64_fits pdk_graph 10 [0%nat] None
           pdk_package pdk_run.2).
  - vm_compute. reflexivity.
  - vm_compute. reflexivity.
Defined.

Lemma package_references_resolve_witness :
  ∃ m, Proto.modules pdk_run.2 !! m = Some pdk_top_entry ∧
    Forall2 (λ inst pinst,
               ∀ c, _resolved inst = Some (IModule c) →
                 ∃ j pmc, (j < 1)%nat ∧
                          Proto.pkg_modules pdk_package !! j = Some pmc ∧
                          Proto.modules pdk_run.2 !! c = Some pmc ∧
                          Proto.module_qn pinst = Proto.pmod_name pmc)
            (instances (pdk_graph m)) (Proto.pmod_instances pdk_top_entry).
Proof.
  apply (package_references_resolve int64_fits pdk_graph 10 [0%nat] None
           pdk_package pdk_run.2).
  - vm_compute. reflexivity.
  - vm_compute. reflexivity.
Defined.

Lemma exported_hierarchy_is_supported_witness :
  interfaces (pdk_graph 0%nat) = [] ∧
  is_Some (name (pdk_graph 0%nat)) ∧
  Forall (λ inst,
            ((∃ c, _resolved inst = Some (IModule c) ∧
                   is_Some (Proto.modules pdk_run.2 !! c)) ∨
             (∃ call, _resolved inst = Some (IPrimitiveCall call)) ∨
             (∃ call, _resolved inst = Some (IExternalModuleCall call))) ∧
            Forall (λ kv, supported kv.2 = true)
                   (default [] (instance_params inst)) ∧
            Forall (λ kv, isinstance_int kv.2 = true →
                          int64_fits (Proto.int_value kv.2) = true)
                   (default [] (instance_params inst)) ∧
            Forall (λ kv, exportable_conn kv.2 = true) (conns inst))
         (instances (pdk_graph 0%nat)).
Proof.
  apply (exported_hierarchy_is_supported int64_fits pdk_graph 10 [0%nat] None
           pdk_package pdk_run.2).
  - vm_compute. reflexivity.
  - exists pdk_top_entry. vm_compute. reflexivity.
Defined.

Lemma external_modules_exported_once_witness :
  ∃ emods : list ExternalModule,
    NoDup (emod_id <$> emods) ∧
    Proto.pkg_ext_modules pdk_package = ext_wire <$> emods ∧
    (∀ emod, emod ∈ emods →
       Proto.ext_modules pdk_run.2 !! emod_id emod = Some (ext_wire emod) ∧
       called pdk_graph emod) ∧
    (∀ m inst call,
       is_Some (Proto.modules pdk_run.2 !! m) →
       inst ∈ instances (pdk_graph m) →
       _resolved inst = Some (IExternalModuleCall call) →
       emod_id (call_module call) ∈ emod_id <$> emods) ∧
    ((∀ e1 e2, called pdk_graph e1 → called pdk_graph e2 →
               emod_id e1 = emod_id e2 → e1 = e2) →
     ∀ m inst call,
       is_Some (Proto.modules pdk_run.2 !! m) →
       inst ∈ instances (pdk_graph m) →
       _resolved inst = Some (IExternalModuleCall call) →
       call_module call ∈ emods ∧
       Proto.ext_modules pdk_run.2 !! emod_id (call_module call) =
         Some (ext_wire (call_module call))).
Proof.
  apply (external_modules_exported_once int64_fits pdk_graph 10 [0%nat] None
           pdk_package pdk_run.2).
  vm_compute. reflexivity.
Defined.

(** The foreign cell, instantiated twice, is in the package once. *)
Example pdk_package_ext_modules :
  Proto.pemod_name <$> Proto.pkg_ext_modules pdk_package = ["cell"].
Proof. vm_compute. reflexivity. Qed.

Lemma top_listed_again_changes_nothing_witness :
  Proto.run_export int64_fits diamond_graph 10 ([0%nat] ++ [0%nat]) None =
  (Ok diamond_package, diamond_run.2).
Proof.
  apply (top_listed_again_changes_nothing int64_fits diamond_graph 10 [0%nat] None
           diamond_package diamond_run.2 0).
  - vm_compute. reflexivity.
  - apply list_elem_of_singleton. reflexivity.
Defined.

Lemma later_top_with_taken_name_collides_witness :
  Proto.run_export int64_fits leaf_graph 10 ([0%nat] ++ [1%nat]) None =
  (Err (Raise RuntimeError
          (ConflictingName 1 ("", "lib" +:+ "." +:+ "top"))), leaf_run.2).
Proof.
  apply (later_top_with_taken_name_collides int64_fits leaf_graph 9 [0%nat] None
           leaf_package leaf_run.2 0 1 leaf_entry "top").
  - vm_compute. reflexivity.
  - vm_compute. reflexivity.
  - vm_compute. reflexivity.
  - reflexivity.
  - reflexivity.
  - reflexivity.
Defined.

Lemma loop_instantiates_1_2 : instantiates loop_graph 1 2.
Proof. apply list_elem_of_singleton. reflexivity. Qed.

Lemma loop_instantiates_2_1 : instantiates loop_graph 2 1.
Proof. apply list_elem_of_singleton. reflexivity. Qed.

Lemma loop_instantiates_0_1 : instantiates loop_graph 0 1.
Proof. apply list_elem_of_singleton. reflexivity. Qed.

Lemma cyclic_hierarchy_is_not_exported_witness :
  is_Err (Proto.run_export int64_fits loop_graph 10 [0%nat] None).1 ∧
  ∀ b, reaches_cycle (instantiates loop_graph) b →
    Proto.modules (Proto.run_export int64_fits loop_graph 10 [0%nat] None).2 !! b = None.
Proof.
  apply (cyclic_hierarchy_is_not_exported int64_fits loop_graph 10 [0%nat] None 0 1).
  - apply list_elem_of_singleton. reflexivity.
  - apply rtc_once, loop_instantiates_0_1.
  - apply (tc_l _ 1%nat 2%nat 1%nat loop_instantiates_1_2).
    apply tc_once, loop_instantiates_2_1.
Defined.

Lemma mixed_children_child_0_1 : child mixed_children_graph 0 1.
Proof. apply list_elem_of_singleton. reflexivity. Qed.

Lemma successful_run_visits_what_top_reaches_witness :
  (1%nat ∈ dom (Elab.modules mixed_children_run.2) ↔
     rtc (child mixed_children_graph) 0%nat 1%nat) ∧
  (Elab.Call_elaborate_module 1 ∈ Elab.effects mixed_children_run.2 ↔
     rtc (child mixed_children_graph) 0%nat 1%nat).
Proof.
  apply (successful_run_visits_what_top_reaches mixed_children_graph
           Elab.base_pass 10 0 0 mixed_children_run.2).
  vm_compute. reflexivity.
Defined.

Lemma run_returns_what_the_hook_returned_witness :
  Elab.elaborate_module copying_pass 0%nat = Ok 100%nat ∧
  Elab.modules diamond_copy.2 !! 0%nat = Some 100%nat ∧
  ∀ m r', Elab.modules diamond_copy.2 !! m = Some r' →
          Elab.elaborate_module copying_pass m = Ok r'.
Proof.
  apply (run_returns_what_the_hook_returned diamond_graph copying_pass
           10 0 100 diamond_copy.2).
  vm_compute. reflexivity.
Defined.

Lemma run_returns_only_on_well_formed_witness :
  well_formed mixed_children_graph Elab.base_pass 1.
Proof.
  apply (run_returns_only_on_well_formed mixed_children_graph Elab.base_pass
           10 0 0 mixed_children_run.2).
  - vm_compute. reflexivity.
  - apply rtc_once, mixed_children_child_0_1.
Defined.

Lemma loop_child_0_1 : child loop_graph 0 1.
Proof. apply list_elem_of_singleton. reflexivity. Qed.

Lemma loop_child_1_2 : child loop_graph 1 2.
Proof. apply list_elem_of_singleton. reflexivity. Qed.

Lemma loop_child_2_1 : child loop_graph 2 1.
Proof. apply list_elem_of_singleton. reflexivity. Qed.

Lemma cyclic_hierarchy_is_not_elaborated_witness :
  is_Err (Elab.elaborate loop_graph Elab.base_pass 10 (IModule 0)).1 ∧
  ∀ b, reaches_cycle (child loop_graph) b →
    (b ∉ dom (Elab.modules
                (Elab.elaborate loop_graph Elab.base_pass 10 (IModule 0)).2)) ∧
    (Elab.Call_elaborate_module b ∉
       Elab.effects (Elab.elaborate loop_graph Elab.base_pass 10 (IModule 0)).2).
Proof.
  apply (cyclic_hierarchy_is_not_elaborated loop_graph Elab.base_pass 10 0 1).
  - apply rtc_once, loop_child_0_1.
  - apply (tc_l _ 1%nat 2%nat 1%nat loop_child_1_2).
    apply tc_once, loop_child_2_1.
Defined.

Lemma diamond_rank_falls p c :
  child diamond_graph p c → (diamond_rank c < diamond_rank p)%nat.
Proof.
  unfold child. destruct p as [|[|[|p]]]; vm_compute child_modules.
  - rewrite !elem_of_cons, elem_of_nil.
    intros [->|[->|[->|[]]]]; simpl; lia.
  - rewrite !elem_of_cons, elem_of_nil. intros [->|[]]; simpl; lia.
  - by rewrite elem_of_nil.
  - by rewrite elem_of_nil.
Qed.

Lemma diamond_rank_falls_instances p c :
  instantiates diamond_graph p c → (diamond_rank c < diamond_rank p)%nat.
Proof.
  unfold instantiates. destruct p as [|[|[|p]]]; vm_compute module_targets.
  - rewrite !elem_of_cons, elem_of_nil.
    intros [->|[->|[->|[]]]]; simpl; lia.
  - rewrite !elem_of_cons, elem_of_nil. intros [->|[]]; simpl; lia.
  - by rewrite elem_of_nil.
  - by rewrite elem_of_nil.
Qed.

Lemma elaborate_depth_suffices_witness :
  Elab.elaborate diamond_graph copying_pass 3 (IModule 0) =
  Elab.elaborate diamond_graph copying_pass 1000 (IModule 0).
Proof.
  apply (elaborate_depth_suffices diamond_graph copying_pass diamond_rank
           3 1000 0 diamond_rank_falls); simpl; lia.
Defined.

Lemma export_depth_suffices_witness :
  Proto.run_export int64_fits diamond_graph 3 [0%nat] None =
  Proto.run_export int64_fits diamond_graph 1000 [0%nat] None.
Proof.
  apply (export_depth_suffices int64_fits diamond_graph diamond_rank 3 1000 [0%nat] None
           diamond_rank_falls_instances).
  intros top Htop. apply list_elem_of_singleton in Htop. subst top.
  simpl. lia.
Defined.

End MoreConcrete.
